(** * Hydrolysis (polymer-analyzer): a shallow embedding of the analysis core

    The development follows the TypeScript sources:
    - [ExpressionScanner]  : src/polymer/expression-scanner.ts
    - [Model]              : src/model/document.ts, import.ts, element.ts
    - [Reference]          : src/model/reference.ts
    - [Url]                : src/url-loader/url-resolver.ts
    - [FSUrlLoader]        : src/url-loader/fs-url-loader.ts
    - [NamespaceScanner]   : the namespace scanner exercised by
                             test/polymer/namespace-scanner_test.ts

    JavaScript strings are modelled by [string] (sequences of 8-bit code
    units), string indexes by [nat], [Set]s by duplicate-free lists in
    insertion order, [Map]s by [gmap], and exceptions by an explicit
    result type. *)

From Stdlib Require Import Ascii String List Arith Lia Bool Sorted.
From stdpp Require Import base option list gmap strings pretty.

Set Default Proof Using "Type".

(** ** Exceptions *)

(** A JavaScript computation either returns a value or throws. *)
Inductive Result (A : Type) : Type :=
| Ok (a : A)
| Throw (e : string).
Arguments Ok {A} a.
Arguments Throw {A} e.

Definition rbind {A B} (r : Result A) (k : A → Result B) : Result B :=
  match r with
  | Ok a => k a
  | Throw e => Throw e
  end.

#[global] Instance Result_bind : MBind Result := λ A B k r, rbind r k.
#[global] Instance Result_ret : MRet Result := @Ok.

#[local] Arguments String.append : simpl nomatch.

(** ** String helpers shared by the scanners *)

Module Str.

(** [str.slice(i, j)] for [i <= j <= str.length]. *)
Definition slice (i j : nat) (s : string) : string :=
  String.substring i (j - i) s.

(** [str.indexOf(pat, from)], [None] standing for [-1]. *)
Definition indexOf (pat : string) (from : nat) (s : string) : option nat :=
  String.index from pat s.

(** [str.startsWith(pat)]. *)
Definition startsWith (pat s : string) : bool := String.prefix pat s.

(** The suffix of [s] from index [n]. *)
Fixpoint drop (n : nat) (s : string) : string :=
  match n, s with
  | 0, _ => s
  | S n', String _ s' => drop n' s'
  | S _, EmptyString => EmptyString
  end.

Lemma length_append (s t : string) :
  String.length (s +:+ t) = String.length s + String.length t.
Proof. induction s as [|c s IH]; simpl; [done|by rewrite IH]. Qed.

Lemma append_nil_r (s : string) : s +:+ "" = s.
Proof. induction s as [|c s IH]; simpl; [done|by rewrite IH]. Qed.

Lemma append_assoc (s t u : string) : (s +:+ t) +:+ u = s +:+ t +:+ u.
Proof. induction s as [|c s IH]; simpl; [done|by rewrite IH]. Qed.

Lemma substring_0_length (s : string) :
  String.substring 0 (String.length s) s = s.
Proof. induction s as [|c s IH]; simpl; [done|by rewrite IH]. Qed.

Lemma substring_append_l (s t : string) :
  String.substring 0 (String.length s) (s +:+ t) = s.
Proof. induction s as [|c s IH]; simpl; [by destruct t|by rewrite IH]. Qed.

Lemma prefix_append (s t : string) : String.prefix s (s +:+ t) = true.
Proof. apply String.prefix_correct, substring_append_l. Qed.

Lemma drop_append (s t : string) : drop (String.length s) (s +:+ t) = t.
Proof. induction s as [|c s IH]; simpl; [by destruct t|done]. Qed.

Lemma length_drop (n : nat) (s : string) :
  String.length (drop n s) = String.length s - n.
Proof.
  revert s; induction n as [|n IH]; intros [|c s]; simpl; auto with lia.
Qed.

Lemma length_substring (n m : nat) (s : string) :
  n + m ≤ String.length s → String.length (String.substring n m s) = m.
Proof.
  revert n m; induction s as [|c s IH]; intros [|n] [|m]; simpl; intros H;
    try lia; auto with lia.
Qed.

(** A string splits at any index into a prefix and the dropped suffix. *)
Lemma substring_drop (n : nat) (s : string) :
  String.substring 0 n s +:+ drop n s = s.
Proof.
  revert s; induction n as [|n IH]; intros [|c s]; simpl; try done.
  by rewrite IH.
Qed.

Lemma substring_S (n m : nat) (c : ascii) (s : string) :
  String.substring (S n) m (String c s) = String.substring n m s.
Proof. done. Qed.

Lemma substring_as_drop (n m : nat) (s : string) :
  String.substring n m s = String.substring 0 m (drop n s).
Proof.
  revert s m; induction n as [|n IH]; intros [|c s] m; simpl; try done.
  by destruct m.
Qed.

Lemma drop_drop (n m : nat) (s : string) : drop n (drop m s) = drop (m + n) s.
Proof.
  revert s; induction m as [|m IH]; intros s; simpl; [done|].
  destruct s as [|c s]; [by destruct n|apply IH].
Qed.

(** What [String.index] returns lies at or after the start index, and the
    pattern fits in the string from there. *)
Lemma index_ge (n m : nat) (pat s : string) :
  String.index n pat s = Some m → n ≤ m.
Proof.
  revert n m; induction s as [|c s IH]; intros [|n] m; simpl;
    try (intros; lia); try discriminate.
  destruct (String.index n pat s) as [k|] eqn:E; [|discriminate].
  intros [= <-]. apply IH in E. lia.
Qed.

Lemma prefix_length (pat s : string) :
  String.prefix pat s = true → String.length pat ≤ String.length s.
Proof.
  revert s; induction pat as [|a pat IH]; intros [|b s]; simpl;
    try lia; try discriminate.
  destruct (ascii_dec a b); [|discriminate].
  intros H%IH. lia.
Qed.

Lemma index_0_cons (pat : string) (c : ascii) (s : string) :
  String.index 0 pat (String c s) =
  if String.prefix pat (String c s) then Some 0
  else S <$> String.index 0 pat s.
Proof. simpl. by destruct (String.index 0 pat s). Qed.

Lemma index_S_cons (n : nat) (pat : string) (c : ascii) (s : string) :
  String.index (S n) pat (String c s) = S <$> String.index n pat s.
Proof. simpl. by destruct (String.index n pat s). Qed.

Lemma index_fits (n m : nat) (pat s : string) :
  String.index n pat s = Some m → m + String.length pat ≤ String.length s.
Proof.
  revert n m; induction s as [|c s IH]; intros [|n] m.
  - simpl. destruct pat; intros ?; simplify_eq/=; lia.
  - discriminate.
  - rewrite index_0_cons. destruct (String.prefix _ _) eqn:P.
    + intros ?; simplify_eq. apply prefix_length in P. simpl in *. lia.
    + destruct (String.index 0 pat s) as [k|] eqn:E; [|discriminate].
      intros ?; simplify_eq/=. apply IH in E. lia.
  - rewrite index_S_cons.
    destruct (String.index n pat s) as [k|] eqn:E; [|discriminate].
    intros ?; simplify_eq/=. apply IH in E. lia.
Qed.

End Str.

(** ** src/polymer/expression-scanner.ts *)

Module ExpressionScanner.

(** *** Source ranges (model/source-range) *)

Record Position := { line : nat; column : nat }.
Record SourceRange := { file : string; start : Position; end_ : Position }.
Record LocationOffset := { off_line : nat; off_col : nat }.

(** *** parse5 nodes, as far as the scanner reads them *)

Record ASTAttribute := { attr_name : string; attr_value : string }.

Record ASTNode := {
  nodeName : string;
  node_value : option string;
  attrs : option (list ASTAttribute);
}.

(** [dom5.isTextNode]. *)
Definition isTextNode (node : ASTNode) : bool :=
  bool_decide (nodeName node = "#text").

(** A JavaScript string is truthy when it is not empty. *)
Definition truthy (s : string) : bool := negb (bool_decide (s = "")).

(** The two queries the scanner makes of a [ParsedHtmlDocument]. *)
Record ParsedHtmlDocument := {
  sourceRangeForNode : ASTNode → option SourceRange;
  sourceRangeForAttributeValue : ASTNode → string → bool → option SourceRange;
}.

(** *** Raw databindings *)

(** The databinding syntax used: ['{'] or ['[']. *)
Inductive Direction := DirCurly | DirSquare.

Inductive DatabindingInto := StringInterpolation | Attribute.

Record RawDatabinding := {
  raw_expressionText : string;
  startIndex : nat;
  endIndex : nat;
  raw_direction : Direction;
}.

#[global] Instance Direction_eq_dec : EqDecision Direction.
Proof. solve_decision. Defined.
#[global] Instance DatabindingInto_eq_dec : EqDecision DatabindingInto.
Proof. solve_decision. Defined.

Definition openerOf (d : Direction) : string :=
  match d with DirCurly => "{{" | DirSquare => "[[" end.

Definition closerOf (d : Direction) : string :=
  match d with DirCurly => "}}" | DirSquare => "]]" end.

(** [openers.exec(str)] for [openers = /{{|\[\[/g] with the given
    [lastIndex]: the leftmost occurrence of either opener at or after
    [lastIndex], as [(match.index, direction)]. *)
Definition openers_exec (str : string) (lastIndex : nat)
  : option (nat * Direction) :=
  match Str.indexOf "{{" lastIndex str, Str.indexOf "[[" lastIndex str with
  | Some i, Some j => if i <? j then Some (i, DirCurly) else Some (j, DirSquare)
  | Some i, None => Some (i, DirCurly)
  | None, Some j => Some (j, DirSquare)
  | None, None => None
  end.

(** The body of the [while] loop of [findDatabindingInString]; [fuel]
    bounds the number of iterations, [None] means the bound was hit. *)
Fixpoint findDatabindingLoop (fuel : nat) (str : string) (lastIndex : nat)
    (expressions : list RawDatabinding) : option (list RawDatabinding) :=
  match fuel with
  | 0 => None
  | S fuel' =>
      match openers_exec str lastIndex with
      | None => Some expressions
      | Some (index, direction) =>
          let startIndex := index + 2 in
          let closers := closerOf direction in
          match Str.indexOf closers startIndex str with
          | None =>
              (* No closers, this wasn't an expression after all. *)
              Some expressions
          | Some endIndex =>
              let expressionText := Str.slice startIndex endIndex str in
              findDatabindingLoop fuel' str (endIndex + 2)
                (expressions ++
                   [ {| raw_expressionText := expressionText;
                        startIndex := startIndex;
                        endIndex := endIndex;
                        raw_direction := direction |} ])
          end
      end
  end.

(** The scan resumed at [lastIndex]; every iteration moves [lastIndex]
    forward, so [S (length str - lastIndex)] iterations are enough
    (lemma [findDatabindingLoop_enough]). *)
Definition scanFrom (str : string) (lastIndex : nat) : list RawDatabinding :=
  default [] (findDatabindingLoop
                (S (String.length str - lastIndex)) str lastIndex []).

Definition findDatabindingInString (str : string) : list RawDatabinding :=
  scanFrom str 0.

(** Positions of the newline characters of [str], in increasing order
    (what the [indexOf] loop of [findNewlineIndexes] collects). *)
Fixpoint newlinesFrom (pos : nat) (str : string) : list nat :=
  match str with
  | EmptyString => []
  | String c str' =>
      if bool_decide (c = "010"%char) then pos :: newlinesFrom (S pos) str'
      else newlinesFrom (S pos) str'
  end.

Definition findNewlineIndexes (str : string) : list nat :=
  newlinesFrom 0 str.

Record RangeState := {
  startLineNumLinesIntoText : nat;
  startOfLineIndex : nat;
  endLineNumLinesIntoText : nat;
  endOfLineIndex : nat;
}.

Fixpoint indexesLoop (startIndex endIndex : nat) (newlineIndexes : list nat)
    (st : RangeState) : RangeState :=
  match newlineIndexes with
  | [] => st
  | index :: rest =>
      let st1 :=
        if index <? startIndex then
          {| startLineNumLinesIntoText := S (startLineNumLinesIntoText st);
             startOfLineIndex := index + 1;
             endLineNumLinesIntoText := endLineNumLinesIntoText st;
             endOfLineIndex := endOfLineIndex st |}
        else st in
      if index <? endIndex then
        indexesLoop startIndex endIndex rest
          {| startLineNumLinesIntoText := startLineNumLinesIntoText st1;
             startOfLineIndex := startOfLineIndex st1;
             endLineNumLinesIntoText := S (endLineNumLinesIntoText st1);
             endOfLineIndex := index + 1 |}
      else st1 (* Nothing more interesting to do. *)
  end.

Definition indexesToSourceRange (startIndex endIndex : nat)
    (filename : string) (newlineIndexes : list nat) : SourceRange :=
  let st := indexesLoop startIndex endIndex newlineIndexes
              {| startLineNumLinesIntoText := 0; startOfLineIndex := 0;
                 endLineNumLinesIntoText := 0; endOfLineIndex := 0 |} in
  {| file := filename;
     start := {| line := startLineNumLinesIntoText st;
                 column := startIndex - startOfLineIndex st |};
     end_ := {| line := endLineNumLinesIntoText st;
                column := endIndex - endOfLineIndex st |} |}.

(** *** The regular expression of the event-name suffix

    The expression has two greedy groups of any characters, separated by
    two colons; the dot of a group matches any character except a line
    terminator.  The matcher
    below is the backtracking search the regular expression denotes: the
    leftmost start position, for it the longest first group that is
    followed by [::], and then the longest second group. *)

Definition isLineTerminator (c : ascii) : bool :=
  bool_decide (c = "010"%char) || bool_decide (c = "013"%char).

(** Length of the longest prefix of [s] without a line terminator. *)
Fixpoint dotStar (s : string) : nat :=
  match s with
  | EmptyString => 0
  | String c s' => if isLineTerminator c then 0 else S (dotStar s')
  end.

(** Try first groups of length [n], [n - 1], ..., [0] at the start of [s]. *)
Fixpoint tryGroup1 (s : string) (n : nat) : option (string * string) :=
  if Str.startsWith "::" (Str.drop n s) then
    let rest := Str.drop (n + 2) s in
    Some (String.substring 0 n s, String.substring 0 (dotStar rest) rest)
  else
    match n with
    | 0 => None
    | S n' => tryGroup1 s n'
    end.

(** [s.match] of that expression, as [(match[1], match[2])]. *)
Fixpoint matchEvent (s : string) : option (string * string) :=
  match tryGroup1 s (dotStar s) with
  | Some r => Some r
  | None =>
      match s with
      | EmptyString => None
      | String _ s' => matchEvent s'
      end
  end.

Section WithCollaborators.

(** The script parser and [correctSourceRange] (model/model) are
    collaborators of the scanner; [espree_parse] throws on a syntax
    error. *)
Context {Program : Type}.
Variable espree_parse : string → Result Program.
Variable correctSourceRange : SourceRange → LocationOffset → SourceRange.

(** A databinding expression. *)
Record ScannedDatabindingExpression := {
  astNode : ASTNode;
  attribute : option ASTAttribute;
  sourceRange : SourceRange;
  warnings : list string;
  direction : Direction;
  expressionText : string;
  expressionAst : Program;
  databindingInto : DatabindingInto;
  eventName : option string;
}.

(** The constructor: it parses [expressionText]. *)
Definition new_ScannedDatabindingExpression
    (astNode : ASTNode) (attribute : option ASTAttribute)
    (sourceRange : SourceRange) (direction : Direction)
    (expressionText : string) (eventName : option string)
    (databindingInto : DatabindingInto)
  : Result ScannedDatabindingExpression :=
  ast ← espree_parse expressionText;
  Ok {| astNode := astNode; attribute := attribute;
        sourceRange := sourceRange; warnings := [];
        direction := direction; expressionText := expressionText;
        expressionAst := ast; databindingInto := databindingInto;
        eventName := eventName |}.

(** [for (const x of xs) { results.push(f x) }], stopping at the first
    exception. *)
Fixpoint pushAll {A B} (f : A → Result B) (xs : list A) (results : list B)
  : Result (list B) :=
  match xs with
  | [] => Ok results
  | x :: xs' => y ← f x; pushAll f xs' (results ++ [y])
  end.

Definition textBinding (node : ASTNode) (nodeSourceRange : SourceRange)
    (newlineIndexes : list nat) (dataBinding : RawDatabinding)
  : Result ScannedDatabindingExpression :=
  let startOfTextNodeOffset :=
    {| off_line := line (start nodeSourceRange);
       off_col := column (start nodeSourceRange) |} in
  let sourceRange :=
    indexesToSourceRange (startIndex dataBinding) (endIndex dataBinding)
      (file nodeSourceRange) newlineIndexes in
  new_ScannedDatabindingExpression node None
    (correctSourceRange sourceRange startOfTextNodeOffset)
    (raw_direction dataBinding) (raw_expressionText dataBinding)
    None StringInterpolation.

Definition _extractDataBindingsFromTextNode (document : ParsedHtmlDocument)
    (node : ASTNode) (results : list ScannedDatabindingExpression)
  : Result (list ScannedDatabindingExpression) :=
  let text := default "" (node_value node) in
  let dataBindings := findDatabindingInString text in
  if length dataBindings =? 0 then Ok results
  else
    let newlineIndexes := findNewlineIndexes text in
    match sourceRangeForNode document node with
    | None => Throw "TypeError: Cannot read property 'start' of undefined"
    | Some nodeSourceRange =>
        pushAll (textBinding node nodeSourceRange newlineIndexes)
          dataBindings results
    end.

Definition attrBinding (node : ASTNode) (attr : ASTAttribute)
    (attributeValueRange : SourceRange) (newlineIndexes : list nat)
    (dataBinding : RawDatabinding)
  : Result ScannedDatabindingExpression :=
  let attributeOffset :=
    {| off_line := line (start attributeValueRange);
       off_col := column (start attributeValueRange) |} in
  let isFullAttributeBinding :=
    (startIndex dataBinding =? 2) &&
    (endIndex dataBinding + 2 =? String.length (attr_value attr)) in
  let databindingInto :=
    if isFullAttributeBinding then Attribute else StringInterpolation in
  let '(expressionText, eventName) :=
    match raw_direction dataBinding with
    | DirCurly =>
        match matchEvent (raw_expressionText dataBinding) with
        | Some (m1, m2) => (m1, Some m2)
        | None => (raw_expressionText dataBinding, None)
        end
    | DirSquare => (raw_expressionText dataBinding, None)
    end in
  let sourceRange :=
    indexesToSourceRange (startIndex dataBinding) (endIndex dataBinding)
      (file attributeValueRange) newlineIndexes in
  new_ScannedDatabindingExpression node (Some attr)
    (correctSourceRange sourceRange attributeOffset)
    (raw_direction dataBinding) expressionText eventName databindingInto.

Definition _extractDataBindingsFromAttr (document : ParsedHtmlDocument)
    (node : ASTNode) (attr : ASTAttribute)
    (results : list ScannedDatabindingExpression)
  : Result (list ScannedDatabindingExpression) :=
  if negb (truthy (attr_value attr)) then Ok results
  else
    let dataBindings := findDatabindingInString (attr_value attr) in
    match sourceRangeForAttributeValue document node (attr_name attr) true with
    | None => Throw "TypeError: Cannot read property 'start' of undefined"
    | Some attributeValueRange =>
        let newlineIndexes := findNewlineIndexes (attr_value attr) in
        pushAll (attrBinding node attr attributeValueRange newlineIndexes)
          dataBindings results
    end.

(** The callback [scan] passes to [dom5.nodeWalkAll], applied to one
    node. *)
Definition visitNode (document : ParsedHtmlDocument) (node : ASTNode)
    (results : list ScannedDatabindingExpression)
  : Result (list ScannedDatabindingExpression) :=
  results1 ←
    (if isTextNode node && truthy (default "" (node_value node))
     then _extractDataBindingsFromTextNode document node results
     else Ok results);
  match attrs node with
  | Some attrs =>
      foldl (λ acc attr, results ← acc;
                         _extractDataBindingsFromAttr document node attr
                           results)
            (Ok results1) attrs
  | None => Ok results1
  end.

(** [scan], given the nodes [nodeWalkAll] visits in the databinding
    templates of the document, in visiting order. *)
Definition scan (document : ParsedHtmlDocument) (walked : list ASTNode)
  : Result (list ScannedDatabindingExpression) :=
  foldl (λ acc node, results ← acc; visitNode document node results)
        (Ok []) walked.

End WithCollaborators.

End ExpressionScanner.


(** ** Properties of the databinding scan *)

Module ExpressionScannerFacts.
Import ExpressionScanner.

Lemma openers_exec_bounds (str : string) (lastIndex i : nat) (d : Direction) :
  openers_exec str lastIndex = Some (i, d) →
  lastIndex ≤ i ∧ i + 2 ≤ String.length str.
Proof.
  unfold openers_exec, Str.indexOf.
  destruct (String.index lastIndex "{{" str) as [a|] eqn:Ea;
    destruct (String.index lastIndex "[[" str) as [b|] eqn:Eb;
    try destruct (a <? b); intros ?; simplify_eq;
    repeat match goal with
      | H : String.index _ _ _ = Some _ |- _ =>
          pose proof (Str.index_ge _ _ _ _ H);
          pose proof (Str.index_fits _ _ _ _ H); clear H
      end; simpl in *; lia.
Qed.

(** The accumulator is only ever appended to. *)
Lemma findDatabindingLoop_acc (fuel : nat) (str : string) (lastIndex : nat)
    (acc : list RawDatabinding) :
  findDatabindingLoop fuel str lastIndex acc =
  (acc ++.) <$> findDatabindingLoop fuel str lastIndex [].
Proof.
  revert lastIndex acc; induction fuel as [|fuel IH]; intros lastIndex acc;
    simpl; [done|].
  destruct (openers_exec str lastIndex) as [[i d]|]; simpl;
    [|by rewrite app_nil_r].
  destruct (Str.indexOf (closerOf d) (i + 2) str) as [e|]; simpl;
    [|by rewrite app_nil_r].
  rewrite (IH _ (acc ++ _)), (IH _ [_]).
  destruct (findDatabindingLoop fuel str (e + 2) []); simpl; [|done].
  by rewrite <- app_assoc.
Qed.

(** Every iteration moves [lastIndex] forward, so the loop ends within
    [length str - lastIndex + 1] iterations. *)
Lemma findDatabindingLoop_enough (fuel : nat) (str : string) (lastIndex : nat)
    (acc : list RawDatabinding) :
  String.length str - lastIndex < fuel →
  is_Some (findDatabindingLoop fuel str lastIndex acc).
Proof.
  revert lastIndex acc; induction fuel as [|fuel IH]; intros lastIndex acc Hf;
    [lia|simpl].
  destruct (openers_exec str lastIndex) as [[i d]|] eqn:Eo; [|by eexists].
  destruct (Str.indexOf (closerOf d) (i + 2) str) as [e|] eqn:Ec; [|by eexists].
  apply IH. apply openers_exec_bounds in Eo.
  pose proof (Str.index_ge _ _ _ _ Ec). pose proof (Str.index_fits _ _ _ _ Ec).
  destruct d; simpl in *; lia.
Qed.

Lemma findDatabindingLoop_mono (fuel fuel' : nat) (str : string)
    (lastIndex : nat) (acc l : list RawDatabinding) :
  findDatabindingLoop fuel str lastIndex acc = Some l → fuel ≤ fuel' →
  findDatabindingLoop fuel' str lastIndex acc = Some l.
Proof.
  revert fuel' lastIndex acc; induction fuel as [|fuel IH];
    intros fuel' lastIndex acc; [done|].
  intros H Hle. destruct fuel' as [|fuel']; [lia|]. simpl in *.
  destruct (openers_exec str lastIndex) as [[i d]|]; [|done].
  destruct (Str.indexOf (closerOf d) (i + 2) str) as [e|]; [|done].
  apply IH; [done|lia].
Qed.

Lemma findDatabindingLoop_fuel (fuel : nat) (str : string) (lastIndex : nat) :
  String.length str - lastIndex < fuel →
  findDatabindingLoop fuel str lastIndex [] = Some (scanFrom str lastIndex).
Proof.
  intros Hf. unfold scanFrom.
  destruct (findDatabindingLoop_enough (S (String.length str - lastIndex))
              str lastIndex []) as [l Hl]; [lia|].
  rewrite Hl. simpl. eapply findDatabindingLoop_mono; [done|lia].
Qed.

(** The scan as a recursion equation. *)
Lemma scanFrom_unfold (str : string) (lastIndex : nat) :
  scanFrom str lastIndex =
  match openers_exec str lastIndex with
  | None => []
  | Some (index, d) =>
      match Str.indexOf (closerOf d) (index + 2) str with
      | None => []
      | Some e =>
          {| raw_expressionText := Str.slice (index + 2) e str;
             startIndex := index + 2; endIndex := e; raw_direction := d |}
          :: scanFrom str (e + 2)
      end
  end.
Proof.
  unfold scanFrom at 1. simpl.
  destruct (openers_exec str lastIndex) as [[i d]|] eqn:Eo; [|done].
  destruct (Str.indexOf (closerOf d) (i + 2) str) as [e|] eqn:Ec; [|done].
  rewrite findDatabindingLoop_acc, findDatabindingLoop_fuel; [done|].
  apply openers_exec_bounds in Eo.
  pose proof (Str.index_ge _ _ _ _ Ec). pose proof (Str.index_fits _ _ _ _ Ec).
  destruct d; simpl in *; lia.
Qed.

(** What [scanFrom] returns only depends on the openers and closers it
    found: every raw databinding sits between an opener and its closer. *)
Record RawOk (str : string) (raw : RawDatabinding) : Prop := {
  raw_start_ge : 2 ≤ startIndex raw;
  raw_start_le_end : startIndex raw ≤ endIndex raw;
  raw_end_fits : endIndex raw + 2 ≤ String.length str;
  raw_opener :
    String.substring (startIndex raw - 2) 2 str = openerOf (raw_direction raw);
  raw_closer :
    String.substring (endIndex raw) 2 str = closerOf (raw_direction raw);
  raw_text :
    raw_expressionText raw = Str.slice (startIndex raw) (endIndex raw) str;
}.

Lemma openers_exec_opener (str : string) (lastIndex i : nat) (d : Direction) :
  openers_exec str lastIndex = Some (i, d) →
  String.substring i 2 str = openerOf d.
Proof.
  unfold openers_exec, Str.indexOf.
  destruct (String.index lastIndex "{{" str) as [a|] eqn:Ea;
    destruct (String.index lastIndex "[[" str) as [b|] eqn:Eb;
    try destruct (a <? b); intros ?; simplify_eq; simpl;
    repeat match goal with
      | H : String.index ?n ?p ?s = Some ?m |- _ =>
          pose proof (String.index_correct1 n m p s H); clear H
      end; done.
Qed.

Lemma scanFrom_RawOk (str : string) (lastIndex : nat) :
  Forall (RawOk str) (scanFrom str lastIndex).
Proof.
  remember (String.length str - lastIndex) as n eqn:Hn.
  revert lastIndex Hn.
  induction (lt_wf n) as [n _ IH]; intros lastIndex ->.
  rewrite scanFrom_unfold.
  destruct (openers_exec str lastIndex) as [[i d]|] eqn:Eo; [|constructor].
  destruct (Str.indexOf (closerOf d) (i + 2) str) as [e|] eqn:Ec; [|constructor].
  pose proof (openers_exec_bounds _ _ _ _ Eo) as [??].
  pose proof (Str.index_ge _ _ _ _ Ec). pose proof (Str.index_fits _ _ _ _ Ec).
  assert (String.length (closerOf d) = 2) as Hc by by destruct d.
  constructor.
  - split; simpl; try lia; try done.
    + replace (i + 2 - 2) with i by lia. by eapply openers_exec_opener.
    + rewrite <- Hc at 1. exact (String.index_correct1 _ _ _ _ Ec).
  - eapply (IH (String.length str - (e + 2))); [lia|done].
Qed.

Lemma findDatabindingInString_RawOk (str : string) :
  Forall (RawOk str) (findDatabindingInString str).
Proof. apply scanFrom_RawOk. Qed.

(** Splitting a string in three at two indexes. *)
Lemma string_split3 (s : string) (a b : nat) :
  a ≤ b →
  s = String.substring 0 a s +:+ String.substring a (b - a) s +:+ Str.drop b s.
Proof.
  intros Hab.
  rewrite <- (Str.substring_drop a s) at 1. f_equal.
  rewrite (Str.substring_as_drop a).
  rewrite <- (Str.substring_drop (b - a) (Str.drop a s)) at 1. f_equal.
  rewrite Str.drop_drop. f_equal. lia.
Qed.

Lemma drop_as_substring (s : string) (b n : nat) :
  b + n = String.length s → Str.drop b s = String.substring b n s.
Proof.
  intros Hlen. rewrite Str.substring_as_drop.
  replace n with (String.length (Str.drop b s))
    by (rewrite Str.length_drop; lia).
  by rewrite Str.substring_0_length.
Qed.

(** The test of [isFullAttributeBinding], read on the string: the value is
    exactly opener, expression, closer. *)
Lemma full_binding_iff (value : string) (raw : RawDatabinding) :
  RawOk value raw →
  (startIndex raw = 2 ∧ endIndex raw + 2 = String.length value) ↔
  value = openerOf (raw_direction raw) +:+ raw_expressionText raw
          +:+ closerOf (raw_direction raw).
Proof.
  intros [Hge Hle Hfit Hop Hcl Htx]. split.
  - intros [Hs He]. rewrite Hs in *. simpl in Hop.
    rewrite (string_split3 value 2 (endIndex raw)) at 1 by done.
    rewrite Hop, Htx. unfold Str.slice. do 2 f_equal.
    rewrite <- Hcl. apply drop_as_substring. lia.
  - intros Hv. apply (f_equal String.length) in Hv.
    rewrite !Str.length_append, Htx in Hv. unfold Str.slice in Hv.
    rewrite Str.length_substring in Hv by lia.
    destruct (raw_direction raw); simpl in Hv; lia.
Qed.

(** [pushAll] appends one result per element, in order. *)
Lemma pushAll_Ok {A B} (f : A → Result B) (xs : list A) (results r : list B) :
  pushAll f xs results = Ok r →
  ∃ new, r = results ++ new ∧ Forall2 (λ x y, f x = Ok y) xs new.
Proof.
  revert results; induction xs as [|x xs IH]; intros results; simpl.
  - intros [= <-]. exists []. by rewrite app_nil_r.
  - destruct (f x) as [y|] eqn:Ey; simpl; [|done].
    intros (new & -> & Hall)%IH. exists (y :: new).
    rewrite <- app_assoc. split; [done|]. by constructor.
Qed.

(** *** The event-name suffix *)


Lemma prefix_split (pat t : string) :
  String.prefix pat t = true → t = pat +:+ Str.drop (String.length pat) t.
Proof.
  intros H%String.prefix_correct.
  rewrite <- H at 1. symmetry. apply Str.substring_drop.
Qed.

Lemma prefix_split_colons (t : string) :
  String.prefix "::" t = true → t = "::" +:+ Str.drop 2 t.
Proof. apply (prefix_split "::"). Qed.

Lemma startsWith_drop_iff (s : string) (k : nat) :
  Str.startsWith "::" (Str.drop k s) = true ↔
  ∃ a b, s = a +:+ "::" +:+ b ∧ String.length a = k.
Proof.
  unfold Str.startsWith. split.
  - intros H. pose proof (Str.prefix_length _ _ H) as Hlen.
    rewrite Str.length_drop in Hlen. simpl in Hlen.
    exists (String.substring 0 k s), (Str.drop 2 (Str.drop k s)).
    split.
    + rewrite <- (prefix_split_colons _ H). symmetry. apply Str.substring_drop.
    + apply Str.length_substring. lia.
  - intros (a & b & -> & <-). rewrite Str.drop_append. apply Str.prefix_append.
Qed.


Lemma tryGroup1_eq (s : string) (n : nat) :
  tryGroup1 s n =
  if Str.startsWith "::" (Str.drop n s) then
    Some (String.substring 0 n s,
          let rest := Str.drop (n + 2) s in
          String.substring 0 (dotStar rest) rest)
  else match n with 0 => None | S n' => tryGroup1 s n' end.
Proof. by destruct n. Qed.

Lemma matchEvent_eq (s : string) :
  matchEvent s =
  match tryGroup1 s (dotStar s) with
  | Some r => Some r
  | None => match s with
            | EmptyString => None
            | String _ s' => matchEvent s'
            end
  end.
Proof. by destruct s. Qed.

(** [tryGroup1 s n] picks the largest [k <= n] at which [::] starts. *)
Lemma tryGroup1_Some (s : string) (n k : nat) :
  k ≤ n → Str.startsWith "::" (Str.drop k s) = true →
  ∃ k', k ≤ k' ≤ n ∧ Str.startsWith "::" (Str.drop k' s) = true ∧
        (∀ j, k' < j ≤ n → Str.startsWith "::" (Str.drop j s) = false) ∧
        tryGroup1 s n =
          Some (String.substring 0 k' s,
                let rest := Str.drop (k' + 2) s in
                String.substring 0 (dotStar rest) rest).
Proof.
  induction n as [|n IH]; intros Hk Hp; rewrite tryGroup1_eq.
  - assert (k = 0) as -> by lia. rewrite Hp. exists 0.
    split_and!; try done; try lia; intros; lia.
  - destruct (Str.startsWith "::" (Str.drop (S n) s)) eqn:E.
    + exists (S n). split_and!; try done; try lia; intros; lia.
    + assert (k ≠ S n) by (intros ->; congruence).
      destruct IH as (k' & ? & ? & Hmax & ->); [lia|done|].
      exists k'. split_and!; try done; try lia.
      intros j Hj. destruct (decide (j = S n)) as [->|]; [done|].
      apply Hmax. lia.
Qed.




Lemma Forall2_Forall_impl {A B} (P : A → Prop) (R Q : A → B → Prop)
    (xs : list A) (ys : list B) :
  Forall P xs → Forall2 R xs ys → (∀ x y, P x → R x y → Q x y) →
  Forall2 Q xs ys.
Proof.
  intros HP HR HQ. induction HR as [|x y xs ys Hxy HR IH]; [constructor|].
  inversion HP; subst. constructor; auto.
Qed.

(** The opener found is the next one: none starts between [lastIndex] and
    it. *)
Lemma openers_exec_next (str : string) (lastIndex i : nat) (d : Direction) :
  openers_exec str lastIndex = Some (i, d) →
  ∀ p, lastIndex ≤ p → p < i →
    String.substring p 2 str ≠ "{{" ∧ String.substring p 2 str ≠ "[[".
Proof.
  unfold openers_exec, Str.indexOf.
  destruct (String.index lastIndex "{{" str) as [a|] eqn:Ea;
    destruct (String.index lastIndex "[[" str) as [b|] eqn:Eb;
    try destruct (Nat.ltb_spec a b); intros ? p Hp Hi; simplify_eq; split;
    first [ apply (String.index_correct2 _ _ "{{" _ Ea); lia
          | apply (String.index_correct2 _ _ "[[" _ Eb); lia
          | by apply (String.index_correct3 _ _ "{{" _ Ea)
          | by apply (String.index_correct3 _ _ "[[" _ Eb) ].
Qed.

Lemma openers_exec_none (str : string) (lastIndex : nat) :
  openers_exec str lastIndex = None →
  ∀ p, lastIndex ≤ p →
    String.substring p 2 str ≠ "{{" ∧ String.substring p 2 str ≠ "[[".
Proof.
  unfold openers_exec, Str.indexOf.
  destruct (String.index lastIndex "{{" str) as [a|] eqn:Ea;
    destruct (String.index lastIndex "[[" str) as [b|] eqn:Eb;
    try destruct (a <? b); intros ? p Hp; simplify_eq; split.
  - by apply (String.index_correct3 _ _ "{{" _ Ea).
  - by apply (String.index_correct3 _ _ "[[" _ Eb).
Qed.

(** *** The event-name suffix on a text of several lines *)














(** *** The scan, read on the string alone *)

(** No opener starts at index [p] of [str]. *)
Definition noOpenerAt (str : string) (p : nat) : Prop :=
  String.substring p 2 str ≠ "{{" ∧ String.substring p 2 str ≠ "[[".

(** The scan as the specification words it, from index [from] on: the
    next opener is found and its matching closer is looked for after it;
    a closed opener gives a databinding and the scan goes on after the
    closer; the scan ends when no opener is left or when the next opener
    has no closer. *)
Fixpoint ScanSpec (str : string) (from : nat) (l : list RawDatabinding)
  : Prop :=
  match l with
  | [] =>
      (∀ p, from ≤ p → noOpenerAt str p) ∨
      ∃ i d, from ≤ i ∧ String.substring i 2 str = openerOf d ∧
             (∀ p, from ≤ p → p < i → noOpenerAt str p) ∧
             ∀ p, i + 2 ≤ p → String.substring p 2 str ≠ closerOf d
  | raw :: l' =>
      (∃ i, startIndex raw = i + 2 ∧ from ≤ i ∧
            String.substring i 2 str = openerOf (raw_direction raw) ∧
            ∀ p, from ≤ p → p < i → noOpenerAt str p) ∧
      (startIndex raw ≤ endIndex raw ∧
       String.substring (endIndex raw) 2 str = closerOf (raw_direction raw) ∧
       ∀ p, startIndex raw ≤ p → p < endIndex raw →
            String.substring p 2 str ≠ closerOf (raw_direction raw)) ∧
      raw_expressionText raw = Str.slice (startIndex raw) (endIndex raw) str ∧
      ScanSpec str (endIndex raw + 2) l'
  end.

Lemma openerOf_not_noOpenerAt (str : string) (p : nat) (d : Direction) :
  String.substring p 2 str = openerOf d → ¬ noOpenerAt str p.
Proof. intros H [H1 H2]. by destruct d. Qed.

Lemma length_closerOf (d : Direction) : String.length (closerOf d) = 2.
Proof. by destruct d. Qed.

(** [openers.exec] finds an opener whenever one is left, the leftmost
    one. *)
Lemma openers_exec_finds (str : string) (lastIndex p : nat) (d : Direction) :
  lastIndex ≤ p → String.substring p 2 str = openerOf d →
  ∃ index d', openers_exec str lastIndex = Some (index, d') ∧ index ≤ p.
Proof.
  intros Hp Hop.
  destruct (openers_exec str lastIndex) as [[index d']|] eqn:Ho.
  - exists index, d'. split; [done|].
    destruct (decide (index ≤ p)) as [|Hn]; [done|].
    destruct (openerOf_not_noOpenerAt _ _ _ Hop).
    apply (openers_exec_next _ _ _ _ Ho p); lia.
  - destruct (openerOf_not_noOpenerAt _ _ _ Hop).
    exact (openers_exec_none _ _ Ho p Hp).
Qed.

(** [openers.exec] returns the next opener, and only it. *)
Lemma openers_exec_Some_iff (str : string) (lastIndex i : nat) (d : Direction) :
  openers_exec str lastIndex = Some (i, d) ↔
  lastIndex ≤ i ∧ String.substring i 2 str = openerOf d ∧
  ∀ p, lastIndex ≤ p → p < i → noOpenerAt str p.
Proof.
  split.
  - intros Ho. split_and!.
    + by apply openers_exec_bounds in Ho as [??].
    + by eapply openers_exec_opener.
    + intros p Hp Hi. exact (openers_exec_next _ _ _ _ Ho p Hp Hi).
  - intros (Hle & Hop & Hnone).
    destruct (openers_exec_finds str lastIndex i d Hle Hop)
      as (index & d' & Ho & Hi).
    rewrite Ho.
    pose proof (openers_exec_bounds _ _ _ _ Ho) as [? _].
    pose proof (openers_exec_opener _ _ _ _ Ho) as Hop'.
    assert (index = i) as ->.
    { destruct (decide (index = i)) as [|Hne]; [done|].
      destruct (openerOf_not_noOpenerAt _ _ _ Hop'). apply Hnone; lia. }
    rewrite Hop in Hop'. by destruct d, d'.
Qed.

Lemma openers_exec_None_iff (str : string) (lastIndex : nat) :
  openers_exec str lastIndex = None ↔ ∀ p, lastIndex ≤ p → noOpenerAt str p.
Proof.
  split; [intros Ho p Hp; exact (openers_exec_none _ _ Ho p Hp)|].
  intros Hnone.
  destruct (openers_exec str lastIndex) as [[i d]|] eqn:Ho; [|done].
  apply openers_exec_Some_iff in Ho as (Hle & Hop & _).
  by destruct (openerOf_not_noOpenerAt _ _ _ Hop (Hnone i Hle)).
Qed.

(** [indexOf] of a closer returns the first closer at or after the start
    index, and only it. *)
Lemma closer_indexOf_Some_iff (str : string) (d : Direction) (from e : nat) :
  Str.indexOf (closerOf d) from str = Some e ↔
  from ≤ e ∧ String.substring e 2 str = closerOf d ∧
  ∀ p, from ≤ p → p < e → String.substring p 2 str ≠ closerOf d.
Proof.
  unfold Str.indexOf. rewrite <- (length_closerOf d). split.
  - intros H. split_and!.
    + by eapply Str.index_ge.
    + by eapply String.index_correct1.
    + by eapply String.index_correct2.
  - intros (Hle & Hcl & Hnone).
    destruct (String.index from (closerOf d) str) as [m|] eqn:Hm.
    + f_equal. pose proof (Str.index_ge _ _ _ _ Hm).
      destruct (lt_eq_lt_dec m e) as [[Hlt|]|Hgt]; [|done|].
      * destruct (Hnone m); [done|done|]. by eapply String.index_correct1.
      * by destruct (String.index_correct2 _ _ _ _ Hm e).
    + destruct (String.index_correct3 from e _ _ Hm); [by destruct d|done|done].
Qed.

Lemma closer_indexOf_None_iff (str : string) (d : Direction) (from : nat) :
  Str.indexOf (closerOf d) from str = None ↔
  ∀ p, from ≤ p → String.substring p 2 str ≠ closerOf d.
Proof.
  split.
  - unfold Str.indexOf. intros H p Hp. rewrite <- (length_closerOf d) at 1.
    apply (String.index_correct3 _ _ _ _ H); [by destruct d|done].
  - intros Hnone.
    destruct (Str.indexOf (closerOf d) from str) as [e|] eqn:He; [|done].
    apply closer_indexOf_Some_iff in He as (Hle & Hcl & _).
    by destruct (Hnone e Hle).
Qed.

(** The scan meets its specification... *)
Lemma scanFrom_ScanSpec (str : string) (from : nat) :
  ScanSpec str from (scanFrom str from).
Proof.
  remember (String.length str - from) as n eqn:Hn.
  revert from Hn.
  induction (lt_wf n) as [n _ IH]; intros from ->.
  rewrite scanFrom_unfold.
  destruct (openers_exec str from) as [[i d]|] eqn:Eo.
  - pose proof (openers_exec_bounds _ _ _ _ Eo) as [??].
    apply openers_exec_Some_iff in Eo as (Hle & Hop & Hnone).
    destruct (Str.indexOf (closerOf d) (i + 2) str) as [e|] eqn:Ec.
    + pose proof (Str.index_fits _ _ _ _ Ec) as Hfit.
      rewrite length_closerOf in Hfit.
      apply closer_indexOf_Some_iff in Ec as (Hle' & Hcl & Hnone').
      simpl. split_and!; try done.
      * by exists i.
      * eapply (IH (String.length str - (e + 2))); [lia|done].
    + simpl. right. exists i, d. split_and!; try done.
      by apply closer_indexOf_None_iff.
  - simpl. left. by apply openers_exec_None_iff.
Qed.

(** ... and is the only list that does. *)
Lemma ScanSpec_unique (str : string) (from : nat) (l : list RawDatabinding) :
  ScanSpec str from l → l = scanFrom str from.
Proof.
  revert from. induction l as [|raw l IH]; intros from; simpl.
  - intros [Hnone|(i & d & Hle & Hop & Hnone & Hcl)]; rewrite scanFrom_unfold.
    + by rewrite (proj2 (openers_exec_None_iff _ _) Hnone).
    + rewrite (proj2 (openers_exec_Some_iff _ _ _ _)) by done.
      by rewrite (proj2 (closer_indexOf_None_iff _ _ _) Hcl).
  - intros ((i & Hs & Hle & Hop & Hnone) & (Hse & Hcl & Hfirst) & Htx & Hrest).
    rewrite scanFrom_unfold.
    rewrite (proj2 (openers_exec_Some_iff _ _ _ _)) by done.
    rewrite <- Hs.
    rewrite (proj2 (closer_indexOf_Some_iff _ _ _ _)) by done.
    rewrite <- (IH _ Hrest), <- Htx. by destruct raw.
Qed.

(** An opener and a closer do not overlap. *)
Lemma opener_not_in_closer (str : string) (i e : nat) (d d' : Direction) :
  String.substring i 2 str = openerOf d →
  String.substring e 2 str = closerOf d' → i ≠ e ∧ i ≠ e + 1.
Proof.
  intros Hop Hcl. split; intros ->.
  - rewrite Hop in Hcl. by destruct d, d'.
  - pose proof (String.substring_correct1 str (e + 1) 2 0) as H0.
    pose proof (String.substring_correct1 str e 2 1) as H1.
    rewrite Hop in H0. rewrite Hcl in H1.
    replace (0 + (e + 1)) with (1 + e) in H0 by lia.
    rewrite <- H1 in H0 by lia. specialize (H0 ltac:(lia)).
    by destruct d, d'.
Qed.

(** After an opener without a closer no databinding is found, unless the
    opener lies inside a databinding, where it is not scanned. *)
Lemma scanFrom_unclosed (str : string) (from i : nat) (d : Direction) :
  from ≤ i → String.substring i 2 str = openerOf d →
  (∀ p, i + 2 ≤ p → String.substring p 2 str ≠ closerOf d) →
  (∃ raw, raw ∈ scanFrom str from ∧ startIndex raw - 2 < i < endIndex raw) ∨
  Forall (λ raw, endIndex raw + 2 ≤ i) (scanFrom str from).
Proof.
  intros Hle Hop Hnc.
  remember (String.length str - from) as n eqn:Hn.
  revert from Hle Hn.
  induction (lt_wf n) as [n _ IH]; intros from Hle ->.
  rewrite scanFrom_unfold.
  destruct (openers_exec str from) as [[index d']|] eqn:Eo; [|by right].
  pose proof (openers_exec_bounds _ _ _ _ Eo) as [_ Hfit].
  apply openers_exec_Some_iff in Eo as (Hle' & Hop' & Hnone).
  assert (index ≤ i) as Hi.
  { destruct (decide (index ≤ i)) as [|Hn]; [done|].
    destruct (openerOf_not_noOpenerAt _ _ _ Hop). apply Hnone; lia. }
  destruct (Str.indexOf (closerOf d') (index + 2) str) as [e|] eqn:Ec;
    [|by right].
  pose proof (Str.index_fits _ _ _ _ Ec) as Hfit'.
  rewrite length_closerOf in Hfit'.
  apply closer_indexOf_Some_iff in Ec as (Hle'' & Hcl & _).
  destruct (decide (index = i)) as [->|Hne].
  { rewrite Hop in Hop'. assert (d = d') as <- by by destruct d, d'.
    by destruct (Hnc e). }
  destruct (decide (e + 2 ≤ i)) as [Hei|Hei].
  - destruct (IH (String.length str - (e + 2)) ltac:(lia) (e + 2) Hei eq_refl)
      as [(raw & Hin & Hraw)|Hall].
    + left. exists raw. split; [by right|done].
    + right. by constructor.
  - left. eexists. split; [by left|]. simpl.
    destruct (opener_not_in_closer _ _ _ _ _ Hop Hcl). lia.
Qed.

Section Claims.

Context {Program : Type}.
Variable espree_parse : string → Result Program.
Variable correctSourceRange : SourceRange → LocationOffset → SourceRange.

#[local] Abbreviation extractAttr := (_extractDataBindingsFromAttr espree_parse correctSourceRange).
#[local] Abbreviation extractText := (_extractDataBindingsFromTextNode espree_parse correctSourceRange).

Lemma new_ScannedDatabindingExpression_Ok node attr range dir text ev into d :
  new_ScannedDatabindingExpression espree_parse node attr range dir text ev into
    = Ok d →
  direction d = dir ∧ expressionText d = text ∧ eventName d = ev ∧
  databindingInto d = into ∧ warnings d = [] ∧ attribute d = attr.
Proof.
  unfold new_ScannedDatabindingExpression.
  destruct (espree_parse text); simpl; [|done]. by intros [= <-].
Qed.

(** What the attribute path returns: one expression per raw databinding of
    the value, each built by [attrBinding]. *)
Lemma extractAttr_Ok document node attr results results' :
  extractAttr document node attr results = Ok results' →
  ∃ new, results' = results ++ new ∧
    ∃ range nl,
      Forall2 (λ raw d, attrBinding espree_parse correctSourceRange
                          node attr range nl raw = Ok d)
        (findDatabindingInString (attr_value attr)) new.
Proof.
  unfold _extractDataBindingsFromAttr, truthy.
  case_bool_decide as Hv; simpl.
  - intros [= <-]. exists []. rewrite app_nil_r, Hv. split; [done|].
    exists {| file := ""; start := {| line := 0; column := 0 |};
              end_ := {| line := 0; column := 0 |} |}, [].
    constructor.
  - destruct (sourceRangeForAttributeValue _ _ _ _) as [range|]; [|done].
    intros (new & -> & H)%pushAll_Ok. eauto.
Qed.

Lemma extractText_Ok document node results results' :
  extractText document node results = Ok results' →
  ∃ new, results' = results ++ new ∧
    ∃ range nl,
      Forall2 (λ raw d, textBinding espree_parse correctSourceRange
                          node range nl raw = Ok d)
        (findDatabindingInString (default "" (node_value node))) new.
Proof.
  unfold _extractDataBindingsFromTextNode.
  destruct (Nat.eqb_spec (length (findDatabindingInString
                                    (default "" (node_value node)))) 0)
    as [H0|H0].
  - intros [= <-]. exists []. rewrite app_nil_r. split; [done|].
    apply nil_length_inv in H0. rewrite H0.
    exists {| file := ""; start := {| line := 0; column := 0 |};
              end_ := {| line := 0; column := 0 |} |}, [].
    constructor.
  - destruct (sourceRangeForNode _ _) as [range|]; [|done].
    intros (new & -> & H)%pushAll_Ok. eauto.
Qed.

(** C6: a databinding extracted from an attribute value has
    [databindingInto = Attribute] exactly when it spans the whole value --
    its expression starts at index 2 and its closer ends at the last
    character, that is the value is opener, expression, closer -- and
    [StringInterpolation] otherwise; a databinding extracted from a text
    node always has [StringInterpolation]. *)
Theorem databindingInto_attribute_iff_full_value
    (document : ParsedHtmlDocument) (node : ASTNode) :
  (∀ attr results results',
      extractAttr document node attr results = Ok results' →
      ∃ new, results' = results ++ new ∧
        Forall2 (λ raw d,
            direction d = raw_direction raw ∧
            (databindingInto d = Attribute ↔
               startIndex raw = 2 ∧
               endIndex raw + 2 = String.length (attr_value attr)) ∧
            (databindingInto d = Attribute ↔
               attr_value attr =
                 openerOf (raw_direction raw) +:+ raw_expressionText raw
                 +:+ closerOf (raw_direction raw)) ∧
            (databindingInto d ≠ Attribute ↔
               databindingInto d = StringInterpolation))
          (findDatabindingInString (attr_value attr)) new) ∧
  (∀ results results',
      extractText document node results = Ok results' →
      ∃ new, results' = results ++ new ∧
        Forall2 (λ raw d,
            direction d = raw_direction raw ∧
            databindingInto d = StringInterpolation)
          (findDatabindingInString (default "" (node_value node))) new).
Proof.
  split.
  - intros attr results results' (new & -> & range & nl & Hall)%extractAttr_Ok.
    exists new. split; [done|].
    eapply Forall2_Forall_impl;
      [apply (findDatabindingInString_RawOk (attr_value attr))|exact Hall|].
    intros raw d Hok Hd. unfold attrBinding in Hd.
    destruct (match raw_direction raw with DirCurly => _ | DirSquare => _ end)
      as [text ev].
    apply new_ScannedDatabindingExpression_Ok in Hd as (-> & _ & _ & -> & _).
    assert ((if (startIndex raw =? 2) &&
                (endIndex raw + 2 =? String.length (attr_value attr))
             then Attribute else StringInterpolation) = Attribute ↔
            startIndex raw = 2 ∧
            endIndex raw + 2 = String.length (attr_value attr)) as Hiff.
    { destruct (Nat.eqb_spec (startIndex raw) 2);
        destruct (Nat.eqb_spec (endIndex raw + 2)
                    (String.length (attr_value attr))); simpl; naive_solver. }
    split_and!; [done|done| |].
    + rewrite Hiff. by apply full_binding_iff.
    + destruct (_ && _); naive_solver.
  - intros results results' (new & -> & range & nl & Hall)%extractText_Ok.
    exists new. split; [done|].
    eapply Forall2_impl; [exact Hall|].
    intros raw d Hd. unfold textBinding in Hd.
    by apply new_ScannedDatabindingExpression_Ok in Hd as (-> & _ & _ & -> & _).
Qed.


(** C8: the scan finds the next opener, [{{] or [[[], and looks for its
    matching closer after it; a closed opener gives a databinding and the
    scan goes on after the closer; an opener without a closer yields no
    expression and ends the scan of the whole string.  That determines
    what [findDatabindingInString] returns.  The string [[[x] gives no
    databinding, and extracting from a text node holding it adds no
    feature (hence no warning). *)
Theorem unclosed_opener_stops_scan :
  (∀ str lastIndex,
      (openers_exec str lastIndex = None ↔
         ∀ p, lastIndex ≤ p → noOpenerAt str p) ∧
      (∀ index d,
         openers_exec str lastIndex = Some (index, d) ↔
           lastIndex ≤ index ∧ String.substring index 2 str = openerOf d ∧
           ∀ p, lastIndex ≤ p → p < index → noOpenerAt str p) ∧
      ∀ p d,
        lastIndex ≤ p → String.substring p 2 str = openerOf d →
        ∃ index d', openers_exec str lastIndex = Some (index, d') ∧
                    index ≤ p) ∧
  (∀ str,
      ScanSpec str 0 (findDatabindingInString str) ∧
      ∀ l, ScanSpec str 0 l → l = findDatabindingInString str) ∧
  (∀ str i d,
      String.substring i 2 str = openerOf d →
      (∀ p, i + 2 ≤ p → String.substring p 2 str ≠ closerOf d) →
      ((∀ p, p < i → noOpenerAt str p) → findDatabindingInString str = []) ∧
      ((∃ raw, raw ∈ findDatabindingInString str ∧
               startIndex raw - 2 < i < endIndex raw) ∨
       Forall (λ raw, endIndex raw + 2 ≤ i) (findDatabindingInString str))) ∧
  (∀ str lastIndex,
      scanFrom str lastIndex =
      match openers_exec str lastIndex with
      | None => []
      | Some (index, d) =>
          match Str.indexOf (closerOf d) (index + 2) str with
          | None => []
          | Some e =>
              {| raw_expressionText := Str.slice (index + 2) e str;
                 startIndex := index + 2; endIndex := e; raw_direction := d |}
              :: scanFrom str (e + 2)
          end
      end) ∧
  (∀ str lastIndex index d,
      openers_exec str lastIndex = Some (index, d) →
      Str.indexOf (closerOf d) (index + 2) str = None →
      (∀ p, index + 2 ≤ p → String.substring p 2 str ≠ closerOf d) ∧
      scanFrom str lastIndex = [] ∧
      ∀ fuel acc,
        findDatabindingLoop (S fuel) str lastIndex acc = Some acc) ∧
  findDatabindingInString "[[x" = [] ∧
  (∀ document name attrs results,
      extractText document
        {| nodeName := name; node_value := Some "[[x"; attrs := attrs |}
        results = Ok results).
Proof.
  split_and!.
  - intros str lastIndex. split_and!.
    + apply openers_exec_None_iff.
    + intros index d. apply openers_exec_Some_iff.
    + intros p d. apply openers_exec_finds.
  - intros str. split; [apply scanFrom_ScanSpec|apply ScanSpec_unique].
  - intros str i d Hop Hnc. split.
    + intros Hnone. symmetry. apply ScanSpec_unique. simpl. right.
      exists i, d. split_and!; try done; [lia|]. intros p _ Hp. by apply Hnone.
    + apply (scanFrom_unclosed str 0 i d); [lia|done|done].
  - apply scanFrom_unfold.
  - intros str lastIndex index d Ho Hc. split_and!.
    + by apply closer_indexOf_None_iff.
    + by rewrite scanFrom_unfold, Ho, Hc.
    + intros fuel acc. simpl. by rewrite Ho, Hc.
  - done.
  - done.
Qed.

End Claims.

(** *** Concrete collaborators, for the examples below *)

Definition zeroRange : SourceRange :=
  {| file := "a.html"; start := {| line := 0; column := 0 |};
     end_ := {| line := 0; column := 0 |} |}.

Definition anyDocument : ParsedHtmlDocument :=
  {| sourceRangeForNode := λ _, Some zeroRange;
     sourceRangeForAttributeValue := λ _ _ _, Some zeroRange |}.

(** The scripts of the examples, as espree parses them. *)
Inductive Expression :=
  | Identifier (name : string)
  | Literal (value : string)
  | MemberExpression (object property : Expression).

(** [espree.parse] on the texts of the examples: the identifiers [a],
    [name], [v], [x], [y] and the member expression [a['::']] are scripts;
    [a::b] and [v::input] are not, and espree throws a syntax error on
    them.  The parser is a table of these texts: it rejects every other
    text, and no example goes by what it returns on one. *)
Definition sampleParser (text : string) : Result Expression :=
  if bool_decide (text ∈ ["a"; "name"; "v"; "x"; "y"])
  then Ok (Identifier text)
  else if bool_decide (text = "a['::']")
  then Ok (MemberExpression (Identifier "a") (Literal "::"))
  else Throw "SyntaxError: Unexpected token".

Definition sameRange : SourceRange → LocationOffset → SourceRange := λ r _, r.

Definition textNode (value : string) : ASTNode :=
  {| nodeName := "#text"; node_value := Some value; attrs := None |}.

Definition inputElement (value : string) : ASTNode :=
  {| nodeName := "input"; node_value := None;
     attrs := Some [ {| attr_name := "value"; attr_value := value |} ] |}.

(** The value [{{x], newline, [y::z}}]: a databinding over two lines. *)
Definition twoLineValue : string := "{{x" +:+ String "010" "y::z}}".

Example scenario_hello_name :
  ∃ d, scan sampleParser sameRange anyDocument [textNode "Hello {{name}}!"]
         = Ok [d] ∧
       direction d = DirCurly ∧ databindingInto d = StringInterpolation ∧
       expressionText d = "name".
Proof. eexists. split; [reflexivity|done]. Qed.

Lemma databindingInto_attribute_iff_full_value_witness :
  (∃ results',
      _extractDataBindingsFromAttr sampleParser sameRange anyDocument
        (inputElement "{{x}}") {| attr_name := "value"; attr_value := "{{x}}" |}
        [] = Ok results' ∧
      ∃ new, results' = [] ++ new ∧
        Forall2 (λ raw d,
            direction d = raw_direction raw ∧
            (databindingInto d = Attribute ↔
               startIndex raw = 2 ∧ endIndex raw + 2 = String.length "{{x}}") ∧
            (databindingInto d = Attribute ↔
               "{{x}}" = openerOf (raw_direction raw) +:+ raw_expressionText raw
                         +:+ closerOf (raw_direction raw)) ∧
            (databindingInto d ≠ Attribute ↔
               databindingInto d = StringInterpolation))
          (findDatabindingInString "{{x}}") new) ∧
  (∃ results',
      _extractDataBindingsFromTextNode sampleParser sameRange anyDocument
        (textNode "a {{x}}") [] = Ok results' ∧
      ∃ new, results' = [] ++ new ∧
        Forall2 (λ raw d,
            direction d = raw_direction raw ∧
            databindingInto d = StringInterpolation)
          (findDatabindingInString "a {{x}}") new).
Proof.
  split; eexists; (split; [reflexivity|]).
  - apply (proj1 (databindingInto_attribute_iff_full_value
                    sampleParser sameRange anyDocument
                    (inputElement "{{x}}"))
             {| attr_name := "value"; attr_value := "{{x}}" |}).
    reflexivity.
  - apply (proj2 (databindingInto_attribute_iff_full_value
                    sampleParser sameRange anyDocument
                    (textNode "a {{x}}"))).
    reflexivity.
Defined.


(** A two-way binding in an attribute value, on one line and over two. *)
Example eventName_in_attribute_value :
  (∃ d, _extractDataBindingsFromAttr sampleParser sameRange anyDocument
          (inputElement "{{a::b}}")
          {| attr_name := "value"; attr_value := "{{a::b}}" |} [] = Ok [d] ∧
        expressionText d = "a" ∧ eventName d = Some "b") ∧
  (∃ d, _extractDataBindingsFromAttr sampleParser sameRange anyDocument
          (inputElement twoLineValue)
          {| attr_name := "value"; attr_value := twoLineValue |} [] = Ok [d] ∧
        expressionText d = "y" ∧ eventName d = Some "z").
Proof. split; (eexists; split; [reflexivity|done]). Qed.

(** The text [a::b] is not a script: in a text node, where the suffix is
    not carved, the constructor throws on it. *)
Example text_node_with_event_suffix_throws :
  _extractDataBindingsFromTextNode sampleParser sameRange anyDocument
    (textNode "{{a::b}}") [] = Throw "SyntaxError: Unexpected token".
Proof. reflexivity. Qed.


Lemma unclosed_opener_stops_scan_witness :
  String.substring 1 2 "a{{b [[c]]" = openerOf DirCurly ∧
  (∀ p, 1 + 2 ≤ p → String.substring p 2 "a{{b [[c]]" ≠ closerOf DirCurly) ∧
  (∀ p, p < 1 → noOpenerAt "a{{b [[c]]" p) ∧
  findDatabindingInString "a{{b [[c]]" = [] ∧
  findDatabindingInString "[[c]] a{{b" =
    [ {| raw_expressionText := "c"; startIndex := 2; endIndex := 3;
         raw_direction := DirSquare |} ] ∧
  String.substring 7 2 "[[c]] a{{b" = openerOf DirCurly ∧
  ((∃ raw, raw ∈ findDatabindingInString "[[c]] a{{b" ∧
           startIndex raw - 2 < 7 < endIndex raw) ∨
   Forall (λ raw, endIndex raw + 2 ≤ 7) (findDatabindingInString "[[c]] a{{b")).
Proof.
  assert (∀ p, 1 + 2 ≤ p →
               String.substring p 2 "a{{b [[c]]" ≠ closerOf DirCurly) as Hnc.
  { by apply closer_indexOf_None_iff. }
  assert (∀ p, p < 1 → noOpenerAt "a{{b [[c]]" p) as Hnone.
  { intros [|p] Hp; [by split|lia]. }
  split; [reflexivity|]. split; [exact Hnc|]. split; [exact Hnone|]. split.
  - apply (proj1 (proj1 (proj2 (proj2
             (unclosed_opener_stops_scan sampleParser sameRange)))
             "a{{b [[c]]" 1 DirCurly eq_refl Hnc)).
    exact Hnone.
  - split; [reflexivity|]. split; [reflexivity|].
    apply (proj2 (proj1 (proj2 (proj2
             (unclosed_opener_stops_scan sampleParser sameRange)))
             "[[c]] a{{b" 7 DirCurly eq_refl
             (proj1 (closer_indexOf_None_iff "[[c]] a{{b" DirCurly (7 + 2))
                eq_refl))).
Defined.

End ExpressionScannerFacts.

Module ExpressionScannerProperties.
Import ExpressionScanner ExpressionScannerFacts.

(** *** Definitions *)

Definition newline : string := String "010" "".

(** The [while] loop of [findNewlineIndexes], as written: [index] is the
    last result of [indexOf], [None] standing for [-1]; [fuel] bounds the
    number of iterations. *)
Fixpoint findNewlineLoop (fuel : nat) (str : string) (index : option nat)
    (indexes : list nat) : option (list nat) :=
  match fuel with
  | 0 => None
  | S fuel' =>
      match index with
      | None => Some indexes
      | Some prev =>
          findNewlineLoop fuel' str (Str.indexOf newline (prev + 1) str)
            (indexes ++ [prev])
      end
  end.

(** Every iteration but the last finds one more newline, so one more
    iteration than the string has characters is enough. *)
Definition findNewlineIndexesLoop (str : string) : option (list nat) :=
  findNewlineLoop (S (String.length str)) str (Str.indexOf newline 0 str) [].

(** Each pair of brackets after the one before it. *)
Definition Before (a b : RawDatabinding) : Prop :=
  endIndex a + 4 ≤ startIndex b.

(** No closer starts inside the expression text. *)
Definition NoCloserInside (str : string) (raw : RawDatabinding) : Prop :=
  ∀ p, startIndex raw ≤ p → p < endIndex raw →
    String.substring p 2 str ≠ closerOf (raw_direction raw).

(** The index after the last newline before a position, given the
    newlines before it. *)
Definition lineStart (before : list nat) : nat :=
  from_option S 0 (last before).

Lemma scanFrom_ordered (str : string) (lastIndex : nat) :
  Forall (λ raw, lastIndex + 2 ≤ startIndex raw ∧ NoCloserInside str raw)
         (scanFrom str lastIndex) ∧
  StronglySorted Before (scanFrom str lastIndex).
Proof.
  remember (String.length str - lastIndex) as n eqn:Hn.
  revert lastIndex Hn.
  induction (lt_wf n) as [n _ IH]; intros lastIndex ->.
  rewrite scanFrom_unfold.
  destruct (openers_exec str lastIndex) as [[i d]|] eqn:Eo;
    [|split; constructor].
  destruct (Str.indexOf (closerOf d) (i + 2) str) as [e|] eqn:Ec;
    [|split; constructor].
  pose proof (openers_exec_bounds _ _ _ _ Eo) as [??].
  pose proof (Str.index_ge _ _ _ _ Ec). pose proof (Str.index_fits _ _ _ _ Ec).
  assert (String.length (closerOf d) = 2) as Hc by by destruct d.
  destruct (IH (String.length str - (e + 2)) ltac:(lia) (e + 2) eq_refl)
    as [Hall Hsorted].
  split.
  - constructor.
    + split; simpl; [lia|]. intros p Hp1 Hp2. simpl in *.
      rewrite <- Hc at 1.
      apply (String.index_correct2 _ _ _ _ Ec); lia.
    + eapply Forall_impl; [exact Hall|]. simpl. intros raw [??].
      split; [lia|done].
  - constructor; [done|].
    eapply Forall_impl; [exact Hall|]. unfold Before. simpl.
    intros raw [??]. lia.
Qed.

(** X1: what [findDatabindingInString] returns.  Every raw databinding sits
    between an opener and the first matching closer after it -- its text
    is the slice between them and holds no closer -- and the databindings
    come in the order of the string, without overlap. *)
Theorem findDatabindingInString_delimited_in_order (str : string) :
  Forall (λ raw, RawOk str raw ∧ NoCloserInside str raw)
         (findDatabindingInString str) ∧
  StronglySorted Before (findDatabindingInString str).
Proof.
  destruct (scanFrom_ordered str 0) as [Hall Hsorted]. split; [|done].
  apply Forall_and. split; [apply findDatabindingInString_RawOk|].
  eapply Forall_impl; [exact Hall|]. simpl. by intros raw [_ ?].
Qed.

(** *** Newlines *)

Lemma index_newline_nil (n : nat) : String.index n newline "" = None.
Proof. by destruct n. Qed.

Lemma prefix_newline (c : ascii) (s : string) :
  String.prefix newline (String c s) = bool_decide (c = "010"%char).
Proof.
  change (String.prefix newline (String c s))
    with (if ascii_dec "010" c then String.prefix "" s else false).
  destruct (ascii_dec "010" c) as [<-|Hne].
  - by destruct s.
  - case_bool_decide; [by subst|done].
Qed.

Lemma newlinesFrom_index_None (pos n : nat) (s : string) :
  String.index n newline s = None → newlinesFrom pos (Str.drop n s) = [].
Proof.
  revert pos n. induction s as [|c s IH]; intros pos [|n]; try done.
  - rewrite Str.index_0_cons, prefix_newline. simpl.
    case_bool_decide; [done|].
    destruct (String.index 0 newline s) eqn:E; [done|]. intros _.
    apply (IH (S pos) 0 E).
  - rewrite Str.index_S_cons. simpl.
    destruct (String.index n newline s) eqn:E; [done|]. intros _.
    by apply IH.
Qed.

Lemma newlinesFrom_index_Some (pos n i : nat) (s : string) :
  String.index n newline s = Some i →
  newlinesFrom (pos + n) (Str.drop n s) =
    (pos + i) :: newlinesFrom (pos + i + 1) (Str.drop (i + 1) s).
Proof.
  revert pos n i. induction s as [|c s IH]; intros pos [|n] i.
  - done.
  - done.
  - rewrite Str.index_0_cons, prefix_newline. simpl.
    case_bool_decide as Hc.
    + intros [= <-]. simpl. repeat f_equal; lia.
    + destruct (String.index 0 newline s) as [k|] eqn:E; [|done].
      intros [= <-]. specialize (IH (S pos) 0 k E).
      rewrite Nat.add_0_r in *. simpl in IH |- *.
      rewrite IH. repeat f_equal; lia.
  - rewrite Str.index_S_cons. simpl.
    destruct (String.index n newline s) as [k|] eqn:E; [|done].
    intros [= <-]. specialize (IH (S pos) n k E).
    replace (pos + S n) with (S pos + n) by lia. rewrite IH.
    simpl. repeat f_equal; lia.
Qed.

Lemma findNewlineLoop_spec (fuel : nat) (str : string) (n : nat)
    (acc : list nat) :
  String.length str - n < fuel →
  findNewlineLoop fuel str (Str.indexOf newline n str) acc =
    Some (acc ++ newlinesFrom n (Str.drop n str)).
Proof.
  revert n acc. induction fuel as [|fuel IH]; intros n acc Hfuel; [lia|].
  simpl. unfold Str.indexOf.
  destruct (String.index n newline str) as [i|] eqn:E.
  - pose proof (Str.index_ge _ _ _ _ E). pose proof (Str.index_fits _ _ _ _ E).
    simpl in *. fold (Str.indexOf newline (i + 1) str).
    rewrite IH by lia.
    pose proof (newlinesFrom_index_Some 0 n i str E) as Hn. simpl in Hn.
    rewrite Hn. by rewrite <- app_assoc.
  - by rewrite (newlinesFrom_index_None n n str E), app_nil_r.
Qed.

Lemma newlinesFrom_elem (pos : nat) (s : string) (i : nat) :
  i ∈ newlinesFrom pos s ↔
  pos ≤ i ∧ String.get (i - pos) s = Some "010"%char.
Proof.
  revert pos. induction s as [|c s IH]; intros pos; simpl.
  - split; [by intros ?%elem_of_nil|by intros [_ ?]].
  - assert (i ∈ newlinesFrom (S pos) s ↔
            pos < i ∧ String.get (i - pos) (String c s) = Some "010"%char)
      as Htl.
    { rewrite IH. split.
      - intros [? Hg]. split; [lia|].
        replace (i - pos) with (S (i - S pos)) by lia. done.
      - intros [? Hg]. split; [lia|].
        replace (i - pos) with (S (i - S pos)) in Hg by lia. done. }
    case_bool_decide as Hc.
    + rewrite elem_of_cons, Htl. split.
      * intros [->|[??]]; [|split; [lia|done]].
        split; [lia|]. replace (pos - pos) with 0 by lia. simpl. congruence.
      * intros [Hle Hg]. destruct (decide (i = pos)) as [->|]; [by left|].
        right. split; [lia|done].
    + rewrite Htl. split.
      * intros [??]. split; [lia|done].
      * intros [Hle Hg]. destruct (decide (i = pos)) as [->|].
        -- replace (pos - pos) with 0 in Hg by lia. simpl in Hg. congruence.
        -- split; [lia|done].
Qed.

Lemma newlinesFrom_sorted (pos : nat) (s : string) :
  StronglySorted lt (newlinesFrom pos s).
Proof.
  revert pos. induction s as [|c s IH]; intros pos; simpl; [constructor|].
  case_bool_decide; [|apply IH].
  constructor; [apply IH|].
  apply Forall_forall. intros i [??]%newlinesFrom_elem. lia.
Qed.

(** X2: the loop of [findNewlineIndexes] ends, and what it has collected
    are the positions of the newline characters of the string, each once,
    in increasing order. *)
Theorem findNewlineIndexes_positions (str : string) :
  findNewlineIndexesLoop str = Some (findNewlineIndexes str) ∧
  StronglySorted lt (findNewlineIndexes str) ∧
  ∀ i, i ∈ findNewlineIndexes str ↔ String.get i str = Some "010"%char.
Proof.
  split_and!.
  - unfold findNewlineIndexesLoop.
    rewrite (findNewlineLoop_spec _ str 0 []) by lia. done.
  - apply newlinesFrom_sorted.
  - intros i. unfold findNewlineIndexes. rewrite newlinesFrom_elem.
    replace (i - 0) with i by lia. split; [by intros [_ ?]|].
    intros ?. split; [lia|done].
Qed.

(** *** Source ranges *)

Lemma filter_lt_sorted_nil (x bound : nat) (l : list nat) :
  Forall (lt x) l → bound ≤ x → filter (λ i, i < bound) l = [].
Proof.
  intros Hall Hb. induction Hall as [|y l Hy _ IH]; [done|].
  rewrite filter_cons, decide_False by lia. done.
Qed.

Lemma from_option_last_cons {A B} (f : A → B) (d : B) (x : A) (l : list A) :
  from_option f d (last (x :: l)) = from_option f (f x) (last l).
Proof.
  revert d x. induction l as [|y l IH]; intros d x; [done|].
  change (last (x :: y :: l)) with (last (y :: l)).
  by rewrite (IH d y), (IH (f x) y).
Qed.

Lemma indexesLoop_spec (startIndex endIndex : nat) (nl : list nat)
    (st : RangeState) :
  StronglySorted lt nl → startIndex ≤ endIndex →
  let st' := indexesLoop startIndex endIndex nl st in
  startLineNumLinesIntoText st' =
    startLineNumLinesIntoText st + length (filter (λ i, i < startIndex) nl) ∧
  startOfLineIndex st' =
    from_option S (startOfLineIndex st)
      (last (filter (λ i, i < startIndex) nl)) ∧
  endLineNumLinesIntoText st' =
    endLineNumLinesIntoText st + length (filter (λ i, i < endIndex) nl) ∧
  endOfLineIndex st' =
    from_option S (endOfLineIndex st) (last (filter (λ i, i < endIndex) nl)).
Proof.
  intros Hsorted Hle. revert st.
  induction Hsorted as [|x l Hsorted IH Hx]; intros st; simpl.
  { split_and!; simpl; lia. }
  destruct (Nat.ltb_spec x endIndex) as [He|He].
  - match goal with
    | |- context [indexesLoop _ _ l ?st1] =>
        destruct (IH st1) as (H1 & H2 & H3 & H4)
    end.
    rewrite H1, H2, H3, H4. clear IH H1 H2 H3 H4.
    rewrite !filter_cons. rewrite (decide_True (P := x < endIndex)) by done.
    rewrite from_option_last_cons.
    destruct (Nat.ltb_spec x startIndex) as [Hs|Hs]; simpl.
    + rewrite decide_True by done. rewrite from_option_last_cons. simpl.
      split_and!; try lia; try done.
      * f_equal. lia.
      * f_equal. lia.
    + rewrite decide_False by lia. split_and!; try lia; try done.
      f_equal. lia.
  - rewrite (proj2 (Nat.ltb_ge x startIndex)) by lia.
    rewrite !filter_cons, !decide_False by lia.
    rewrite (filter_lt_sorted_nil x startIndex l), (filter_lt_sorted_nil x endIndex l)
      by (done || lia).
    simpl. split_and!; lia.
Qed.

(** X3: [indexesToSourceRange] on increasing newline indexes and
    [startIndex <= endIndex]: the line of a position is the number of
    newlines before it, and its column the distance from the character
    after the last of them, or from the start of the text. *)
Theorem indexesToSourceRange_lines_columns (startIndex endIndex : nat)
    (filename : string) (newlineIndexes : list nat) :
  StronglySorted lt newlineIndexes → startIndex ≤ endIndex →
  let before (index : nat) := filter (λ i, i < index) newlineIndexes in
  indexesToSourceRange startIndex endIndex filename newlineIndexes =
    {| file := filename;
       start := {| line := length (before startIndex);
                   column := startIndex - lineStart (before startIndex) |};
       end_ := {| line := length (before endIndex);
                  column := endIndex - lineStart (before endIndex) |} |}.
Proof.
  intros Hsorted Hle before. unfold indexesToSourceRange.
  destruct (indexesLoop_spec startIndex endIndex newlineIndexes
              {| startLineNumLinesIntoText := 0; startOfLineIndex := 0;
                 endLineNumLinesIntoText := 0; endOfLineIndex := 0 |}
              Hsorted Hle) as (H1 & H2 & H3 & H4).
  simpl in *. by rewrite H1, H2, H3, H4.
Qed.

Lemma indexesToSourceRange_lines_columns_witness :
  indexesToSourceRange 6 9 "a.html" [1; 3; 12] =
    {| file := "a.html";
       start := {| line := 2; column := 2 |};
       end_ := {| line := 2; column := 5 |} |}.
Proof.
  apply (indexesToSourceRange_lines_columns 6 9 "a.html" [1; 3; 12]).
  - repeat constructor.
  - lia.
Defined.

(** *** Event names *)

Lemma tryGroup1_is_None (s : string) (n : nat) :
  tryGroup1 s n = None →
  ∀ k, k ≤ n → Str.startsWith "::" (Str.drop k s) = false.
Proof.
  intros Hn k Hk. destruct (Str.startsWith "::" (Str.drop k s)) eqn:E; [|done].
  destruct (tryGroup1_Some s n k Hk E) as (k' & _ & _ & _ & Hs). congruence.
Qed.

(** The expression matches wherever a [::] occurs, line terminators or
    not. *)
Lemma matchEvent_Some (s a b : string) :
  s = a +:+ "::" +:+ b → is_Some (matchEvent s).
Proof.
  revert a. induction s as [|c s IH]; intros a Hs.
  - by destruct a.
  - rewrite matchEvent_eq. destruct (tryGroup1 _ _) eqn:Ht; [by eexists|].
    destruct a as [|c' a].
    + pose proof (tryGroup1_is_None _ _ Ht 0 ltac:(lia)) as H0.
      rewrite Hs in H0.
      change (Str.drop 0 ("" +:+ "::" +:+ b)) with ("::" +:+ b) in H0.
      unfold Str.startsWith in H0. by rewrite Str.prefix_append in H0.
    + simpl in Hs. injection Hs as -> Hs. by apply (IH a).
Qed.

Lemma tryGroup1_Some_inv (s : string) (n : nat) (r : string * string) :
  tryGroup1 s n = Some r → ∃ k, Str.startsWith "::" (Str.drop k s) = true.
Proof.
  induction n as [|n IH]; rewrite tryGroup1_eq;
    destruct (Str.startsWith "::" (Str.drop _ s)) eqn:E; eauto; done.
Qed.

Lemma matchEvent_Some_inv (s : string) (r : string * string) :
  matchEvent s = Some r → ∃ a b, s = a +:+ "::" +:+ b.
Proof.
  induction s as [|c s IH]; rewrite matchEvent_eq.
  - destruct (tryGroup1 _ _) eqn:Ht; [|done]. intros _.
    apply tryGroup1_Some_inv in Ht as [k Hk].
    apply startsWith_drop_iff in Hk as (a & b & ? & _). eauto.
  - destruct (tryGroup1 _ _) eqn:Ht.
    + intros _. apply tryGroup1_Some_inv in Ht as [k Hk].
      apply startsWith_drop_iff in Hk as (a & b & ? & _). eauto.
    + intros (a & b & ->)%IH. by exists (String c a), b.
Qed.

Section EventNames.

Context {Program : Type}.
Variable espree_parse : string → Result Program.
Variable correctSourceRange : SourceRange → LocationOffset → SourceRange.

(** X4: a databinding extracted from an attribute value has an event name
    exactly when it is written with curly brackets and its text holds a
    [::] somewhere, on whatever line. *)
Theorem attrBinding_eventName_iff (node : ASTNode) (attr : ASTAttribute)
    (attributeValueRange : SourceRange) (newlineIndexes : list nat)
    (dataBinding : RawDatabinding)
    (d : ScannedDatabindingExpression (Program := Program)) :
  attrBinding espree_parse correctSourceRange node attr attributeValueRange
    newlineIndexes dataBinding = Ok d →
  is_Some (eventName d) ↔
    raw_direction dataBinding = DirCurly ∧
    ∃ a b, raw_expressionText dataBinding = a +:+ "::" +:+ b.
Proof.
  unfold attrBinding. intros H.
  destruct (raw_direction dataBinding) eqn:Hdir.
  - destruct (matchEvent (raw_expressionText dataBinding)) as [[m1 m2]|] eqn:Hm.
    + apply new_ScannedDatabindingExpression_Ok in H as (_ & _ & Hev & _).
      rewrite Hev. split; [|by eexists]. intros _. split; [done|].
      by eapply matchEvent_Some_inv.
    + apply new_ScannedDatabindingExpression_Ok in H as (_ & _ & Hev & _).
      rewrite Hev. split; [by intros [??]|]. intros [_ (a & b & Hs)].
      destruct (matchEvent_Some _ a b Hs) as [? Hsome]. congruence.
  - apply new_ScannedDatabindingExpression_Ok in H as (_ & _ & Hev & _).
    rewrite Hev. split; [by intros [??]|]. by intros [? _].
Qed.

End EventNames.

Lemma attrBinding_eventName_iff_witness :
  ∃ d, attrBinding sampleParser sameRange (inputElement "{{v::input}}")
         {| attr_name := "value"; attr_value := "{{v::input}}" |} zeroRange []
         {| raw_expressionText := "v::input"; startIndex := 2; endIndex := 10;
            raw_direction := DirCurly |} = Ok d ∧
       (is_Some (eventName d) ↔
        DirCurly = DirCurly ∧ ∃ a b, "v::input" = a +:+ "::" +:+ b).
Proof.
  eexists. split; [reflexivity|].
  apply (attrBinding_eventName_iff sampleParser sameRange
           (inputElement "{{v::input}}")
           {| attr_name := "value"; attr_value := "{{v::input}}" |} zeroRange []
           {| raw_expressionText := "v::input"; startIndex := 2;
              endIndex := 10; raw_direction := DirCurly |}).
  reflexivity.
Defined.

End ExpressionScannerProperties.



(** ** src/model/document.ts, src/model/import.ts, src/model/element.ts *)

Module Model.

(** JavaScript objects are mutable and compared by identity.  Documents
    live in a store indexed by [DocId]; an identifier missing from the
    store stands for [undefined].  Every other feature is created by the
    [resolve] of a scanned feature and is identified by its creation
    site: the document being resolved and the position of the scanned
    feature in it. *)
Definition DocId := nat.
Definition ObjId : Type := DocId * nat.

(** A resolved feature, as far as [Document] reads it: its [kinds], its
    [identifiers] and, for an [Import], the imported document. *)
Inductive Feature :=
| FDocument (d : DocId)
| FImport (oid : ObjId) (type url : string) (document : DocId)
| FOther (oid : ObjId) (kinds identifiers : list string).

#[global] Instance Feature_eq_dec : EqDecision Feature.
Proof. solve_decision. Defined.

(** A scanned feature, as far as [Document.resolve] uses it:
    - a [ScannedImport] (import.ts);
    - any other resolvable scanned feature (such as
      [ScannedElementReference], [ScannedReference] or
      [ScannedPolymerElementMixin]), whose [resolve] only reads the
      document and returns either a feature with the given kinds and
      identifiers or [undefined];
    - a scanned feature without a [resolve] method. *)
Inductive ScannedFeature :=
| ScannedImport (type url : string)
| ScannedResolvable (resolved : option (list string * list string))
| ScannedOther.

Definition isResolvable (sf : ScannedFeature) : bool :=
  match sf with ScannedOther => false | _ => true end.

(** [Set.add] on a set kept in insertion order. *)
Definition setAdd {A} `{EqDecision A} (x : A) (l : list A) : list A :=
  if decide (x ∈ l) then l else l ++ [x].

Definition setAddAll {A} `{EqDecision A} (l xs : list A) : list A :=
  foldl (λ acc x, setAdd x acc) l xs.

Abbreviation KindIndex := (gmap string (list Feature)).
Abbreviation KindIdIndex := (gmap string (gmap string (list Feature))).

Record Document := {
  (* this._scannedDocument *)
  url : string;
  isInline : bool;
  doc_type : string;
  features : list ScannedFeature;
  (* the fields of Document proper *)
  _localFeatures : list Feature;
  _begunResolving : bool;
  _doneResolving : bool;
  _featuresByKind : option KindIndex;
  _featuresByKindAndId : option KindIdIndex;
}.

(** [new Document(base, analyzer)]. *)
Definition new_Document (url : string) (isInline : bool) (type : string)
    (features : list ScannedFeature) : Document :=
  {| url := url; isInline := isInline; doc_type := type; features := features;
     _localFeatures := []; _begunResolving := false; _doneResolving := false;
     _featuresByKind := None; _featuresByKindAndId := None |}.

Abbreviation Store := (gmap DocId Document).

(** [document.kinds] and [document.identifiers], as the constructor sets
    them. *)
Definition documentKinds (doc : Document) : list string :=
  setAdd (doc_type doc +:+ "-document") ["document"].

Definition documentIdentifiers (doc : Document) : list string :=
  if isInline doc then [] else [url doc].

(** [feature.kinds]. *)
Definition kinds (s : Store) (f : Feature) : list string :=
  match f with
  | FDocument d => from_option documentKinds [] (s !! d)
  | FImport _ type _ _ => setAdd type ["import"]
  | FOther _ ks _ => ks
  end.

(** [feature.identifiers]. *)
Definition identifiers (s : Store) (f : Feature) : list string :=
  match f with
  | FDocument d => from_option documentIdentifiers [] (s !! d)
  | FImport _ _ _ _ => []
  | FOther _ _ ids => ids
  end.

Definition has (x : string) (l : list string) : bool := bool_decide (x ∈ l).

(** *** Outcomes *)

(** A method that only reads the store returns, throws, or exceeds the
    recursion bound it was given. *)
Inductive Outcome (A : Type) :=
| Return (a : A)
| Raise (e : string)
| Diverge.
Arguments Return {A} a.
Arguments Raise {A} e.
Arguments Diverge {A}.

(** A method that writes to the store also leaves a store behind, when it
    returns and when it throws. *)
Inductive SOutcome (A : Type) :=
| SReturn (a : A) (s : Store)
| SRaise (e : string) (s : Store)
| SDiverge.
Arguments SReturn {A} a s.
Arguments SRaise {A} e s.
Arguments SDiverge {A}.

Definition sbind {A B} (r : SOutcome A) (k : A → Store → SOutcome B)
  : SOutcome B :=
  match r with
  | SReturn a s => k a s
  | SRaise e s => SRaise e s
  | SDiverge => SDiverge
  end.

Definition typeError : string := "TypeError".

(** *** Indexing *)

Definition indexKind (f : Feature) (kind : string) (byKind : KindIndex)
  : KindIndex :=
  let kindSet := default [] (byKind !! kind) in
  <[kind := setAdd f kindSet]> byKind.

Definition indexId (f : Feature) (kind id : string) (byKindAndId : KindIdIndex)
  : KindIdIndex :=
  let identifiersMap := default ∅ (byKindAndId !! kind) in
  let idSet := default [] (identifiersMap !! id) in
  <[kind := <[id := setAdd f idSet]> identifiersMap]> byKindAndId.

(** The body of [_indexFeature] once both indexes exist. *)
Definition indexFeature (ks ids : list string) (f : Feature)
    (ix : KindIndex * KindIdIndex) : KindIndex * KindIdIndex :=
  foldl (λ '(byKind, byKindAndId) kind,
           (indexKind f kind byKind,
            foldl (λ acc id, indexId f kind id acc) byKindAndId ids))
        ix ks.

Definition _indexFeature (s : Store) (doc : Document) (f : Feature) : Document :=
  match _featuresByKind doc, _featuresByKindAndId doc with
  | Some byKind, Some byKindAndId =>
      let '(byKind', byKindAndId') :=
        indexFeature (kinds s f) (identifiers s f) f (byKind, byKindAndId) in
      {| url := url doc; isInline := isInline doc; doc_type := doc_type doc;
         features := features doc; _localFeatures := _localFeatures doc;
         _begunResolving := _begunResolving doc;
         _doneResolving := _doneResolving doc;
         _featuresByKind := Some byKind';
         _featuresByKindAndId := Some byKindAndId' |}
  | _, _ => doc
  end.

Definition with_localFeatures (l : list Feature) (doc : Document) : Document :=
  {| url := url doc; isInline := isInline doc; doc_type := doc_type doc;
     features := features doc; _localFeatures := l;
     _begunResolving := _begunResolving doc;
     _doneResolving := _doneResolving doc;
     _featuresByKind := _featuresByKind doc;
     _featuresByKindAndId := _featuresByKindAndId doc |}.

Definition with_begunResolving (b : bool) (doc : Document) : Document :=
  {| url := url doc; isInline := isInline doc; doc_type := doc_type doc;
     features := features doc; _localFeatures := _localFeatures doc;
     _begunResolving := b; _doneResolving := _doneResolving doc;
     _featuresByKind := _featuresByKind doc;
     _featuresByKindAndId := _featuresByKindAndId doc |}.

Definition with_doneResolving (b : bool) (doc : Document) : Document :=
  {| url := url doc; isInline := isInline doc; doc_type := doc_type doc;
     features := features doc; _localFeatures := _localFeatures doc;
     _begunResolving := _begunResolving doc; _doneResolving := b;
     _featuresByKind := _featuresByKind doc;
     _featuresByKindAndId := _featuresByKindAndId doc |}.

Definition with_indexes (byKind : option KindIndex)
    (byKindAndId : option KindIdIndex) (doc : Document) : Document :=
  {| url := url doc; isInline := isInline doc; doc_type := doc_type doc;
     features := features doc; _localFeatures := _localFeatures doc;
     _begunResolving := _begunResolving doc;
     _doneResolving := _doneResolving doc;
     _featuresByKind := byKind; _featuresByKindAndId := byKindAndId |}.

(** [this._addFeature(feature)]. *)
Definition _addFeature (s : Store) (d : DocId) (f : Feature) : SOutcome unit :=
  match s !! d with
  | None => SRaise typeError s
  | Some doc =>
      if _doneResolving doc then
        SRaise "_addFeature can not be called after _resolve()" s
      else
        let doc1 := _indexFeature s doc f in
        SReturn ()
          (<[d := with_localFeatures (setAdd f (_localFeatures doc1)) doc1]> s)
  end.

(** *** Traversals of the document graph *)

(** [for (const x of xs) { ... }] over a state, stopping at the first
    exception. *)
Fixpoint forEach {A St} (body : St → A → Outcome St) (xs : list A) (st : St)
  : Outcome St :=
  match xs with
  | [] => Return st
  | x :: xs' =>
      match body st x with
      | Return st' => forEach body xs' st'
      | Raise e => Raise e
      | Diverge => Diverge
      end
  end.

(** [(feature as Document)]: calling a [Document] method on it only works
    for a document. *)
Definition asDocument (f : Feature) : option DocId :=
  match f with FDocument d => Some d | _ => None end.

(** [(feature as Import).document]. *)
Definition importDocument (f : Feature) : option DocId :=
  match f with FImport _ _ _ t => Some t | _ => None end.

(** [this._getFeatures(result, visited, deep)] on document [d]; [fuel]
    bounds the depth of the recursion. *)
Fixpoint _getFeatures (fuel : nat) (s : Store) (d : DocId) (deep : bool)
    (acc : list Feature * gset DocId) : Outcome (list Feature * gset DocId) :=
  match fuel with
  | 0 => Diverge
  | S fuel' =>
      match s !! d with
      | None => Raise typeError
      | Some doc =>
          if decide (d ∈ acc.2) then Return acc
          else
            forEach
              (λ acc feature,
                 let acc1 := (setAdd feature acc.1, acc.2) in
                 if deep then
                   match
                     (if has "document" (kinds s feature) then
                        match asDocument feature with
                        | Some d' => _getFeatures fuel' s d' deep acc1
                        | None => Raise typeError
                        end
                      else Return acc1)
                   with
                   | Return acc2 =>
                       if has "import" (kinds s feature) then
                         match importDocument feature with
                         | Some t => _getFeatures fuel' s t deep acc2
                         | None => Raise typeError
                         end
                       else Return acc2
                   | Raise e => Raise e
                   | Diverge => Diverge
                   end
                 else Return acc1)
              (_localFeatures doc) (acc.1, {[d]} ∪ acc.2)
      end
  end.

(** [this.getFeatures(deep)]; [deep] defaults to [true]. *)
Definition getFeatures (s : Store) (d : DocId) (deep : option bool)
  : Outcome (list Feature) :=
  match _getFeatures (S (size s)) s d (default true deep) ([], ∅) with
  | Return acc => Return acc.1
  | Raise e => Raise e
  | Diverge => Diverge
  end.

(** [this._getByKind(kind, documentsWalked)] on document [d]. *)
Fixpoint _getByKind (fuel : nat) (s : Store) (d : DocId) (kind : string)
    (documentsWalked : gset DocId) : Outcome (list Feature * gset DocId) :=
  match fuel with
  | 0 => Diverge
  | S fuel' =>
      match s !! d with
      | None => Raise typeError
      | Some doc =>
          let subFeatures (target : option DocId)
              (acc : list Feature * gset DocId) :=
            match target with
            | None => Raise typeError
            | Some t =>
                if decide (t ∈ acc.2) then Return acc
                else
                  match _getByKind fuel' s t kind acc.2 with
                  | Return (sub, walked) => Return (setAddAll acc.1 sub, walked)
                  | Raise e => Raise e
                  | Diverge => Diverge
                  end
            end in
          forEach
            (λ acc feature,
               let acc1 :=
                 if has kind (kinds s feature)
                 then (setAdd feature acc.1, acc.2) else acc in
               match
                 (if has "import" (kinds s feature)
                  then subFeatures (importDocument feature) acc1
                  else Return acc1)
               with
               | Return acc2 =>
                   if has "document" (kinds s feature)
                   then subFeatures (asDocument feature) acc2
                   else Return acc2
               | Raise e => Raise e
               | Diverge => Diverge
               end)
            (_localFeatures doc) ([], {[d]} ∪ documentsWalked)
      end
  end.

(** *** Indexes and queries *)

Definition lift {A} (s : Store) (r : Outcome A) : SOutcome A :=
  match r with
  | Return a => SReturn a s
  | Raise e => SRaise e s
  | Diverge => SDiverge
  end.

Definition indexAll (s : Store) (fs : list Feature)
    (ix : KindIndex * KindIdIndex) : KindIndex * KindIdIndex :=
  foldl (λ ix f, indexFeature (kinds s f) (identifiers s f) f ix) ix fs.

(** [this._buildIndexes()]. *)
Definition _buildIndexes (s : Store) (d : DocId) : SOutcome unit :=
  match s !! d with
  | None => SRaise typeError s
  | Some doc =>
      if bool_decide (is_Some (_featuresByKind doc)) then
        SRaise ("Tried to build indexes multiple times. " +:+
                "This should never happen.") s
      else if negb (_doneResolving doc) then
        SRaise ("Tried to build indexes before finished resolving. " +:+
                "Need to wait until afterwards or the indexes would be " +:+
                "incomplete.") s
      else
        (* this._initIndexes() *)
        let s1 := <[d := with_indexes (Some ∅) (Some ∅) doc]> s in
        match getFeatures s1 d None with
        | Return fs =>
            let '(byKind, byKindAndId) := indexAll s1 fs (∅, ∅) in
            SReturn () (<[d := with_indexes (Some byKind) (Some byKindAndId)
                                 doc]> s1)
        | Raise e => SRaise e s1
        | Diverge => SDiverge
        end
  end.

(** [this.getByKind(kind)]; [again] bounds the self-call that follows
    [_buildIndexes]. *)
Fixpoint getByKind_rec (again : nat) (s : Store) (d : DocId) (kind : string)
  : SOutcome (list Feature) :=
  match s !! d with
  | None => SRaise typeError s
  | Some doc =>
      match _featuresByKind doc with
      | Some byKind =>
          (* We have a fast index! Use that. *)
          SReturn (default [] (byKind !! kind)) s
      | None =>
          if _doneResolving doc then
            (* We're done discovering features in this document and its
               children so we can safely build up the indexes. *)
            sbind (_buildIndexes s d) (λ _ s',
              match again with
              | 0 => SDiverge
              | S again' => getByKind_rec again' s' d kind
              end)
          else
            lift s (match _getByKind (S (size s)) s d kind ∅ with
                    | Return acc => Return acc.1
                    | Raise e => Raise e
                    | Diverge => Diverge
                    end)
      end
  end.

Definition getByKind : Store → DocId → string → SOutcome (list Feature) :=
  getByKind_rec 1.

Definition lookupById (byKindAndId : KindIdIndex) (kind identifier : string)
  : list Feature :=
  default [] (idMap ← byKindAndId !! kind; idMap !! identifier).

(** [this.getById(kind, identifier)]. *)
Fixpoint getById_rec (again : nat) (s : Store) (d : DocId)
    (kind identifier : string) : SOutcome (list Feature) :=
  match s !! d with
  | None => SRaise typeError s
  | Some doc =>
      match _featuresByKindAndId doc with
      | Some byKindAndId =>
          (* We have a fast index! Use that. *)
          SReturn (lookupById byKindAndId kind identifier) s
      | None =>
          if _doneResolving doc then
            sbind (_buildIndexes s d) (λ _ s',
              match again with
              | 0 => SDiverge
              | S again' => getById_rec again' s' d kind identifier
              end)
          else
            sbind (getByKind s d kind) (λ ofKind s',
              SReturn (filter (λ f, identifier ∈ identifiers s' f) ofKind) s')
      end
  end.

Definition getById
  : Store → DocId → string → string → SOutcome (list Feature) :=
  getById_rec 1.

(** [this.getOnlyAtId(kind, identifier)]; [None] is [undefined]. *)
Definition getOnlyAtId (s : Store) (d : DocId) (kind identifier : string)
  : SOutcome (option Feature) :=
  sbind (getById s d kind identifier) (λ results s',
    if 1 <? length results then
      SRaise ("Expected to find at most one " +:+ kind +:+ " with id " +:+
              identifier +:+ " but found " +:+ pretty (length results) +:+ ".")
        s'
    else SReturn (head results) s').

(** *** Resolution *)

Section Resolve.

(** The per-analysis map from URLs to allocated documents. *)
Variable analyzer : gmap string DocId.

(** Modelled from the spec: [AnalysisContext._getDocument], which
    [ScannedImport.resolve] calls, is not among the sources.  The target is
    looked up in the per-analysis map, where it is already allocated even
    if not yet done (section 4.5); and, as the comment on
    [_begunResolving] in document.ts has it, a dependency may in turn try
    to resolve a document: a target that is not yet resolved is asked to
    resolve, which the [_begun] flag short-circuits on a cycle. *)
Definition _getDocument (resolve : Store → DocId → SOutcome unit) (s : Store)
    (url : string) : SOutcome (option DocId) :=
  match analyzer !! url with
  | None => SReturn None s
  | Some t =>
      match s !! t with
      | None => SReturn None s
      | Some target =>
          if _doneResolving target then SReturn (Some t) s
          else sbind (resolve s t) (λ _ s', SReturn (Some t) s')
      end
  end.

(** [scannedFeature.resolve(document)] for the [i]-th scanned feature of
    document [d]. *)
Definition resolveFeature (resolve : Store → DocId → SOutcome unit)
    (s : Store) (d : DocId) (i : nat) (sf : ScannedFeature)
  : SOutcome (option Feature) :=
  match sf with
  | ScannedImport type url =>
      sbind (_getDocument resolve s url) (λ importedDocument s',
        SReturn (t ← importedDocument; Some (FImport (d, i) type url t)) s')
  | ScannedResolvable resolved =>
      SReturn ('(ks, ids) ← resolved; Some (FOther (d, i) ks ids)) s
  | ScannedOther => SReturn None s
  end.

(** The [for] loop of [Document.resolve], from the [i]-th scanned feature
    on. *)
Fixpoint resolveLoop (resolve : Store → DocId → SOutcome unit) (d : DocId)
    (i : nat) (scanned : list ScannedFeature) (s : Store) : SOutcome unit :=
  match scanned with
  | [] => SReturn () s
  | scannedFeature :: rest =>
      if isResolvable scannedFeature then
        sbind (resolveFeature resolve s d i scannedFeature) (λ feature s1,
          match feature with
          | Some f =>
              sbind (_addFeature s1 d f) (λ _ s2,
                resolveLoop resolve d (S i) rest s2)
          | None => resolveLoop resolve d (S i) rest s1
          end)
      else resolveLoop resolve d (S i) rest s
  end.

(** [this.resolve()] on document [d]; [fuel] bounds the depth of the
    recursion through imports. *)
Fixpoint resolve (fuel : nat) (s : Store) (d : DocId) : SOutcome unit :=
  match fuel with
  | 0 => SDiverge
  | S fuel' =>
      match s !! d with
      | None => SRaise typeError s
      | Some doc =>
          if _doneResolving doc then
            SRaise "resolve can only be called once" s
          else if _begunResolving doc then SReturn () s
          else
            let s1 := <[d := with_begunResolving true doc]> s in
            sbind (_addFeature s1 d (FDocument d)) (λ _ s2,
              sbind (resolveLoop (resolve fuel') d 0 (features doc) s2)
                (λ _ s3,
                   match s3 !! d with
                   | Some doc3 =>
                       SReturn () (<[d := with_doneResolving true doc3]> s3)
                   | None => SRaise typeError s3
                   end))
      end
  end.

End Resolve.

End Model.


(** ** Properties of [Document] *)

Module ModelFacts.
Import Model.

(** *** Resolution terminates *)

(** Documents whose resolution has not begun: the recursion of [resolve]
    through imports consumes one of them at every level. *)
Definition unbegunSet (s : Store) : gset DocId :=
  dom (filter (λ p, _begunResolving p.2 = false) s).

Lemma elem_of_unbegunSet (s : Store) (d : DocId) :
  d ∈ unbegunSet s ↔ ∃ doc, s !! d = Some doc ∧ _begunResolving doc = false.
Proof.
  unfold unbegunSet. rewrite elem_of_dom. split.
  - intros [doc [H1 H2]%map_lookup_filter_Some]. eauto.
  - intros (doc & H1 & H2). exists doc. by apply map_lookup_filter_Some.
Qed.

(** [s'] has the documents of [s], and those whose resolution had begun
    in [s] are untouched. *)
Definition Frame (s s' : Store) : Prop :=
  dom s' = dom s ∧
  ∀ d doc, s !! d = Some doc → _begunResolving doc = true → s' !! d = Some doc.

Lemma Frame_refl (s : Store) : Frame s s.
Proof. by split. Qed.

Lemma Frame_trans (s1 s2 s3 : Store) : Frame s1 s2 → Frame s2 s3 → Frame s1 s3.
Proof.
  intros [D1 F1] [D2 F2]. split; [congruence|].
  intros d doc H1 Hb. apply F2; [|done]. by apply F1.
Qed.

Lemma Frame_unbegun (s s' : Store) :
  Frame s s' → unbegunSet s' ⊆ unbegunSet s.
Proof.
  intros [D F] d (doc' & H' & Hb')%elem_of_unbegunSet.
  apply elem_of_unbegunSet.
  assert (is_Some (s !! d)) as [doc H].
  { apply elem_of_dom. rewrite <- D. apply elem_of_dom. eauto. }
  exists doc. split; [done|].
  destruct (_begunResolving doc) eqn:Hb; [|done].
  rewrite (F _ _ H Hb) in H'. congruence.
Qed.

Lemma Frame_size (s s' : Store) :
  Frame s s' → size (unbegunSet s') ≤ size (unbegunSet s).
Proof. intros H. apply subseteq_size, Frame_unbegun, H. Qed.

(** The fields a document gets from its scanned document never change. *)
Definition sameScanned (doc doc' : Document) : Prop :=
  url doc' = url doc ∧ isInline doc' = isInline doc ∧
  doc_type doc' = doc_type doc ∧ features doc' = features doc.

(** A document in the middle of its [resolve], with local features [l]. *)
Definition InProgress (doc0 : Document) (l : list Feature) (doc : Document)
  : Prop :=
  sameScanned doc0 doc ∧ _begunResolving doc = true ∧
  _doneResolving doc = false ∧ _localFeatures doc = l.

Lemma _indexFeature_fields (s : Store) (doc : Document) (f : Feature) :
  sameScanned doc (_indexFeature s doc f) ∧
  _begunResolving (_indexFeature s doc f) = _begunResolving doc ∧
  _doneResolving (_indexFeature s doc f) = _doneResolving doc ∧
  _localFeatures (_indexFeature s doc f) = _localFeatures doc.
Proof.
  unfold _indexFeature, sameScanned.
  destruct (_featuresByKind doc), (_featuresByKindAndId doc); try done.
  by destruct (indexFeature _ _ _ _).
Qed.

(** [_addFeature] on a document in progress. *)
Lemma _addFeature_InProgress (s : Store) (d : DocId) (doc0 doc : Document)
    (l : list Feature) (f : Feature) :
  s !! d = Some doc → InProgress doc0 l doc →
  ∃ doc', _addFeature s d f = SReturn () (<[d := doc']> s) ∧
          InProgress doc0 (setAdd f l) doc'.
Proof.
  intros Hd (Hs & Hb & Hn & Hl). unfold _addFeature. rewrite Hd, Hn.
  eexists. split; [done|].
  destruct (_indexFeature_fields s doc f) as ((?&?&?&?) & ? & ? & Hl').
  destruct Hs as (?&?&?&?).
  unfold InProgress, sameScanned; simpl. rewrite Hl', Hl.
  split_and!; congruence.
Qed.

Lemma unbegunSet_insert_begun (s : Store) (d : DocId) (doc' : Document) :
  _begunResolving doc' = true →
  unbegunSet (<[d := doc']> s) ⊆ unbegunSet s ∖ {[d]}.
Proof.
  intros Hb d' (x & Hx & Hbx)%elem_of_unbegunSet.
  destruct (decide (d' = d)) as [->|Hne].
  - rewrite lookup_insert_eq in Hx. congruence.
  - rewrite lookup_insert_ne in Hx by done.
    apply elem_of_difference. split; [|set_solver].
    apply elem_of_unbegunSet. eauto.
Qed.

(** As [Frame], but for the loop of the document [d] being resolved, which
    the loop itself extends. *)
Definition LoopFrame (d : DocId) (s s' : Store) : Prop :=
  dom s' = dom s ∧
  ∀ d' doc, d' ≠ d → s !! d' = Some doc → _begunResolving doc = true →
            s' !! d' = Some doc.

Lemma LoopFrame_refl (d : DocId) (s : Store) : LoopFrame d s s.
Proof. by split. Qed.

Lemma LoopFrame_trans (d : DocId) (s1 s2 s3 : Store) :
  LoopFrame d s1 s2 → LoopFrame d s2 s3 → LoopFrame d s1 s3.
Proof.
  intros [D1 F1] [D2 F2]. split; [congruence|].
  intros d' doc Hne H1 Hb. apply F2; [done| |done]. by apply F1.
Qed.

Lemma Frame_LoopFrame (d : DocId) (s s' : Store) :
  Frame s s' → LoopFrame d s s'.
Proof. intros [D F]. split; [done|]. intros d' doc _. apply F. Qed.

Lemma LoopFrame_insert (d : DocId) (s : Store) (doc doc' : Document) :
  s !! d = Some doc → LoopFrame d s (<[d := doc']> s).
Proof.
  intros Hd. split.
  - rewrite dom_insert_L. apply elem_of_dom_2 in Hd. set_solver.
  - intros d' x Hne Hx _. by rewrite lookup_insert_ne.
Qed.

Lemma LoopFrame_size (d : DocId) (s s' : Store) (doc' : Document) :
  LoopFrame d s s' → s' !! d = Some doc' → _begunResolving doc' = true →
  size (unbegunSet s') ≤ size (unbegunSet s).
Proof.
  intros [D F] Hd' Hb'. apply subseteq_size.
  intros d' (x' & Hx' & Hbx')%elem_of_unbegunSet.
  apply elem_of_unbegunSet.
  assert (is_Some (s !! d')) as [x Hx].
  { apply elem_of_dom. rewrite <- D. apply elem_of_dom. eauto. }
  exists x. split; [done|].
  destruct (_begunResolving x) eqn:Hb; [|done].
  destruct (decide (d' = d)) as [->|Hne]; [congruence|].
  rewrite (F _ _ Hne Hx Hb) in Hx'. congruence.
Qed.

Section ResolveFacts.

Variable analyzer : gmap string DocId.

(** The feature [resolve] adds for the [i]-th scanned feature of [d]. *)
Definition expectedFeature (s : Store) (d : DocId) (i : nat)
    (sf : ScannedFeature) : option Feature :=
  match sf with
  | ScannedImport type url =>
      t ← analyzer !! url; _ ← s !! t; Some (FImport (d, i) type url t)
  | ScannedResolvable resolved =>
      '(ks, ids) ← resolved; Some (FOther (d, i) ks ids)
  | ScannedOther => None
  end.

Fixpoint expectedFeatures (s : Store) (d : DocId) (i : nat)
    (scanned : list ScannedFeature) : list Feature :=
  match scanned with
  | [] => []
  | sf :: rest =>
      option_list (expectedFeature s d i sf) ++ expectedFeatures s d (S i) rest
  end.

(** What a recursion bound [fuel] is good for. *)
Definition ResolvesWithin (fuel : nat) : Prop :=
  ∀ s d doc,
    s !! d = Some doc → _doneResolving doc = false →
    size (unbegunSet s) < fuel →
    ∃ s', resolve analyzer fuel s d = SReturn () s' ∧ Frame s s'.

Lemma resolveFeature_spec (fuel : nat) (s0 sx : Store) (d : DocId) (i : nat)
    (sf : ScannedFeature) :
  ResolvesWithin fuel → dom sx = dom s0 → size (unbegunSet sx) < fuel →
  ∃ s', resolveFeature analyzer (resolve analyzer fuel) sx d i sf
          = SReturn (expectedFeature s0 d i sf) s' ∧ Frame sx s'.
Proof.
  intros IH Hdom Hfuel. destruct sf as [type url|resolved|]; simpl.
  - unfold _getDocument. destruct (analyzer !! url) as [t|]; simpl;
      [|by eauto using Frame_refl].
    destruct (sx !! t) as [target|] eqn:Ht.
    + assert (is_Some (s0 !! t)) as [x ->].
      { apply elem_of_dom. rewrite <- Hdom. by apply elem_of_dom_2 in Ht. }
      simpl. destruct (_doneResolving target) eqn:Hdone; simpl;
        [by eauto using Frame_refl|].
      destruct (IH sx t target Ht Hdone Hfuel) as (s' & -> & HF). simpl. eauto.
    + assert (s0 !! t = None) as ->.
      { apply not_elem_of_dom. rewrite <- Hdom. by apply not_elem_of_dom. }
      simpl. eauto using Frame_refl.
  - eauto using Frame_refl.
  - eauto using Frame_refl.
Qed.

Lemma resolveLoop_spec (fuel : nat) (s0 : Store) (d : DocId) (doc0 : Document) :
  ResolvesWithin fuel →
  ∀ scanned i sx docx l,
    dom sx = dom s0 → sx !! d = Some docx → InProgress doc0 l docx →
    size (unbegunSet sx) < fuel →
    ∃ s' docy,
      resolveLoop analyzer (resolve analyzer fuel) d i scanned sx
        = SReturn () s' ∧
      LoopFrame d sx s' ∧ s' !! d = Some docy ∧
      InProgress doc0 (setAddAll l (expectedFeatures s0 d i scanned)) docy.
Proof.
  intros IH. induction scanned as [|sf rest IHl];
    intros i sx docx l Hdom Hd Hin Hfuel; simpl.
  { exists sx, docx. split_and!; by try apply LoopFrame_refl. }
  assert (_begunResolving docx = true) as Hbx by apply Hin.
  destruct (isResolvable sf) eqn:Hres; cycle 1.
  { destruct sf; try done. simpl. by eapply IHl. }
  destruct (resolveFeature_spec fuel s0 sx d i sf IH Hdom Hfuel)
    as (s1 & -> & HF1). simpl.
  assert (s1 !! d = Some docx) as Hd1 by by apply HF1.
  assert (size (unbegunSet s1) < fuel) as Hfuel1.
  { pose proof (Frame_size _ _ HF1). lia. }
  assert (dom s1 = dom s0) as Hdom1 by (destruct HF1; congruence).
  destruct (expectedFeature s0 d i sf) as [f|]; simpl.
  - destruct (_addFeature_InProgress s1 d doc0 docx l f Hd1 Hin)
      as (doc2 & -> & Hin2). simpl.
    assert (_begunResolving doc2 = true) as Hb2 by apply Hin2.
    destruct (IHl (S i) (<[d:=doc2]> s1) doc2 (setAdd f l))
      as (s' & docy & -> & HLF & Hdy & Hiny).
    + rewrite dom_insert_L. apply elem_of_dom_2 in Hd1. set_solver.
    + by rewrite lookup_insert_eq.
    + done.
    + pose proof (subseteq_size _ _
                    (unbegunSet_insert_begun s1 d doc2 Hb2)) as Hle.
      assert (unbegunSet s1 ∖ {[d]} ⊆ unbegunSet s1) as Hsub by set_solver.
      apply subseteq_size in Hsub. lia.
    + exists s', docy. split_and!; try done.
      eapply LoopFrame_trans; [by apply Frame_LoopFrame|].
      eapply LoopFrame_trans; [|done]. by eapply LoopFrame_insert.
  - destruct (IHl (S i) s1 docx l) as (s' & docy & -> & HLF & Hdy & Hiny);
      try done.
    exists s', docy. split_and!; try done.
    eapply LoopFrame_trans; [by apply Frame_LoopFrame|done].
Qed.

(** A document that is neither resolved nor begun resolves, given a
    recursion bound above the number of documents not yet begun. *)
Lemma resolve_spec (fuel : nat) (s : Store) (d : DocId) (doc : Document) :
  s !! d = Some doc → _doneResolving doc = false →
  size (unbegunSet s) < fuel →
  ∃ s', resolve analyzer fuel s d = SReturn () s' ∧ Frame s s' ∧
    (_begunResolving doc = false →
     ∃ doc', s' !! d = Some doc' ∧ sameScanned doc doc' ∧
       _begunResolving doc' = true ∧ _doneResolving doc' = true ∧
       _localFeatures doc' =
         setAddAll (_localFeatures doc)
           (FDocument d :: expectedFeatures s d 0 (features doc))).
Proof.
  revert s d doc. induction fuel as [|fuel IH]; intros s d doc Hd Hdone Hfuel;
    [lia|].
  simpl. rewrite Hd, Hdone.
  destruct (_begunResolving doc) eqn:Hbegun.
  { exists s. split_and!; by try apply Frame_refl. }
  assert (ResolvesWithin fuel) as IH'.
  { intros sx dx docx ???. destruct (IH sx dx docx) as (s' & ? & ? & _); eauto. }
  set (doc1 := with_begunResolving true doc).
  set (s1 := <[d := doc1]> s).
  assert (InProgress doc (_localFeatures doc) doc1) as Hin1.
  { by unfold InProgress, sameScanned. }
  assert (s1 !! d = Some doc1) as Hd1 by apply lookup_insert_eq.
  assert (dom s1 = dom s) as Hdom1.
  { unfold s1. rewrite dom_insert_L. apply elem_of_dom_2 in Hd. set_solver. }
  destruct (_addFeature_InProgress s1 d doc _ _ (FDocument d) Hd1 Hin1)
    as (doc2 & -> & Hin2). simpl.
  assert (_begunResolving doc2 = true) as Hb2 by apply Hin2.
  set (s2 := <[d := doc2]> s1).
  assert (size (unbegunSet s2) < fuel) as Hfuel2.
  { assert (unbegunSet s2 ⊆ unbegunSet s ∖ {[d]}) as Hsub.
    { unfold s2, s1. rewrite insert_insert_eq.
      by apply unbegunSet_insert_begun. }
    apply subseteq_size in Hsub.
    assert (d ∈ unbegunSet s) as Hin by (apply elem_of_unbegunSet; eauto).
    pose proof (size_difference (unbegunSet s) {[d]}) as Hdiff.
    rewrite size_singleton in Hdiff.
    assert (size (unbegunSet s) ≠ 0).
    { intros H0%size_empty_inv. set_solver. }
    assert ({[d]} ⊆ unbegunSet s) as Hs by set_solver.
    specialize (Hdiff Hs). lia. }
  destruct (resolveLoop_spec fuel s d doc IH' (features doc) 0 s2 doc2
              (setAdd (FDocument d) (_localFeatures doc)))
    as (s3 & doc3 & -> & HLF & Hd3 & Hin3); try done.
  { unfold s2. rewrite dom_insert_L. apply elem_of_dom_2 in Hd1. set_solver. }
  { apply lookup_insert_eq. }
  simpl. rewrite Hd3. eexists. split; [done|].
  destruct Hin3 as (Hs3 & Hb3 & Hdn3 & Hl3). destruct HLF as [Hdom3 HF3].
  split; [split|].
  - rewrite dom_insert_L. apply elem_of_dom_2 in Hd3.
    assert (dom s2 = dom s) as <-.
    { unfold s2. rewrite dom_insert_L. set_solver. }
    set_solver.
  - intros d' x Hx Hbx.
    assert (d' ≠ d) as Hne by (intros ->; congruence).
    rewrite lookup_insert_ne by done. apply HF3; [done| |done].
    unfold s2, s1. by rewrite !lookup_insert_ne.
  - intros _. eexists. rewrite lookup_insert_eq. split; [done|].
    unfold sameScanned in *. simpl. split_and!; tauto.
Qed.

(** Features created by one [resolve] are pairwise distinct objects, so
    adding them to the set of local features appends them. *)
Lemma setAddAll_NoDup {A} `{EqDecision A} (l xs : list A) :
  NoDup (l ++ xs) → setAddAll l xs = l ++ xs.
Proof.
  revert l. induction xs as [|x xs IH]; intros l Hnd; simpl.
  - by rewrite app_nil_r.
  - unfold setAddAll in *. simpl. unfold setAdd at 2.
    apply NoDup_app in Hnd as (Hl & Hdisj & Hxs).
    rewrite decide_False by (intros Hin; apply (Hdisj _ Hin); left).
    rewrite IH; [by rewrite <- app_assoc|].
    rewrite <- app_assoc. simpl. apply NoDup_app. split_and!; try done.
  Qed.

Definition featureIndex (f : Feature) : option ObjId :=
  match f with
  | FDocument _ => None
  | FImport oid _ _ _ | FOther oid _ _ => Some oid
  end.

Lemma expectedFeatures_index (s : Store) (d : DocId) (i : nat)
    (scanned : list ScannedFeature) (f : Feature) :
  f ∈ expectedFeatures s d i scanned →
  ∃ j, i ≤ j ∧ featureIndex f = Some (d, j).
Proof.
  revert i. induction scanned as [|sf rest IH]; intros i; simpl.
  - by intros ?%elem_of_nil.
  - intros [Hin|Hin]%elem_of_app.
    + exists i. split; [done|].
      destruct sf as [type url|[[ks ids]|]|]; simpl in Hin;
        try by apply elem_of_nil in Hin.
      * destruct (analyzer !! url) as [t|]; simpl in Hin;
          [|by apply elem_of_nil in Hin].
        destruct (s !! t); simpl in Hin; [|by apply elem_of_nil in Hin].
        by apply list_elem_of_singleton in Hin as ->.
      * by apply list_elem_of_singleton in Hin as ->.
    + destruct (IH _ Hin) as (j & ? & ?). exists j. split; [lia|done].
Qed.

Lemma expectedFeatures_NoDup (s : Store) (d : DocId) (i : nat)
    (scanned : list ScannedFeature) :
  NoDup (expectedFeatures s d i scanned).
Proof.
  revert i. induction scanned as [|sf rest IH]; intros i; simpl.
  - constructor.
  - apply NoDup_app. split_and!; [|..|apply IH].
    + destruct (expectedFeature s d i sf); simpl;
        [apply NoDup_singleton|constructor].
    + intros f Hf Hin. apply expectedFeatures_index in Hin as (j & Hj & Hidx).
      destruct sf as [type url|[[ks ids]|]|]; simpl in Hf;
        try by apply elem_of_nil in Hf.
      * destruct (analyzer !! url) as [t|]; simpl in Hf;
          [|by apply elem_of_nil in Hf].
        destruct (s !! t); simpl in Hf; [|by apply elem_of_nil in Hf].
        apply list_elem_of_singleton in Hf as ->. simpl in Hidx.
        simplify_eq. lia.
      * apply list_elem_of_singleton in Hf as ->. simpl in Hidx.
        simplify_eq. lia.
Qed.

Lemma resolved_features_fresh (s : Store) (d : DocId)
    (scanned : list ScannedFeature) :
  setAddAll [] (FDocument d :: expectedFeatures s d 0 scanned) =
  FDocument d :: expectedFeatures s d 0 scanned.
Proof.
  apply (setAddAll_NoDup []). simpl. constructor.
  - by intros (j & _ & ?)%expectedFeatures_index.
  - apply expectedFeatures_NoDup.
Qed.

(** C3: [Document.resolve] is a three-state operation.  On a resolved
    document it throws; on a document whose resolution has begun and not
    finished it returns at once and changes nothing; otherwise it sets
    [_begunResolving], adds the document itself as a feature, resolves the
    resolvable scanned features in order, adding what they return, and
    sets [_doneResolving].  With a recursion bound above the number of
    documents not yet begun it never runs out: resolution terminates, on
    cyclic import graphs too. *)
Theorem Document_resolve_three_states (s : Store) (d : DocId)
    (doc : Document) :
  s !! d = Some doc →
  (_doneResolving doc = true →
     ∀ fuel, resolve analyzer (S fuel) s d
             = SRaise "resolve can only be called once" s) ∧
  (_doneResolving doc = false → _begunResolving doc = true →
     ∀ fuel, resolve analyzer (S fuel) s d = SReturn () s) ∧
  (_doneResolving doc = false → _begunResolving doc = false →
     ∀ fuel, size (unbegunSet s) < fuel →
       ∃ s' doc',
         resolve analyzer fuel s d = SReturn () s' ∧ Frame s s' ∧
         s' !! d = Some doc' ∧ sameScanned doc doc' ∧
         _begunResolving doc' = true ∧ _doneResolving doc' = true ∧
         _localFeatures doc' =
           setAddAll (_localFeatures doc)
             (FDocument d :: expectedFeatures s d 0 (features doc)) ∧
         (_localFeatures doc = [] →
            _localFeatures doc' =
              FDocument d :: expectedFeatures s d 0 (features doc))) ∧
  (∀ fuel, size (unbegunSet s) < fuel →
     resolve analyzer fuel s d ≠ SDiverge).
Proof.
  intros Hd. split_and!.
  - intros Hdone fuel. simpl. by rewrite Hd, Hdone.
  - intros Hdone Hbegun fuel. simpl. by rewrite Hd, Hdone, Hbegun.
  - intros Hdone Hbegun fuel Hfuel.
    destruct (resolve_spec fuel s d doc Hd Hdone Hfuel) as (s' & Hr & HF & H).
    destruct (H Hbegun) as (doc' & ? & ? & ? & ? & Hl).
    exists s', doc'. split_and!; try done.
    intros Hnil. rewrite Hl, Hnil. apply resolved_features_fresh.
  - intros fuel Hfuel. destruct (_doneResolving doc) eqn:Hdone.
    + destruct fuel; [lia|]. simpl. by rewrite Hd, Hdone.
    + destruct (resolve_spec fuel s d doc Hd Hdone Hfuel) as (s' & -> & _).
      done.
Qed.

End ResolveFacts.

(** *** The traversals terminate *)

(** On an outcome: it is not [Diverge], and a returned value satisfies
    [P]. *)
Definition returns {A} (P : A → Prop) (o : Outcome A) : Prop :=
  match o with
  | Return a => P a
  | Raise _ => True
  | Diverge => False
  end.

Lemma forEach_returns {A St} (P : St → Prop) (body : St → A → Outcome St)
    (xs : list A) (st : St) :
  P st → (∀ st x, x ∈ xs → P st → returns P (body st x)) →
  returns P (forEach body xs st).
Proof.
  revert st. induction xs as [|x xs IH]; intros st Hst Hbody; simpl; [done|].
  pose proof (Hbody st x (list_elem_of_here _ _) Hst) as Hx.
  destruct (body st x) as [st'| |]; simpl in *; try done.
  apply IH; [done|]. intros st'' y Hy. apply Hbody. by right.
Qed.

Lemma returns_impl {A} (P Q : A → Prop) (o : Outcome A) :
  returns P o → (∀ a, P a → Q a) → returns Q o.
Proof. destruct o; simpl; auto. Qed.

Lemma size_unvisited (s : Store) (d : DocId) (visited visited' : gset DocId) :
  is_Some (s !! d) → d ∉ visited → {[d]} ∪ visited ⊆ visited' →
  S (size (dom s ∖ visited')) ≤ size (dom s ∖ visited).
Proof.
  intros Hd%elem_of_dom Hnv Hsub.
  assert (dom s ∖ visited' ⊆ (dom s ∖ visited) ∖ {[d]}) as H1 by set_solver.
  apply subseteq_size in H1.
  assert ({[d]} ⊆ dom s ∖ visited) as H2 by set_solver.
  pose proof (size_difference _ _ H2) as H3. rewrite size_singleton in H3.
  assert (size (dom s ∖ visited) ≠ 0).
  { intros H0%size_empty_inv. set_solver. }
  lia.
Qed.

Lemma NoDup_setAdd {A} `{EqDecision A} (x : A) (l : list A) :
  NoDup l → NoDup (setAdd x l).
Proof.
  intros Hl. unfold setAdd. destruct (decide (x ∈ l)); [done|].
  apply NoDup_app. split_and!; [done| |apply NoDup_singleton].
  intros y Hy ->%list_elem_of_singleton. done.
Qed.

(** [_getFeatures] ends within [size s + 1] levels of recursion: every
    level marks a document as visited.  The result stays duplicate-free. *)
Lemma _getFeatures_returns (fuel : nat) (s : Store) (d : DocId) (deep : bool)
    (acc : list Feature * gset DocId) :
  size (dom s ∖ acc.2) < fuel →
  returns (λ acc', acc.2 ⊆ acc'.2 ∧ (NoDup acc.1 → NoDup acc'.1))
    (_getFeatures fuel s d deep acc).
Proof.
  revert d acc. induction fuel as [|fuel IH]; intros d acc Hfuel; [lia|].
  simpl. destruct (s !! d) as [doc|] eqn:Hd; [|done].
  destruct (decide (d ∈ acc.2)) as [Hin|Hnin]; [simpl; set_solver|].
  set (P := λ acc' : list Feature * gset DocId,
         {[d]} ∪ acc.2 ⊆ acc'.2 ∧ (NoDup acc.1 → NoDup acc'.1)).
  eapply returns_impl.
  - apply (forEach_returns P); [split; [simpl; set_solver|done]|].
    intros acc1 f _ [Hacc1 Hnd1].
    assert (size (dom s ∖ acc1.2) < fuel) as Hf1.
    { pose proof (size_unvisited s d acc.2 acc1.2 (mk_is_Some _ _ Hd) Hnin Hacc1).
      lia. }
    assert (P (setAdd f acc1.1, acc1.2)) as HP1.
    { split; [done|]. intros ?. by apply NoDup_setAdd, Hnd1. }
    destruct deep; [|done].
    assert (returns P
              (if has "document" (kinds s f)
               then match asDocument f with
                    | Some d' => _getFeatures fuel s d' true
                                   (setAdd f acc1.1, acc1.2)
                    | None => Raise typeError
                    end
               else Return (setAdd f acc1.1, acc1.2))) as H1.
    { destruct (has "document" (kinds s f)); [|done].
      destruct (asDocument f) as [d'|]; [|done].
      eapply returns_impl; [by apply IH|]. simpl. intros a [??].
      destruct HP1 as [??]. split; [set_solver|auto]. }
    destruct (if has "document" (kinds s f) then _ else _) as [acc2| |];
      simpl in *; try done.
    destruct (has "import" (kinds s f)); [|done].
    destruct (importDocument f) as [t|]; [|done].
    destruct H1 as [H1 H1'].
    eapply returns_impl.
    + apply IH.
      pose proof (size_unvisited s d acc.2 acc2.2 (mk_is_Some _ _ Hd) Hnin H1).
      lia.
    + simpl. intros a [??]. split; [set_solver|auto].
  - simpl. intros a [??]. split; [set_solver|done].
Qed.

Lemma getFeatures_total (s : Store) (d : DocId) (deep : option bool) :
  getFeatures s d deep ≠ Diverge.
Proof.
  unfold getFeatures.
  pose proof (_getFeatures_returns (S (size s)) s d (default true deep) ([], ∅))
    as H.
  destruct (_getFeatures _ _ _ _ _); try done.
  exfalso. apply H. simpl.
  rewrite difference_empty_L, size_dom. lia.
Qed.

Lemma getFeatures_NoDup (s : Store) (d : DocId) (deep : option bool)
    (fs : list Feature) :
  getFeatures s d deep = Return fs → NoDup fs.
Proof.
  unfold getFeatures.
  pose proof (_getFeatures_returns (S (size s)) s d (default true deep) ([], ∅))
    as H.
  destruct (_getFeatures _ _ _ _ _) as [acc| |]; try done.
  intros [= <-]. apply H; [|constructor]. simpl.
  rewrite difference_empty_L, size_dom. lia.
Qed.

Lemma _getByKind_returns (fuel : nat) (s : Store) (d : DocId) (kind : string)
    (walked : gset DocId) :
  d ∉ walked → size (dom s ∖ walked) < fuel →
  returns (λ acc', {[d]} ∪ walked ⊆ acc'.2) (_getByKind fuel s d kind walked).
Proof.
  revert d walked. induction fuel as [|fuel IH]; intros d walked Hnw Hfuel;
    [lia|].
  simpl. destruct (s !! d) as [doc|] eqn:Hd; [|done].
  set (sub := λ (target : option DocId) (acc : list Feature * gset DocId),
         match target with
         | Some t =>
             if decide (t ∈ acc.2) then Return acc
             else match _getByKind fuel s t kind acc.2 with
                  | Return (sub, walked0) =>
                      Return (setAddAll acc.1 sub, walked0)
                  | Raise e => Raise e
                  | Diverge => Diverge
                  end
         | None => Raise typeError
         end).
  assert (∀ target acc, {[d]} ∪ walked ⊆ acc.2 →
            returns (λ acc', {[d]} ∪ walked ⊆ acc'.2) (sub target acc)) as Hsub.
  { intros [t|] acc Hacc; unfold sub; [|done].
    destruct (decide (t ∈ acc.2)) as [|Hnt]; [done|].
    assert (size (dom s ∖ acc.2) < fuel) as Hf.
    { pose proof (size_unvisited s d walked acc.2 (mk_is_Some _ _ Hd) Hnw Hacc).
      lia. }
    pose proof (IH t acc.2 Hnt Hf) as Ht.
    destruct (_getByKind fuel s t kind acc.2) as [[sub' walked']| |];
      simpl in *; try done. set_solver. }
  apply (forEach_returns (λ acc', {[d]} ∪ walked ⊆ acc'.2));
    [simpl; set_solver|].
  intros acc f _ Hacc.
  set (acc1 := if has kind (kinds s f) then (setAdd f acc.1, acc.2) else acc).
  assert ({[d]} ∪ walked ⊆ acc1.2) as Hacc1.
  { unfold acc1. by destruct (has kind (kinds s f)). }
  assert (returns (λ acc', {[d]} ∪ walked ⊆ acc'.2)
            (if has "import" (kinds s f)
             then sub (importDocument f) acc1 else Return acc1)) as H1.
  { destruct (has "import" (kinds s f)); [by apply Hsub|done]. }
  destruct (if has "import" (kinds s f) then _ else _) as [acc2| |];
    simpl in *; try done.
  destruct (has "document" (kinds s f)); [by apply Hsub|done].
Qed.

(** *** The indexes *)

Definition kindOf (ix : KindIndex * KindIdIndex) (kind : string)
  : list Feature :=
  default [] (ix.1 !! kind).

Definition idOf (ix : KindIndex * KindIdIndex) (kind id : string)
  : list Feature :=
  lookupById ix.2 kind id.

Lemma setAdd_idem {A} `{EqDecision A} (x : A) (l : list A) :
  setAdd x (setAdd x l) = setAdd x l.
Proof.
  unfold setAdd. destruct (decide (x ∈ l)) as [Hin|Hnin].
  - by rewrite decide_True.
  - rewrite decide_True; [done|]. apply elem_of_app. right. by left.
Qed.

Lemma indexKind_lookup (f : Feature) (kind k : string) (byKind : KindIndex) :
  default [] (indexKind f kind byKind !! k) =
  if decide (k = kind) then setAdd f (default [] (byKind !! k))
  else default [] (byKind !! k).
Proof.
  unfold indexKind. destruct (decide (k = kind)) as [->|Hne].
  - by rewrite lookup_insert_eq.
  - by rewrite lookup_insert_ne.
Qed.

Lemma indexId_lookup (f : Feature) (kind id k i : string)
    (byKindAndId : KindIdIndex) :
  lookupById (indexId f kind id byKindAndId) k i =
  if decide (k = kind ∧ i = id) then setAdd f (lookupById byKindAndId k i)
  else lookupById byKindAndId k i.
Proof.
  unfold indexId, lookupById.
  destruct (decide (k = kind)) as [->|Hne].
  - rewrite lookup_insert_eq. simpl.
    destruct (decide (i = id)) as [->|Hni].
    + rewrite lookup_insert_eq, decide_True by done.
      by destruct (byKindAndId !! kind).
    + rewrite lookup_insert_ne, decide_False by naive_solver.
      destruct (byKindAndId !! kind); simpl; [done|].
      by rewrite lookup_empty.
  - rewrite lookup_insert_ne, decide_False by naive_solver. done.
Qed.

Lemma indexIds_lookup (f : Feature) (kind k i : string) (ids : list string)
    (byKindAndId : KindIdIndex) :
  lookupById (foldl (λ acc id, indexId f kind id acc) byKindAndId ids) k i =
  if decide (k = kind ∧ i ∈ ids) then setAdd f (lookupById byKindAndId k i)
  else lookupById byKindAndId k i.
Proof.
  revert byKindAndId. induction ids as [|id ids IH]; intros byKindAndId;
    cbn [foldl].
  - rewrite decide_False; [done|]. intros [_ ?%elem_of_nil]. done.
  - rewrite IH, indexId_lookup. clear IH.
    repeat case_decide; rewrite ?setAdd_idem; try done; set_solver.
Qed.

Lemma indexFeature_kindOf (ks ids : list string) (f : Feature)
    (ix : KindIndex * KindIdIndex) (k : string) :
  kindOf (indexFeature ks ids f ix) k =
  if decide (k ∈ ks) then setAdd f (kindOf ix k) else kindOf ix k.
Proof.
  unfold indexFeature. revert ix.
  induction ks as [|kind ks IH]; intros [byKind byKindAndId]; cbn [foldl].
  - rewrite decide_False; [done|]. by intros ?%elem_of_nil.
  - rewrite IH. clear IH.
    assert (∀ X, kindOf (indexKind f kind byKind, X) k =
                 if decide (k = kind)
                 then setAdd f (kindOf (byKind, byKindAndId) k)
                 else kindOf (byKind, byKindAndId) k) as ->.
    { intros X. unfold kindOf. simpl. apply indexKind_lookup. }
    repeat case_decide; rewrite ?setAdd_idem; try done; set_solver.
Qed.

Lemma indexFeature_idOf (ks ids : list string) (f : Feature)
    (ix : KindIndex * KindIdIndex) (k i : string) :
  idOf (indexFeature ks ids f ix) k i =
  if decide (k ∈ ks ∧ i ∈ ids) then setAdd f (idOf ix k i) else idOf ix k i.
Proof.
  unfold indexFeature. revert ix.
  induction ks as [|kind ks IH]; intros [byKind byKindAndId]; cbn [foldl].
  - rewrite decide_False; [done|]. by intros [?%elem_of_nil _].
  - rewrite IH. clear IH.
    assert (∀ X, idOf (X, foldl (λ acc id, indexId f kind id acc)
                            byKindAndId ids) k i =
                 if decide (k = kind ∧ i ∈ ids)
                 then setAdd f (idOf (byKind, byKindAndId) k i)
                 else idOf (byKind, byKindAndId) k i) as ->.
    { intros X. unfold idOf. simpl. apply indexIds_lookup. }
    repeat case_decide; rewrite ?setAdd_idem; try done; set_solver.
Qed.

Lemma indexAll_kindOf (s : Store) (fs : list Feature)
    (ix : KindIndex * KindIdIndex) (k : string) :
  kindOf (indexAll s fs ix) k =
  setAddAll (kindOf ix k) (filter (λ f, k ∈ kinds s f) fs).
Proof.
  unfold indexAll. revert ix. induction fs as [|f fs IH]; intros ix; simpl;
    [done|].
  rewrite IH, indexFeature_kindOf, filter_cons.
  by destruct (decide (k ∈ kinds s f)).
Qed.

Lemma indexAll_idOf (s : Store) (fs : list Feature)
    (ix : KindIndex * KindIdIndex) (k i : string) :
  idOf (indexAll s fs ix) k i =
  setAddAll (idOf ix k i)
    (filter (λ f, k ∈ kinds s f ∧ i ∈ identifiers s f) fs).
Proof.
  unfold indexAll. revert ix. induction fs as [|f fs IH]; intros ix; simpl;
    [done|].
  rewrite IH, indexFeature_idOf, filter_cons.
  by destruct (decide (k ∈ kinds s f ∧ i ∈ identifiers s f)).
Qed.

(** *** Stores with the same document graph *)

(** What the traversals read of a document. *)
Definition graphOf (doc : Document)
  : string * bool * string * list Feature :=
  (url doc, isInline doc, doc_type doc, _localFeatures doc).

Definition sameGraph (s s' : Store) : Prop :=
  ∀ d, graphOf <$> s' !! d = graphOf <$> s !! d.

Lemma sameGraph_insert (s : Store) (d : DocId) (doc doc' : Document) :
  s !! d = Some doc → graphOf doc' = graphOf doc →
  sameGraph s (<[d := doc']> s).
Proof.
  intros Hd Hg d'. destruct (decide (d' = d)) as [->|Hne].
  - by rewrite lookup_insert_eq, Hd; simpl; rewrite Hg.
  - by rewrite lookup_insert_ne.
Qed.

Lemma sameGraph_kinds (s s' : Store) (f : Feature) :
  sameGraph s s' → kinds s' f = kinds s f.
Proof.
  intros H. destruct f as [d| |]; simpl; try done.
  specialize (H d). destruct (s' !! d) as [x'|], (s !! d) as [x|];
    simpl in H; try done.
  unfold documentKinds, graphOf in *. simpl. congruence.
Qed.

Lemma sameGraph_identifiers (s s' : Store) (f : Feature) :
  sameGraph s s' → identifiers s' f = identifiers s f.
Proof.
  intros H. destruct f as [d| |]; simpl; try done.
  specialize (H d). destruct (s' !! d) as [x'|], (s !! d) as [x|];
    simpl in H; try done.
  unfold documentIdentifiers, graphOf in *. simpl.
  injection H as H1 H2 H3 H4. by rewrite H1, H2.
Qed.

Lemma sameGraph_size (s s' : Store) : sameGraph s s' → size s' = size s.
Proof.
  intros H. rewrite <- !size_dom. f_equal. apply set_eq. intros d.
  rewrite !elem_of_dom. specialize (H d).
  destruct (s' !! d), (s !! d); simpl in H; try done;
    split; intros [??]; by eauto.
Qed.

Lemma forEach_ext {A St} (body body' : St → A → Outcome St) (xs : list A)
    (st : St) :
  (∀ st x, body st x = body' st x) →
  forEach body xs st = forEach body' xs st.
Proof.
  intros H. revert st. induction xs as [|x xs IH]; intros st; simpl; [done|].
  rewrite H. destruct (body' st x); auto.
Qed.

Lemma sameGraph__getFeatures (fuel : nat) (s s' : Store) (d : DocId)
    (deep : bool) (acc : list Feature * gset DocId) :
  sameGraph s s' →
  _getFeatures fuel s' d deep acc = _getFeatures fuel s d deep acc.
Proof.
  intros H. revert d acc. induction fuel as [|fuel IH]; intros d acc; [done|].
  simpl. pose proof (H d) as Hd.
  destruct (s' !! d) as [x'|], (s !! d) as [x|]; simpl in Hd; try done.
  destruct (decide (d ∈ acc.2)); [done|].
  assert (_localFeatures x' = _localFeatures x) as ->.
  { unfold graphOf in Hd. congruence. }
  apply forEach_ext. intros acc1 f.
  rewrite !(sameGraph_kinds s s' f H).
  destruct deep; [|done].
  destruct (has "document" (kinds s f)); [|by destruct (has "import" _);
    [destruct (importDocument f); [apply IH|done]|done]].
  destruct (asDocument f) as [d'|]; [|done]. rewrite IH.
  destruct (_getFeatures fuel s d' true _); try done.
  destruct (has "import" (kinds s f)); [|done].
  destruct (importDocument f); [apply IH|done].
Qed.

Lemma sameGraph_getFeatures (s s' : Store) (d : DocId) (deep : option bool) :
  sameGraph s s' → getFeatures s' d deep = getFeatures s d deep.
Proof.
  intros H. unfold getFeatures.
  by rewrite (sameGraph_size _ _ H), (sameGraph__getFeatures _ _ _ _ _ _ H).
Qed.

(** [_buildIndexes] on a resolved document without indexes: the indexes
    hold, per kind and per kind and identifier, the features of the deep
    traversal, in traversal order. *)
Lemma _buildIndexes_spec (s : Store) (d : DocId) (doc : Document)
    (fs : list Feature) :
  s !! d = Some doc → _featuresByKind doc = None →
  _doneResolving doc = true → getFeatures s d None = Return fs →
  ∃ byKind byKindAndId,
    _buildIndexes s d =
      SReturn () (<[d := with_indexes (Some byKind) (Some byKindAndId) doc]> s) ∧
    (∀ k, default [] (byKind !! k) = filter (λ f, k ∈ kinds s f) fs) ∧
    (∀ k i, lookupById byKindAndId k i =
            filter (λ f, k ∈ kinds s f ∧ i ∈ identifiers s f) fs).
Proof.
  intros Hd Hix Hdone Hfs. unfold _buildIndexes. rewrite Hd, Hix, Hdone. simpl.
  set (s1 := <[d := with_indexes (Some ∅) (Some ∅) doc]> s).
  assert (sameGraph s s1) as Hg by by apply (sameGraph_insert s d doc).
  rewrite (sameGraph_getFeatures _ _ _ _ Hg), Hfs.
  destruct (indexAll s1 fs (∅, ∅)) as [byKind byKindAndId] eqn:Hall.
  exists byKind, byKindAndId. split_and!.
  - unfold s1. by rewrite insert_insert_eq.
  - intros k. pose proof (indexAll_kindOf s1 fs (∅, ∅) k) as Hk.
    rewrite Hall in Hk. unfold kindOf in Hk. simpl in Hk. rewrite Hk.
    rewrite lookup_empty. simpl.
    rewrite (setAddAll_NoDup []);
      [|by apply NoDup_filter, (getFeatures_NoDup s d None)].
    simpl. apply list_filter_iff. intros f. by rewrite (sameGraph_kinds s s1).
  - intros k i. pose proof (indexAll_idOf s1 fs (∅, ∅) k i) as Hk.
    rewrite Hall in Hk. unfold idOf in Hk. simpl in Hk. rewrite Hk.
    unfold lookupById at 1. rewrite lookup_empty. simpl.
    rewrite (setAddAll_NoDup []);
      [|by apply NoDup_filter, (getFeatures_NoDup s d None)].
    simpl. apply list_filter_iff. intros f.
    by rewrite (sameGraph_kinds s s1), (sameGraph_identifiers s s1).
Qed.

(** *** The life cycle of the indexes *)

(** The indexes of a document exist together, and only once the document
    is resolved. *)
Definition indexOk (doc : Document) : Prop :=
  match _featuresByKind doc, _featuresByKindAndId doc with
  | None, None => True
  | Some _, Some _ => _doneResolving doc = true
  | _, _ => False
  end.

#[global] Instance indexOk_dec (doc : Document) : Decision (indexOk doc).
Proof.
  unfold indexOk.
  destruct (_featuresByKind doc), (_featuresByKindAndId doc); apply _.
Defined.

Definition IndexInv (s : Store) : Prop :=
  map_Forall (λ _ doc, indexOk doc) s.

(** Indexes that exist in [s] are the same in [s']. *)
Definition Frozen (s s' : Store) : Prop :=
  ∀ d doc, s !! d = Some doc → is_Some (_featuresByKind doc) →
    ∃ doc', s' !! d = Some doc' ∧
      _featuresByKind doc' = _featuresByKind doc ∧
      _featuresByKindAndId doc' = _featuresByKindAndId doc.

(** The writes the methods of [Document] make to a store. *)
Inductive step (s : Store) : Store → Prop :=
| step_begin d doc :
    s !! d = Some doc →
    step s (<[d := with_begunResolving true doc]> s)
| step_add d doc l f :
    s !! d = Some doc → _doneResolving doc = false →
    step s (<[d := with_localFeatures l (_indexFeature s doc f)]> s)
| step_done d doc :
    s !! d = Some doc →
    step s (<[d := with_doneResolving true doc]> s)
| step_index d doc byKind byKindAndId :
    s !! d = Some doc → _doneResolving doc = true →
    _featuresByKind doc = None →
    step s (<[d := with_indexes (Some byKind) (Some byKindAndId) doc]> s).

Lemma Frozen_refl (s : Store) : Frozen s s.
Proof. intros d doc ??. by exists doc. Qed.

Lemma Frozen_trans (s1 s2 s3 : Store) :
  Frozen s1 s2 → Frozen s2 s3 → Frozen s1 s3.
Proof.
  intros H12 H23 d doc Hd Hix.
  destruct (H12 d doc Hd Hix) as (doc2 & Hd2 & E1 & E2).
  destruct (H23 d doc2 Hd2) as (doc3 & Hd3 & E3 & E4); [by rewrite E1|].
  exists doc3. split_and!; congruence.
Qed.

Lemma step_IndexInv (s s' : Store) :
  IndexInv s → step s s' → IndexInv s' ∧ Frozen s s'.
Proof.
  intros Hinv Hstep.
  assert (∀ d doc doc',
            s !! d = Some doc → indexOk doc' →
            (is_Some (_featuresByKind doc) →
             _featuresByKind doc' = _featuresByKind doc ∧
             _featuresByKindAndId doc' = _featuresByKindAndId doc) →
            IndexInv (<[d := doc']> s) ∧ Frozen s (<[d := doc']> s)) as Hupd.
  { intros d doc doc' Hd Hi Hf. split.
    - intros d' x. destruct (decide (d' = d)) as [->|Hne].
      + rewrite lookup_insert_eq. by intros [= <-].
      + rewrite lookup_insert_ne by done. apply Hinv.
    - intros d' x Hx Hix. destruct (decide (d' = d)) as [->|Hne].
      + rewrite lookup_insert_eq. exists doc'. split; [done|].
        assert (x = doc) as -> by congruence. by apply Hf.
      + rewrite lookup_insert_ne by done. by exists x. }
  destruct Hstep as [d doc Hd|d doc l f Hd Hdone|d doc Hd|d doc a b Hd Hdone Hix];
    pose proof (Hinv d doc Hd) as Hi; apply (Hupd d doc); try done;
    unfold indexOk in *; simpl; clear Hupd.
  - unfold _indexFeature.
    destruct (_featuresByKind doc) eqn:E1, (_featuresByKindAndId doc) eqn:E2;
      simpl; rewrite ?E1, ?E2; try done; congruence.
  - unfold _indexFeature.
    destruct (_featuresByKind doc) eqn:E1, (_featuresByKindAndId doc) eqn:E2;
      simpl; rewrite ?E1, ?E2; try done; congruence.
  - by destruct (_featuresByKind doc), (_featuresByKindAndId doc).
  - rewrite Hix. by intros [??].
Qed.

Lemma steps_IndexInv (s s' : Store) :
  IndexInv s → rtc step s s' → IndexInv s' ∧ Frozen s s'.
Proof.
  intros Hinv Hsteps. induction Hsteps as [s|s1 s2 s3 H12 H23 IH].
  - split; [done|apply Frozen_refl].
  - destruct (step_IndexInv _ _ Hinv H12) as [Hinv2 HF2].
    destruct (IH Hinv2) as [Hinv3 HF3]. split; [done|].
    by eapply Frozen_trans.
Qed.

(** The store a method leaves behind. *)
Definition storeAfter {A} (s : Store) (o : SOutcome A) : Store :=
  match o with
  | SReturn _ s' | SRaise _ s' => s'
  | SDiverge => s
  end.

Definition reaches {A} (s : Store) (o : SOutcome A) : Prop :=
  rtc step s (storeAfter s o).

Lemma reaches_sbind {A B} (s : Store) (r : SOutcome A)
    (k : A → Store → SOutcome B) :
  reaches s r → (∀ a s1, r = SReturn a s1 → reaches s1 (k a s1)) →
  reaches s (sbind r k).
Proof.
  unfold reaches. destruct r as [a s1|e s1|]; simpl; intros Hr Hk; try done.
  specialize (Hk a s1 eq_refl).
  destruct (k a s1) as [b s2|e s2|]; simpl in *; try done.
  - by etrans.
  - by etrans.
Qed.

Lemma reaches__addFeature (s : Store) (d : DocId) (f : Feature) :
  reaches s (_addFeature s d f).
Proof.
  unfold reaches, _addFeature. destruct (s !! d) as [doc|] eqn:Hd; [|done].
  destruct (_doneResolving doc) eqn:Hdone; simpl; [done|].
  apply rtc_once. by apply step_add.
Qed.

Lemma reaches__buildIndexes (s : Store) (d : DocId) :
  reaches s (_buildIndexes s d).
Proof.
  unfold reaches, _buildIndexes. destruct (s !! d) as [doc|] eqn:Hd; [|done].
  case_bool_decide as Hix; [done|].
  destruct (_doneResolving doc) eqn:Hdone; simpl; [|done].
  assert (_featuresByKind doc = None) as Hnone.
  { destruct (_featuresByKind doc); [|done]. destruct Hix. by eexists. }
  destruct (getFeatures _ d None) as [fs| |]; simpl; try done.
  - destruct (indexAll _ fs (∅, ∅)) as [byKind byKindAndId]. simpl.
    rewrite insert_insert_eq. apply rtc_once. by apply step_index.
  - apply rtc_once. by apply step_index.
Qed.

Lemma reaches_via {A} (s s1 : Store) (o : SOutcome A) :
  rtc step s s1 → reaches s1 o → reaches s o.
Proof.
  unfold reaches. destruct o; simpl; intros H1 H2; try by etrans.
  apply rtc_refl.
Qed.

Lemma reaches_lift {A} (s : Store) (o : Outcome A) : reaches s (lift s o).
Proof. destruct o; apply rtc_refl. Qed.

Lemma reaches_getByKind_rec (again : nat) (s : Store) (d : DocId)
    (kind : string) :
  reaches s (getByKind_rec again s d kind).
Proof.
  revert s. induction again as [|again IH]; intros s; cbn [getByKind_rec];
    (destruct (s !! d) as [doc|] eqn:Hd; [|by apply rtc_refl]);
    (destruct (_featuresByKind doc); [by apply rtc_refl|]);
    (destruct (_doneResolving doc); [|apply reaches_lift]);
    (apply reaches_sbind; [apply reaches__buildIndexes|]);
    intros _ s1 _; [apply rtc_refl|apply IH].
Qed.

Lemma reaches_getById_rec (again : nat) (s : Store) (d : DocId)
    (kind identifier : string) :
  reaches s (getById_rec again s d kind identifier).
Proof.
  revert s. induction again as [|again IH]; intros s; cbn [getById_rec];
    (destruct (s !! d) as [doc|] eqn:Hd; [|by apply rtc_refl]);
    (destruct (_featuresByKindAndId doc); [by apply rtc_refl|]);
    (destruct (_doneResolving doc);
       [|apply reaches_sbind;
           [apply reaches_getByKind_rec|intros; apply rtc_refl]]);
    (apply reaches_sbind; [apply reaches__buildIndexes|]);
    intros _ s1 _; [apply rtc_refl|apply IH].
Qed.

Lemma reaches_getOnlyAtId (s : Store) (d : DocId) (kind identifier : string) :
  reaches s (getOnlyAtId s d kind identifier).
Proof.
  apply reaches_sbind; [apply reaches_getById_rec|].
  intros rs s1 _. destruct (1 <? length rs); apply rtc_refl.
Qed.

(** *** Queries *)

Lemma getByKind_rec_indexed (again : nat) (s : Store) (d : DocId)
    (doc : Document) (byKind : KindIndex) (k : string) :
  s !! d = Some doc → _featuresByKind doc = Some byKind →
  getByKind_rec again s d k = SReturn (default [] (byKind !! k)) s.
Proof. intros Hd Hix. destruct again; cbn [getByKind_rec]; by rewrite Hd, Hix. Qed.

Lemma getById_rec_indexed (again : nat) (s : Store) (d : DocId)
    (doc : Document) (byKindAndId : KindIdIndex) (k i : string) :
  s !! d = Some doc → _featuresByKindAndId doc = Some byKindAndId →
  getById_rec again s d k i = SReturn (lookupById byKindAndId k i) s.
Proof. intros Hd Hix. destruct again; cbn [getById_rec]; by rewrite Hd, Hix. Qed.

(** When [_buildIndexes] returns, the document was resolved and without
    indexes, and now has both. *)
Lemma _buildIndexes_Return (s s' : Store) (d : DocId) :
  _buildIndexes s d = SReturn () s' →
  ∃ doc byKind byKindAndId,
    s !! d = Some doc ∧ _doneResolving doc = true ∧
    _featuresByKind doc = None ∧
    s' = <[d := with_indexes (Some byKind) (Some byKindAndId) doc]> s.
Proof.
  unfold _buildIndexes. destruct (s !! d) as [doc|] eqn:Hd; [|done].
  case_bool_decide as Hix; [done|].
  destruct (_doneResolving doc) eqn:Hdone; simpl; [|done].
  destruct (getFeatures _ d None) as [fs| |]; try done.
  destruct (indexAll _ fs (∅, ∅)) as [byKind byKindAndId]. intros [= <-].
  exists doc, byKind, byKindAndId. rewrite insert_insert_eq.
  split_and!; try done.
  destruct (_featuresByKind doc); [|done]. destruct Hix. by eexists.
Qed.

Lemma _buildIndexes_total (s : Store) (d : DocId) : _buildIndexes s d ≠ SDiverge.
Proof.
  unfold _buildIndexes. destruct (s !! d) as [doc|]; [|done].
  case_bool_decide; [done|]. destruct (_doneResolving doc); simpl; [|done].
  pose proof (getFeatures_total
                (<[d:=with_indexes (Some ∅) (Some ∅) doc]> s) d None) as Ht.
  destruct (getFeatures _ d None) as [fs| |]; try done.
  by destruct (indexAll _ fs (∅, ∅)).
Qed.

Lemma getByKind_total (s : Store) (d : DocId) (k : string) :
  getByKind s d k ≠ SDiverge.
Proof.
  unfold getByKind. cbn [getByKind_rec].
  destruct (s !! d) as [doc|] eqn:Hd; [|done].
  destruct (_featuresByKind doc); [done|].
  destruct (_doneResolving doc).
  - pose proof (_buildIndexes_total s d) as Ht.
    destruct (_buildIndexes s d) as [[] s'| |] eqn:Hb; try done. simpl.
    apply _buildIndexes_Return in Hb as (x & a & b & ? & ? & ? & ->).
    by rewrite lookup_insert_eq.
  - pose proof (_getByKind_returns (S (size s)) s d k ∅) as Hr.
    destruct (_getByKind (S (size s)) s d k ∅); try done.
    exfalso. apply Hr; [set_solver|].
    rewrite difference_empty_L, size_dom. lia.
Qed.

Lemma getById_total (s : Store) (d : DocId) (k i : string) :
  getById s d k i ≠ SDiverge.
Proof.
  unfold getById. cbn [getById_rec].
  destruct (s !! d) as [doc|] eqn:Hd; [|done].
  destruct (_featuresByKindAndId doc); [done|].
  destruct (_doneResolving doc).
  - pose proof (_buildIndexes_total s d) as Ht.
    destruct (_buildIndexes s d) as [[] s'| |] eqn:Hb; try done. simpl.
    apply _buildIndexes_Return in Hb as (x & a & b & ? & ? & ? & ->).
    by rewrite lookup_insert_eq.
  - pose proof (getByKind_total s d k) as Ht.
    by destruct (getByKind s d k).
Qed.

(** On a resolved document [getByKind] answers from the index, which it
    builds if need be. *)
Lemma getByKind_done (s s' : Store) (d : DocId) (doc : Document) (k : string)
    (r : list Feature) :
  s !! d = Some doc → _doneResolving doc = true →
  getByKind s d k = SReturn r s' →
  ∃ doc' byKind, s' !! d = Some doc' ∧ _featuresByKind doc' = Some byKind ∧
                 r = default [] (byKind !! k).
Proof.
  intros Hd Hdone. unfold getByKind. cbn [getByKind_rec]. rewrite Hd, Hdone.
  destruct (_featuresByKind doc) as [byKind|] eqn:Hix.
  - intros [= <- <-]. by exists doc, byKind.
  - destruct (_buildIndexes s d) as [[] s1| |] eqn:Hb; try done. simpl.
    apply _buildIndexes_Return in Hb as (x & a & b & ? & ? & ? & ->).
    rewrite lookup_insert_eq. simpl. intros [= <- <-].
    eexists _, a. by rewrite lookup_insert_eq.
Qed.

Section Calls.

Variable analyzer : gmap string DocId.

Lemma reaches_resolveLoop (rec : Store → DocId → SOutcome unit) (d : DocId)
    (i : nat) (scanned : list ScannedFeature) (s : Store) :
  (∀ s d, reaches s (rec s d)) →
  reaches s (resolveLoop analyzer rec d i scanned s).
Proof.
  intros Hrec. revert i s. induction scanned as [|sf rest IH]; intros i s;
    simpl; [apply rtc_refl|].
  destruct (isResolvable sf); [|apply IH].
  apply reaches_sbind.
  - destruct sf as [type url|resolved|]; simpl; try apply rtc_refl.
    apply reaches_sbind; [|intros; apply rtc_refl].
    unfold _getDocument. destruct (analyzer !! url) as [t|]; [|apply rtc_refl].
    destruct (s !! t) as [target|]; [|apply rtc_refl].
    destruct (_doneResolving target); [apply rtc_refl|].
    apply reaches_sbind; [apply Hrec|intros; apply rtc_refl].
  - intros [f|] s1 _; [|apply IH].
    apply reaches_sbind; [apply reaches__addFeature|]. intros; apply IH.
Qed.

Lemma reaches_resolve (fuel : nat) (s : Store) (d : DocId) :
  reaches s (resolve analyzer fuel s d).
Proof.
  revert s d. induction fuel as [|fuel IH]; intros s d; simpl;
    [apply rtc_refl|].
  destruct (s !! d) as [doc|] eqn:Hd; [|apply rtc_refl].
  destruct (_doneResolving doc); [apply rtc_refl|].
  destruct (_begunResolving doc); [apply rtc_refl|].
  eapply reaches_via; [apply rtc_once; by apply (step_begin s d doc)|].
  apply reaches_sbind; [apply reaches__addFeature|].
  intros _ s2 _. apply reaches_sbind; [by apply reaches_resolveLoop|].
  intros _ s3 _. destruct (s3 !! d) as [doc3|] eqn:Hd3; [|apply rtc_refl].
  apply rtc_once. by apply step_done.
Qed.

(** The calls a client can make on the documents of an analysis. *)
Inductive Call :=
| CallResolve (d : DocId)
| CallAddFeature (d : DocId) (f : Feature)
| CallGetByKind (d : DocId) (kind : string)
| CallGetById (d : DocId) (kind identifier : string)
| CallGetOnlyAtId (d : DocId) (kind identifier : string)
| CallGetFeatures (d : DocId) (deep : option bool)
| CallBuildIndexes (d : DocId).

(** The store after a call, whether it returned or threw. *)
Definition runCall (s : Store) (c : Call) : Store :=
  match c with
  | CallResolve d =>
      storeAfter s (resolve analyzer (S (size (unbegunSet s))) s d)
  | CallAddFeature d f => storeAfter s (_addFeature s d f)
  | CallGetByKind d kind => storeAfter s (getByKind s d kind)
  | CallGetById d kind identifier => storeAfter s (getById s d kind identifier)
  | CallGetOnlyAtId d kind identifier =>
      storeAfter s (getOnlyAtId s d kind identifier)
  | CallGetFeatures d deep => s
  | CallBuildIndexes d => storeAfter s (_buildIndexes s d)
  end.

Definition runCalls (s : Store) (cs : list Call) : Store := foldl runCall s cs.

Lemma runCall_steps (s : Store) (c : Call) : rtc step s (runCall s c).
Proof.
  destruct c; unfold runCall.
  - apply reaches_resolve.
  - apply reaches__addFeature.
  - apply reaches_getByKind_rec.
  - apply reaches_getById_rec.
  - apply reaches_getOnlyAtId.
  - apply rtc_refl.
  - apply reaches__buildIndexes.
Qed.

Lemma runCalls_steps (s : Store) (cs : list Call) : rtc step s (runCalls s cs).
Proof.
  unfold runCalls. revert s. induction cs as [|c cs IH]; intros s; simpl.
  - apply rtc_refl.
  - etrans; [apply runCall_steps|apply IH].
Qed.

Lemma runCalls_IndexInv (s : Store) (cs : list Call) :
  IndexInv s → IndexInv (runCalls s cs) ∧ Frozen s (runCalls s cs).
Proof. intros H. apply steps_IndexInv; [done|apply runCalls_steps]. Qed.

(** C4: the indexes of a document are built only after it has finished
    resolving -- building them earlier throws -- and are built at most
    once -- building them again throws, and no call on any document
    changes an index that exists; so on a resolved document [getByKind]
    returns, and repeated calls, whatever is called in between, return
    the same set of features. *)
Theorem indexes_built_once_after_resolving :
  (∀ s d doc,
      s !! d = Some doc → _featuresByKind doc = None →
      _doneResolving doc = false →
      _buildIndexes s d =
        SRaise ("Tried to build indexes before finished resolving. " +:+
                "Need to wait until afterwards or the indexes would be " +:+
                "incomplete.") s) ∧
  (∀ s d doc,
      s !! d = Some doc → is_Some (_featuresByKind doc) →
      _buildIndexes s d =
        SRaise ("Tried to build indexes multiple times. " +:+
                "This should never happen.") s) ∧
  (∀ s,
      map_Forall (λ _ doc, _featuresByKind doc = None ∧
                           _featuresByKindAndId doc = None) s →
      IndexInv s) ∧
  (∀ s cs,
      IndexInv s → IndexInv (runCalls s cs) ∧ Frozen s (runCalls s cs)) ∧
  (∀ s d doc k,
      IndexInv s → s !! d = Some doc → _doneResolving doc = true →
      getByKind s d k ≠ SDiverge ∧
      ∀ r s', getByKind s d k = SReturn r s' →
        ∀ cs, getByKind (runCalls s' cs) d k = SReturn r (runCalls s' cs)).
Proof.
  split_and!.
  - intros s d doc Hd Hix Hdone. unfold _buildIndexes.
    by rewrite Hd, Hix, Hdone.
  - intros s d doc Hd Hix. unfold _buildIndexes. rewrite Hd.
    by rewrite bool_decide_true.
  - intros s Hs d doc Hd. destruct (Hs d doc Hd) as [H1 H2].
    unfold indexOk. by rewrite H1, H2.
  - apply runCalls_IndexInv.
  - intros s d doc k Hinv Hd Hdone. split; [apply getByKind_total|].
    intros r s' Hr cs.
    destruct (getByKind_done s s' d doc k r Hd Hdone Hr)
      as (doc' & byKind & Hd' & Hix' & ->).
    assert (IndexInv s') as Hinv'.
    { pose proof (reaches_getByKind_rec 1 s d k) as Hreach.
      unfold reaches in Hreach. fold (getByKind s d k) in Hreach.
      rewrite Hr in Hreach. by apply (steps_IndexInv s s'). }
    destruct (runCalls_IndexInv s' cs Hinv') as [_ HF].
    destruct (HF d doc' Hd') as (doc'' & Hd'' & E1 & E2); [by rewrite Hix'|].
    apply (getByKind_rec_indexed 1 _ d doc''); [done|congruence].
Qed.

End Calls.

(** C10: [getOnlyAtId] returns [undefined] when [getById] finds no
    feature, the feature when it finds exactly one, and throws -- it does
    not record a warning -- when it finds more than one.  On a resolved
    document queried for the first time, what [getById] finds are the
    features of the given kind and identifier among those reachable from
    the document by the deep traversal. *)
Theorem getOnlyAtId_unique_or_throws (s : Store) (d : DocId) (k i : string) :
  match getById s d k i with
  | SReturn rs s' =>
      (rs = [] → getOnlyAtId s d k i = SReturn None s') ∧
      (∀ f, rs = [f] → getOnlyAtId s d k i = SReturn (Some f) s') ∧
      (1 < length rs →
         getOnlyAtId s d k i =
           SRaise ("Expected to find at most one " +:+ k +:+ " with id " +:+
                   i +:+ " but found " +:+ pretty (length rs) +:+ ".") s')
  | SRaise e s' => getOnlyAtId s d k i = SRaise e s'
  | SDiverge => False
  end ∧
  (∀ doc fs,
      s !! d = Some doc → _doneResolving doc = true →
      _featuresByKind doc = None → _featuresByKindAndId doc = None →
      getFeatures s d None = Return fs →
      ∃ s', getById s d k i =
              SReturn (filter (λ f, k ∈ kinds s f ∧ i ∈ identifiers s f) fs) s').
Proof.
  split.
  - pose proof (getById_total s d k i) as Ht. unfold getOnlyAtId.
    destruct (getById s d k i) as [rs s'|e s'|]; simpl; try done.
    split_and!.
    + by intros ->.
    + by intros f ->.
    + intros Hlen. by rewrite (proj2 (Nat.ltb_lt _ _) Hlen).
  - intros doc fs Hd Hdone Hix1 Hix2 Hfs.
    destruct (_buildIndexes_spec s d doc fs Hd Hix1 Hdone Hfs)
      as (byKind & byKindAndId & Hb & _ & Hid).
    eexists. unfold getById. cbn [getById_rec].
    rewrite Hd, Hix2, Hdone, Hb. simpl.
    rewrite lookup_insert_eq. simpl. by rewrite Hid.
Qed.

(** Two documents importing each other. *)
Definition cyclicAnalyzer : gmap string DocId := {[ "a" := 0; "b" := 1 ]}.

Definition cyclicStore : Store :=
  {[ 0 := new_Document "a" false "html"
            [ScannedImport "html-import" "b";
             ScannedResolvable (Some (["element"], ["x-el"]))];
     1 := new_Document "b" false "html"
            [ScannedImport "html-import" "a";
             ScannedResolvable (Some (["element"], ["x-el"]))] ]}.

Lemma Document_resolve_three_states_witness :
  ∃ s' doc',
    resolve cyclicAnalyzer 3 cyclicStore 0 = SReturn () s' ∧
    Frame cyclicStore s' ∧ s' !! 0 = Some doc' ∧
    _begunResolving doc' = true ∧ _doneResolving doc' = true ∧
    _localFeatures doc' =
      [FDocument 0; FImport (0, 0) "html-import" "b" 1;
       FOther (0, 1) ["element"] ["x-el"]].
Proof.
  destruct (proj1 (proj2 (proj2
              (Document_resolve_three_states cyclicAnalyzer cyclicStore 0
                 (new_Document "a" false "html"
                    [ScannedImport "html-import" "b";
                     ScannedResolvable (Some (["element"], ["x-el"]))])
                 eq_refl)))
              eq_refl eq_refl 3)
    as (s' & doc' & Hr & HF & Hd & _ & Hb & Hdn & _ & Hl).
  - vm_compute. lia.
  - exists s', doc'. split_and!; try done. by rewrite Hl.
Defined.

(** The cyclic pair after [resolve] on the first document. *)
Definition resolvedCyclicStore : Store :=
  runCalls cyclicAnalyzer cyclicStore [CallResolve 0].

End ModelFacts.

Module DocumentProperties.
Import Model ModelFacts.

(** *** What the deep traversal collects *)

Abbreviation Acc := (list Feature * gset DocId)%type.

(** The body of the loop of [_getFeatures] for [deep = true], over the
    recursive call. *)
Definition deepBody (s : Store) (rec : DocId → Acc → Outcome Acc)
    (acc : Acc) (feature : Feature) : Outcome Acc :=
  let acc1 := (setAdd feature acc.1, acc.2) in
  match
    (if has "document" (kinds s feature) then
       match asDocument feature with
       | Some d' => rec d' acc1
       | None => Raise typeError
       end
     else Return acc1)
  with
  | Return acc2 =>
      if has "import" (kinds s feature) then
        match importDocument feature with
        | Some t => rec t acc2
        | None => Raise typeError
        end
      else Return acc2
  | Raise e => Raise e
  | Diverge => Diverge
  end.

(** Document [d] leads to document [t]: a feature of [d] is the document
    [t], or an import of it. *)
Definition links (s : Store) (d t : DocId) : Prop :=
  ∃ doc f, s !! d = Some doc ∧ f ∈ _localFeatures doc ∧
    (("document" ∈ kinds s f ∧ asDocument f = Some t) ∨
     ("import" ∈ kinds s f ∧ importDocument f = Some t)).

(** [f] is a feature of a document that [d] leads to, in any number of
    steps. *)
Definition reachableFeature (s : Store) (d : DocId) (f : Feature) : Prop :=
  ∃ t doc, rtc (links s) d t ∧ s !! t = Some doc ∧ f ∈ _localFeatures doc.

(** Completeness.  [Closed s acc gray]: every visited document that is
    not being processed has all its features collected and all the
    documents it leads to visited. *)
Definition Closed (s : Store) (acc : Acc) (gray : gset DocId) : Prop :=
  ∀ t, t ∈ acc.2 → t ∉ gray →
    (∀ doc f, s !! t = Some doc → f ∈ _localFeatures doc → f ∈ acc.1) ∧
    (∀ t', links s t t' → t' ∈ acc.2).

Definition Grows (acc acc' : Acc) : Prop :=
  acc.1 ⊆ acc'.1 ∧ acc.2 ⊆ acc'.2.

(** The traversals throw on a feature that claims to be a document or an
    import and is not, and on an import of a document that is missing. *)
Definition wellLinkedFeature (s : Store) (f : Feature) : Prop :=
  match f with
  | FDocument _ => True
  | FImport _ type _ t => type ≠ "document" ∧ is_Some (s !! t)
  | FOther _ ks _ => "document" ∉ ks ∧ "import" ∉ ks
  end.

Definition wellLinked (s : Store) : Prop :=
  ∀ t doc f, s !! t = Some doc → f ∈ _localFeatures doc →
    wellLinkedFeature s f.

Definition subFeaturesOf (rec : DocId → gset DocId → Outcome Acc)
    (target : option DocId) (acc : Acc) : Outcome Acc :=
  match target with
  | None => Raise typeError
  | Some t =>
      if decide (t ∈ acc.2) then Return acc
      else
        match rec t acc.2 with
        | Return (sub, walked) => Return (setAddAll acc.1 sub, walked)
        | Raise e => Raise e
        | Diverge => Diverge
        end
  end.

(** The body of the loop of [_getByKind], over the recursive call. *)
Definition kindBody (s : Store) (kind : string)
    (rec : DocId → gset DocId → Outcome Acc) (acc : Acc) (feature : Feature)
  : Outcome Acc :=
  let acc1 :=
    if has kind (kinds s feature) then (setAdd feature acc.1, acc.2) else acc in
  match
    (if has "import" (kinds s feature)
     then subFeaturesOf rec (importDocument feature) acc1
     else Return acc1)
  with
  | Return acc2 =>
      if has "document" (kinds s feature)
      then subFeaturesOf rec (asDocument feature) acc2
      else Return acc2
  | Raise e => Raise e
  | Diverge => Diverge
  end.

Lemma _getFeatures_S (fuel : nat) (s : Store) (d : DocId) (acc : Acc) :
  _getFeatures (S fuel) s d true acc =
  match s !! d with
  | None => Raise typeError
  | Some doc =>
      if decide (d ∈ acc.2) then Return acc
      else forEach (deepBody s (λ d' acc', _getFeatures fuel s d' true acc'))
             (_localFeatures doc) (acc.1, {[d]} ∪ acc.2)
  end.
Proof. done. Qed.

Lemma has_true (x : string) (l : list string) : has x l = true → x ∈ l.
Proof. unfold has. by intros ?%bool_decide_eq_true. Qed.

Lemma has_false (x : string) (l : list string) : has x l = false → x ∉ l.
Proof. unfold has. by intros ?%bool_decide_eq_false. Qed.

Lemma elem_of_setAdd {A} `{EqDecision A} (x y : A) (l : list A) :
  y ∈ setAdd x l ↔ y = x ∨ y ∈ l.
Proof.
  unfold setAdd. destruct (decide (x ∈ l)).
  - split; [by right|]. by intros [->|?].
  - rewrite elem_of_app, list_elem_of_singleton. tauto.
Qed.

Lemma documentKinds_no_import (doc : Document) : "import" ∉ documentKinds doc.
Proof.
  unfold documentKinds. rewrite elem_of_setAdd, list_elem_of_singleton.
  intros [H|H]; [|done].
  apply (f_equal String.length) in H. rewrite Str.length_append in H.
  simpl in H. lia.
Qed.

(** A feature the deep traversal gets past is not both a document and an
    import. *)
Lemma asDocument_no_import (s : Store) (f : Feature) (d' : DocId) :
  asDocument f = Some d' → has "import" (kinds s f) = false.
Proof.
  destruct f as [d0| |]; try done. intros _. simpl.
  apply bool_decide_eq_false. destruct (s !! d0) as [doc|]; simpl.
  - apply documentKinds_no_import.
  - by intros ?%elem_of_nil.
Qed.

Lemma forEach_cons_Return {A St} (body : St → A → Outcome St) (x : A)
    (xs : list A) (st st'' : St) :
  forEach body (x :: xs) st = Return st'' →
  ∃ st', body st x = Return st' ∧ forEach body xs st' = Return st''.
Proof. simpl. destruct (body st x) as [st'| |]; [eauto|done|done]. Qed.

(** What one iteration does, when it returns. *)
Lemma deepBody_Return (s : Store) (rec : DocId → Acc → Outcome Acc)
    (acc acc' : Acc) (f : Feature) :
  deepBody s rec acc f = Return acc' →
  ∃ acc2,
    (if has "document" (kinds s f)
     then ∃ d', asDocument f = Some d' ∧
                rec d' (setAdd f acc.1, acc.2) = Return acc2
     else acc2 = (setAdd f acc.1, acc.2)) ∧
    (if has "import" (kinds s f)
     then ∃ t, importDocument f = Some t ∧ rec t acc2 = Return acc'
     else acc' = acc2).
Proof.
  unfold deepBody.
  destruct (has "document" (kinds s f)).
  - destruct (asDocument f) as [d'|]; [|done].
    destruct (rec d' _) as [acc2| |] eqn:E1; try done.
    destruct (has "import" (kinds s f)).
    + destruct (importDocument f) as [t|]; [|done]. intros E2.
      exists acc2. split; eauto.
    + intros [= <-]. exists acc2. split; eauto.
  - destruct (has "import" (kinds s f)).
    + destruct (importDocument f) as [t|]; [|done]. intros E2.
      eexists. split; eauto.
    + intros [= <-]. eexists. split; eauto.
Qed.

(** Soundness: what is collected was there or is reachable. *)
Lemma _getFeatures_sound (fuel : nat) (s : Store) (d : DocId) (acc acc' : Acc) :
  _getFeatures fuel s d true acc = Return acc' →
  ∀ f, f ∈ acc'.1 → f ∈ acc.1 ∨ reachableFeature s d f.
Proof.
  revert d acc acc'. induction fuel as [|fuel IH]; intros d acc acc'; [done|].
  rewrite _getFeatures_S. destruct (s !! d) as [doc|] eqn:Hd; [|done].
  destruct (decide (d ∈ acc.2)); [intros [= <-]; auto|].
  assert (∀ xs st, xs ⊆ _localFeatures doc →
            forEach (deepBody s (λ d' acc', _getFeatures fuel s d' true acc'))
              xs st = Return acc' →
            ∀ f, f ∈ acc'.1 → f ∈ st.1 ∨ reachableFeature s d f) as Hloop.
  { induction xs as [|x xs IHxs]; intros st Hxs.
    - intros [= <-]. auto.
    - intros (st' & Hbody & Hrest)%forEach_cons_Return f Hf.
      assert (x ∈ _localFeatures doc) as Hx by set_solver.
      destruct (IHxs st' ltac:(set_solver) Hrest f Hf) as [Hin|?]; [|by right].
      apply deepBody_Return in Hbody as (acc2 & H1 & H2).
      assert (∀ t acc0 acc1, links s d t →
                _getFeatures fuel s t true acc0 = Return acc1 →
                ∀ g, g ∈ acc1.1 → g ∈ acc0.1 ∨ reachableFeature s d g) as Hrec.
      { intros t acc0 acc1 Hl Hr g Hg.
        destruct (IH _ _ _ Hr g Hg) as [?|(t' & doc' & ? & ? & ?)]; [by left|].
        right. exists t', doc'. split_and!; try done. by eapply rtc_l. }
      assert (∀ g, g ∈ acc2.1 → g ∈ st.1 ∨ reachableFeature s d g) as Hacc2.
      { intros g Hg. destruct (has "document" (kinds s x)) eqn:HD.
        - destruct H1 as (d' & Hd' & Hr).
          destruct (Hrec d' _ _ ltac:(exists doc, x; split_and!; try done;
                                      left; split; [by apply has_true|done])
                      Hr g Hg) as [Hg'|?]; [|by right].
          simpl in Hg'. apply elem_of_setAdd in Hg' as [->|?]; [|by left].
          right. exists d, doc. split_and!; done.
        - subst acc2. simpl in Hg. apply elem_of_setAdd in Hg as [->|?]; [|by left].
          right. exists d, doc. split_and!; done. }
      destruct (has "import" (kinds s x)) eqn:HI.
      + destruct H2 as (t & Ht & Hr).
        destruct (Hrec t _ _ ltac:(exists doc, x; split_and!; try done;
                                   right; split; [by apply has_true|done])
                    Hr f Hin) as [?|?]; [|by right].
        by apply Hacc2.
      + subst st'. by apply Hacc2. }
  intros Hr f Hf. destruct (Hloop _ _ ltac:(done) Hr f Hf); auto.
Qed.

Lemma Grows_refl (acc : Acc) : Grows acc acc.
Proof. by split. Qed.

Lemma Grows_trans (a b c : Acc) : Grows a b → Grows b c → Grows a c.
Proof. intros [??] [??]. split; set_solver. Qed.

Lemma _getFeatures_complete (fuel : nat) (s : Store) (d : DocId)
    (acc acc' : Acc) (gray : gset DocId) :
  _getFeatures fuel s d true acc = Return acc' →
  Closed s acc gray →
  Closed s acc' gray ∧ Grows acc acc' ∧ d ∈ acc'.2.
Proof.
  revert d acc acc' gray.
  induction fuel as [|fuel IH]; intros d acc acc' gray; [done|].
  rewrite _getFeatures_S. destruct (s !! d) as [doc|] eqn:Hd; [|done].
  destruct (decide (d ∈ acc.2)) as [Hin|Hnin].
  { intros [= <-] ?. split_and!; [done|apply Grows_refl|done]. }
  intros Hr Hclosed.
  (* the loop, over the features already processed *)
  set (Inv := λ (done : list Feature) (st : Acc),
         Closed s st ({[d]} ∪ gray) ∧ Grows (acc.1, {[d]} ∪ acc.2) st ∧
         ∀ f, f ∈ done →
           f ∈ st.1 ∧
           (∀ t, "document" ∈ kinds s f → asDocument f = Some t → t ∈ st.2) ∧
           (∀ t, "import" ∈ kinds s f → importDocument f = Some t → t ∈ st.2)).
  assert (∀ xs done st,
            forEach (deepBody s (λ d' acc', _getFeatures fuel s d' true acc'))
              xs st = Return acc' →
            Inv done st → Inv (done ++ xs) acc') as Hloop.
  { induction xs as [|x xs IHxs]; intros done st.
    - intros [= <-]. by rewrite app_nil_r.
    - intros (st' & Hbody & Hrest)%forEach_cons_Return (HC & HG & Hdone).
      replace (done ++ x :: xs) with ((done ++ [x]) ++ xs)
        by by rewrite <- app_assoc.
      apply (IHxs _ st' Hrest).
      apply deepBody_Return in Hbody as (acc2 & H1 & H2).
      assert (Closed s (setAdd x st.1, st.2) ({[d]} ∪ gray)) as HC1.
      { intros t Ht Hg. destruct (HC t Ht Hg) as [Hf Hl]. split; [|done].
        intros doc' f ??. simpl. apply elem_of_setAdd. right. by eapply Hf. }
      assert (Grows st (setAdd x st.1, st.2)) as HG1.
      { split; simpl; [|done]. intros f ?. apply elem_of_setAdd. by right. }
      assert (Closed s acc2 ({[d]} ∪ gray) ∧ Grows (setAdd x st.1, st.2) acc2 ∧
              (∀ t, "document" ∈ kinds s x → asDocument x = Some t →
                    t ∈ acc2.2)) as (HC2 & HG2 & HD2).
      { destruct (has "document" (kinds s x)) eqn:HD.
        - destruct H1 as (d' & Hd' & Hrec).
          destruct (IH _ _ _ _ Hrec HC1) as (? & ? & ?).
          split_and!; try done. intros t _ ?. by simplify_eq.
        - subst acc2. split_and!; [done|apply Grows_refl|].
          intros t Ht. by apply has_false in HD. }
      assert (Closed s st' ({[d]} ∪ gray) ∧ Grows acc2 st' ∧
              (∀ t, "import" ∈ kinds s x → importDocument x = Some t →
                    t ∈ st'.2)) as (HC3 & HG3 & HD3).
      { destruct (has "import" (kinds s x)) eqn:HI.
        - destruct H2 as (t & Ht & Hrec).
          destruct (IH _ _ _ _ Hrec HC2) as (? & ? & ?).
          split_and!; try done. intros t' _ ?. by simplify_eq.
        - subst st'. split_and!; [done|apply Grows_refl|].
          intros t Ht. by apply has_false in HI. }
      assert (Grows st st') as HG'.
      { eapply Grows_trans; [exact HG1|]. by eapply Grows_trans. }
      split_and!; [done|by eapply Grows_trans|].
      intros f [Hf| ->%list_elem_of_singleton]%elem_of_app.
      + destruct (Hdone f Hf) as (? & Hfd & Hfi). destruct HG' as [??].
        split_and!; [set_solver| |].
        * intros t ??. by eapply elem_of_weaken; [eapply Hfd|].
        * intros t ??. by eapply elem_of_weaken; [eapply Hfi|].
      + destruct HG2 as [HG2a HG2b], HG3 as [HG3a HG3b]. split_and!.
        * apply HG3a, HG2a. simpl. apply elem_of_setAdd. by left.
        * intros t ??. by eapply elem_of_weaken; [eapply HD2|].
        * done. }
  destruct (Hloop _ [] _ Hr) as (HC & [HG1 HG2] & Hall).
  { split_and!; [|apply Grows_refl|by intros f ?%elem_of_nil].
    intros t Ht Hg. simpl in Ht.
    destruct (Hclosed t ltac:(set_solver) ltac:(set_solver)) as [Hf Hl].
    split; [done|]. intros t' ?. simpl. apply elem_of_union. right. by apply Hl. }
  simpl in *. split_and!; [|split; simpl; set_solver|set_solver].
  intros t Ht Hg. destruct (decide (t = d)) as [->|Hne].
  - split.
    + intros doc' f Hd' Hf. assert (doc' = doc) as -> by congruence.
      by apply Hall.
    + intros t' (doc' & f & Hd' & Hf & Hlink).
      assert (doc' = doc) as -> by congruence.
      destruct (Hall f Hf) as (_ & HfD & HfI).
      destruct Hlink as [[??]|[??]]; eauto.
  - apply HC; [done|set_solver].
Qed.

Lemma forEach_no_Raise {A St} (body : St → A → Outcome St) (xs : list A)
    (st : St) (e : string) :
  (∀ st x, x ∈ xs → body st x ≠ Raise e) → forEach body xs st ≠ Raise e.
Proof.
  revert st. induction xs as [|x xs IH]; intros st Hbody; simpl; [done|].
  pose proof (Hbody st x ltac:(left)) as Hx.
  destruct (body st x) as [st'| |]; try done.
  apply IH. intros st'' y Hy. apply Hbody. by right.
Qed.

Lemma _getFeatures_no_Raise (fuel : nat) (s : Store) (d : DocId) (deep : bool)
    (acc : Acc) (e : string) :
  wellLinked s → is_Some (s !! d) → _getFeatures fuel s d deep acc ≠ Raise e.
Proof.
  intros Hwl. revert d acc. induction fuel as [|fuel IH]; intros d acc [doc Hd];
    [done|].
  simpl. rewrite Hd. destruct (decide (d ∈ acc.2)); [done|].
  apply forEach_no_Raise. intros st f Hf.
  pose proof (Hwl d doc f Hd Hf) as Hwf.
  destruct deep; [|done].
  destruct f as [d'|oid type url t|oid ks ids]; simpl in *.
  - destruct (s !! d') as [doc'|] eqn:Hd'; simpl.
    + pose proof (documentKinds_no_import doc') as Hni.
      unfold has. rewrite (bool_decide_false _ Hni).
      case_bool_decide; [|done].
      pose proof (IH d' (setAdd (FDocument d') st.1, st.2)
                    (mk_is_Some _ _ Hd')) as Hrec.
      by destruct (_getFeatures fuel s d' true _).
    + done.
  - destruct Hwf as [Hty [doct Ht]]. unfold has.
    rewrite bool_decide_false.
    2:{ rewrite elem_of_setAdd, list_elem_of_singleton. by intros [?|?]. }
    rewrite bool_decide_true.
    2:{ rewrite elem_of_setAdd, list_elem_of_singleton. by right. }
    apply IH. by eexists.
  - destruct Hwf as [H1 H2]. unfold has.
    by rewrite !bool_decide_false.
Qed.

Lemma getFeatures_wellLinked (s : Store) (d : DocId) :
  wellLinked s → is_Some (s !! d) → ∃ fs, getFeatures s d None = Return fs.
Proof.
  intros Hwl Hd. pose proof (getFeatures_total s d None) as Ht.
  unfold getFeatures in *. change (default true None) with true in *.
  pose proof (_getFeatures_no_Raise (S (size s)) s d true ([], ∅)) as Hnr.
  destruct (_getFeatures (S (size s)) s d true ([], ∅)) as [acc|e|];
    [by eexists| |done].
  by destruct (Hnr e Hwl Hd).
Qed.

Lemma getFeatures_reachable (s : Store) (d : DocId) (fs : list Feature) :
  getFeatures s d None = Return fs → ∀ f, f ∈ fs ↔ reachableFeature s d f.
Proof.
  intros Hfs.
  unfold getFeatures in Hfs. change (default true None) with true in Hfs.
  destruct (_getFeatures (S (size s)) s d true ([], ∅)) as [acc| |] eqn:Hr;
    try done.
  injection Hfs as <-. intros f. split.
  - intros Hf. destruct (_getFeatures_sound _ _ _ _ _ Hr f Hf) as [Hin|?];
      [|done]. by apply elem_of_nil in Hin.
  - intros (t & doc & Hreach & Ht & Hf).
    destruct (_getFeatures_complete _ _ _ _ _ ∅ Hr) as (HC & _ & Hd).
    { by intros t' ?%elem_of_empty. }
    assert (∀ a b, rtc (links s) a b → a ∈ acc.2 → b ∈ acc.2) as Hrtc.
    { induction 1 as [|a b c Hab _ IH]; [done|]. intros Ha.
      apply IH. by apply (HC a). }
    pose proof (Hrtc d t Hreach Hd) as Hvisited.
    destruct (HC t Hvisited) as [Hall _]; [set_solver|]. by eapply Hall.
Qed.

(** X5: the deep traversal of [getFeatures] ends, on cyclic imports too;
    it returns when no feature is wrongly linked; and what it returns
    are, each once, exactly the features of the documents reachable from
    the document through its document features and imports. *)
Theorem getFeatures_deep_collects_reachable (s : Store) (d : DocId) :
  getFeatures s d None ≠ Diverge ∧
  (wellLinked s → is_Some (s !! d) →
     ∃ fs, getFeatures s d None = Return fs) ∧
  ∀ fs, getFeatures s d None = Return fs →
    NoDup fs ∧ ∀ f, f ∈ fs ↔ reachableFeature s d f.
Proof.
  split; [apply getFeatures_total|]. split; [apply getFeatures_wellLinked|].
  intros fs Hfs. split; [by eapply getFeatures_NoDup|].
  by apply getFeatures_reachable.
Qed.

(** *** The slow path of [getByKind] *)

Lemma _getByKind_S (fuel : nat) (s : Store) (d : DocId) (kind : string)
    (walked : gset DocId) :
  _getByKind (S fuel) s d kind walked =
  match s !! d with
  | None => Raise typeError
  | Some doc =>
      forEach (kindBody s kind (λ t w, _getByKind fuel s t kind w))
        (_localFeatures doc) ([], {[d]} ∪ walked)
  end.
Proof. done. Qed.

Lemma elem_of_setAddAll {A} `{EqDecision A} (y : A) (l xs : list A) :
  y ∈ setAddAll l xs ↔ y ∈ l ∨ y ∈ xs.
Proof.
  unfold setAddAll. revert l. induction xs as [|x xs IH]; intros l; simpl.
  - rewrite elem_of_nil. tauto.
  - rewrite IH, elem_of_setAdd, elem_of_cons. tauto.
Qed.

Lemma NoDup_setAddAll {A} `{EqDecision A} (l xs : list A) :
  NoDup l → NoDup (setAddAll l xs).
Proof.
  unfold setAddAll. revert l. induction xs as [|x xs IH]; intros l Hl; simpl;
    [done|]. by apply IH, NoDup_setAdd.
Qed.

Lemma setAddAll_cons {A} `{EqDecision A} (l : list A) (x : A) (xs : list A) :
  setAddAll l (x :: xs) = setAddAll (setAdd x l) xs.
Proof. done. Qed.

Lemma setAddAll_snoc {A} `{EqDecision A} (l xs : list A) (x : A) :
  setAddAll l (xs ++ [x]) = setAdd x (setAddAll l xs).
Proof. unfold setAddAll. by rewrite foldl_app. Qed.

Lemma setAddAll_setAdd {A} `{EqDecision A} (x : A) (l xs : list A) :
  setAddAll l (setAdd x xs) = setAdd x (setAddAll l xs).
Proof.
  unfold setAdd at 1. destruct (decide (x ∈ xs)) as [Hin|Hnin].
  - unfold setAdd. rewrite decide_True; [done|].
    apply elem_of_setAddAll. by right.
  - apply setAddAll_snoc.
Qed.

Lemma setAddAll_assoc {A} `{EqDecision A} (l xs ys : list A) :
  setAddAll (setAddAll l xs) ys = setAddAll l (setAddAll xs ys).
Proof.
  revert xs. induction ys as [|y ys IH]; intros xs; [done|].
  by rewrite !setAddAll_cons, <- setAddAll_setAdd, IH.
Qed.

Lemma filter_setAdd {A} `{EqDecision A} (P : A → Prop) `{∀ x, Decision (P x)}
    (x : A) (l : list A) :
  filter P (setAdd x l) =
  if decide (P x) then setAdd x (filter P l) else filter P l.
Proof.
  unfold setAdd. destruct (decide (x ∈ l)) as [Hin|Hnin].
  - destruct (decide (P x)); [|done].
    rewrite decide_True; [done|]. by apply list_elem_of_filter.
  - rewrite filter_app, filter_cons, filter_nil.
    destruct (decide (P x)).
    + rewrite decide_False; [done|]. by intros [_ ?]%list_elem_of_filter.
    + by rewrite app_nil_r.
Qed.

Lemma _getFeatures_visited (fuel : nat) (s : Store) (d : DocId) (deep : bool)
    (acc acc' : Acc) :
  d ∈ acc.2 → _getFeatures fuel s d deep acc = Return acc' → acc' = acc.
Proof.
  intros Hin. destruct fuel; simpl; [done|].
  destruct (s !! d); [|done]. rewrite decide_True by done. congruence.
Qed.

Section Lockstep.

Variable s : Store.
Variable k : string.

Let K (f : Feature) : Prop := k ∈ kinds s f.

(** The two traversals in step: from the same visited set, the slow path
    of [getByKind] returns the features of the kind that the deep
    traversal adds. *)
Definition InStep (recF : DocId → Acc → Outcome Acc)
    (recK : DocId → gset DocId → Outcome Acc) : Prop :=
  ∀ t res w acc', t ∉ w → w ⊆ dom s →
    recF t (res, w) = Return acc' →
    ∃ sub, recK t w = Return (sub, acc'.2) ∧ NoDup sub ∧
           filter K acc'.1 = setAddAll (filter K res) sub ∧ acc'.2 ⊆ dom s.

Lemma call_InStep (recF : DocId → Acc → Outcome Acc)
    (recK : DocId → gset DocId → Outcome Acc) (t : DocId)
    (res : list Feature) (w : gset DocId) (acc' : Acc)
    (base local : list Feature) :
  InStep recF recK →
  (∀ acc acc', t ∈ acc.2 → recF t acc = Return acc' → acc' = acc) →
  recF t (res, w) = Return acc' → w ⊆ dom s →
  filter K res = setAddAll base local → NoDup local →
  ∃ local', subFeaturesOf recK (Some t) (local, w) = Return (local', acc'.2) ∧
    filter K acc'.1 = setAddAll base local' ∧ NoDup local' ∧ acc'.2 ⊆ dom s.
Proof.
  intros Hstep Hvisited Hr Hw Hrel Hnd. unfold subFeaturesOf. simpl.
  destruct (decide (t ∈ w)) as [Hin|Hnin].
  - rewrite (Hvisited (res, w) acc' Hin Hr). simpl. by exists local.
  - destruct (Hstep t res w acc' Hnin Hw Hr) as (sub & -> & Hsub & Hf & Hw').
    exists (setAddAll local sub). split_and!; [done| |by apply NoDup_setAddAll|done].
    by rewrite Hf, Hrel, setAddAll_assoc.
Qed.

Lemma body_InStep (recF : DocId → Acc → Outcome Acc)
    (recK : DocId → gset DocId → Outcome Acc) (f : Feature)
    (res : list Feature) (w : gset DocId) (acc' : Acc)
    (base local : list Feature) :
  InStep recF recK →
  (∀ t acc acc', t ∈ acc.2 → recF t acc = Return acc' → acc' = acc) →
  deepBody s recF (res, w) f = Return acc' → w ⊆ dom s →
  filter K res = setAddAll base local → NoDup local →
  ∃ local', kindBody s k recK (local, w) f = Return (local', acc'.2) ∧
    filter K acc'.1 = setAddAll base local' ∧ NoDup local' ∧ acc'.2 ⊆ dom s.
Proof.
  intros Hstep Hvisited Hbody Hw Hrel Hnd.
  apply deepBody_Return in Hbody as (acc2 & H1 & H2). simpl in H1.
  unfold kindBody. simpl.
  (* the feature itself *)
  set (local1 := if has k (kinds s f) then setAdd f local else local).
  assert ((if has k (kinds s f) then (setAdd f local, w) else (local, w))
          = (local1, w)) as -> by (unfold local1; by destruct (has k _)).
  assert (filter K (setAdd f res) = setAddAll base local1 ∧ NoDup local1)
    as [Hrel1 Hnd1].
  { unfold local1. rewrite filter_setAdd. unfold has, K.
    destruct (decide (k ∈ kinds s f)) as [Hk|Hk].
    - rewrite bool_decide_true by done.
      split; [by rewrite setAddAll_setAdd, <- Hrel|by apply NoDup_setAdd].
    - by rewrite bool_decide_false. }
  destruct (has "document" (kinds s f)) eqn:HD.
  - destruct H1 as (d' & Hd' & Hr1).
    rewrite (asDocument_no_import s f d' Hd') in H2 |- *. subst acc2.
    rewrite Hd'.
    exact (call_InStep recF recK d' _ w acc' base local1 Hstep
             (Hvisited d') Hr1 Hw Hrel1 Hnd1).
  - subst acc2. destruct (has "import" (kinds s f)) eqn:HI.
    + destruct H2 as (t & -> & Hr2).
      destruct (call_InStep recF recK t _ w acc' base local1 Hstep
                  (Hvisited t) Hr2 Hw Hrel1 Hnd1)
        as (local' & -> & ? & ? & ?).
      by exists local'.
    + subst acc'. by exists local1.
Qed.

Lemma _getFeatures_getByKind_InStep (fuel : nat) :
  InStep (λ t acc, _getFeatures fuel s t true acc)
         (λ t w, _getByKind fuel s t k w).
Proof.
  induction fuel as [|fuel IH]; intros d res w acc' Hnin Hw; [done|].
  rewrite _getFeatures_S, _getByKind_S. simpl.
  destruct (s !! d) as [doc|] eqn:Hd; [|done].
  rewrite decide_False by done.
  assert ({[d]} ∪ w ⊆ dom s) as Hw1.
  { apply union_least; [|done]. apply singleton_subseteq_l.
    by apply elem_of_dom. }
  assert (∀ xs res1 w1 base local,
            w1 ⊆ dom s → filter K res1 = setAddAll base local → NoDup local →
            forEach (deepBody s (λ t acc, _getFeatures fuel s t true acc))
              xs (res1, w1) = Return acc' →
            ∃ local',
              forEach (kindBody s k (λ t w, _getByKind fuel s t k w))
                xs (local, w1) = Return (local', acc'.2) ∧
              filter K acc'.1 = setAddAll base local' ∧ NoDup local' ∧
              acc'.2 ⊆ dom s) as Hloop.
  { induction xs as [|x xs IHxs]; intros res1 w1 base local Hw' Hrel Hnd.
    - intros [= <-]. simpl. by exists local.
    - intros ([res2 w2] & Hbody & Hrest)%forEach_cons_Return.
      destruct (body_InStep _ _ x res1 w1 (res2, w2) base local IH
                  (λ t, _getFeatures_visited fuel s t true)
                  Hbody Hw' Hrel Hnd) as (local2 & Hk & Hrel2 & Hnd2 & Hw2).
      simpl in *. rewrite Hk. by apply (IHxs res2 w2 base local2). }
  intros Hr.
  destruct (Hloop _ res _ (filter K res) [] Hw1 eq_refl ltac:(constructor) Hr)
    as (sub & ? & ? & ? & ?).
  by exists sub.
Qed.

Lemma getByKind_filtered (d : DocId) (doc : Document) (fs : list Feature) :
  s !! d = Some doc → _featuresByKind doc = None →
  getFeatures s d None = Return fs →
  ∃ s', getByKind s d k = SReturn (filter (λ f, k ∈ kinds s f) fs) s' ∧
        sameGraph s s'.
Proof.
  intros Hd Hix Hfs. destruct (_doneResolving doc) eqn:Hdone.
  - destruct (_buildIndexes_spec s d doc fs Hd Hix Hdone Hfs)
      as (byKind & byKindAndId & Hb & Hkind & _).
    eexists. unfold getByKind. cbn [getByKind_rec].
    rewrite Hd, Hix, Hdone, Hb. simpl. rewrite lookup_insert_eq. simpl.
    split; [by rewrite Hkind|]. by apply (sameGraph_insert s d doc).
  - exists s. split; [|done].
    unfold getByKind. cbn [getByKind_rec]. rewrite Hd, Hix, Hdone.
    unfold getFeatures in Hfs. change (default true None) with true in Hfs.
    destruct (_getFeatures (S (size s)) s d true ([], ∅)) as [acc| |] eqn:Hr;
      try done.
    injection Hfs as <-.
    destruct (_getFeatures_getByKind_InStep (S (size s)) d [] ∅ acc)
      as (sub & -> & Hnd & Hrel & _); [set_solver|set_solver|done|].
    simpl. unfold K in Hrel. rewrite Hrel, filter_nil.
    by rewrite (setAddAll_NoDup []).
Qed.

(** X6: as long as a document has no index, [getByKind] returns the
    features of the kind among those of the deep traversal, in the order
    of the traversal -- through the index it builds when the document is
    resolved, through the walk of [_getByKind] when it is not. *)
Theorem getByKind_is_filtered_traversal (d : DocId) (doc : Document)
    (fs : list Feature) :
  s !! d = Some doc → _featuresByKind doc = None →
  getFeatures s d None = Return fs →
  ∃ s', getByKind s d k = SReturn (filter (λ f, k ∈ kinds s f) fs) s' ∧
        sameGraph s s'.
Proof. apply getByKind_filtered. Qed.

(** X7: a lookup by kind and identifier is the lookup by kind, filtered by
    the identifier: on a document without indexes [getById] returns the
    features that [getByKind] returns and that have the identifier, and
    throws when [getByKind] throws. *)
Theorem getById_filters_getByKind (d : DocId) (doc : Document) (i : string) :
  s !! d = Some doc → _featuresByKind doc = None →
  _featuresByKindAndId doc = None →
  match getByKind s d k with
  | SReturn ofKind s' =>
      getById s d k i =
        SReturn (filter (λ f, i ∈ identifiers s f) ofKind) s'
  | SRaise e s' => getById s d k i = SRaise e s'
  | SDiverge => False
  end.
Proof.
  intros Hd Hix1 Hix2. destruct (_doneResolving doc) eqn:Hdone.
  - pose proof (getFeatures_total s d None) as Ht.
    destruct (getFeatures s d None) as [fs|e|] eqn:Hfs; [| |done].
    + destruct (_buildIndexes_spec s d doc fs Hd Hix1 Hdone Hfs)
        as (byKind & byKindAndId & Hb & Hkind & Hid).
      unfold getByKind, getById. cbn [getByKind_rec getById_rec].
      rewrite Hd, Hix1, Hix2, Hdone, Hb. simpl.
      rewrite lookup_insert_eq. simpl. rewrite Hkind, Hid.
      rewrite list_filter_filter. f_equal. apply list_filter_iff.
      intros f. tauto.
    + unfold getByKind, getById. cbn [getByKind_rec getById_rec].
      rewrite Hd, Hix1, Hix2, Hdone. unfold _buildIndexes.
      rewrite Hd, Hix1, Hdone. simpl.
      rewrite (sameGraph_getFeatures s _ d None), Hfs; [done|].
      by apply (sameGraph_insert s d doc).
  - pose proof (getByKind_total s d k) as Ht.
    unfold getById. cbn [getById_rec]. rewrite Hd, Hix2, Hdone.
    unfold getByKind in *. cbn [getByKind_rec] in *.
    rewrite Hd, Hix1, Hdone in *.
    by destruct (_getByKind (S (size s)) s d k ∅) as [acc|e|].
Qed.

End Lockstep.

(** *** Shallow queries *)

Lemma forEach_Return {A St} (f : St → A → St) (xs : list A) (st : St) :
  forEach (λ st x, Return (f st x)) xs st = Return (foldl f st xs).
Proof. revert st. induction xs as [|x xs IH]; intros st; simpl; auto. Qed.

Lemma foldl_setAdd_fst {A B} `{EqDecision A} (xs : list A) (l : list A) (b : B) :
  foldl (λ (acc : list A * B) x, (setAdd x acc.1, acc.2)) (l, b) xs =
  (setAddAll l xs, b).
Proof.
  revert l. induction xs as [|x xs IH]; intros l; simpl; [done|].
  by rewrite IH.
Qed.

(** X8: [getFeatures(false)] returns the document's own features, in the
    order they were added, whatever the documents it imports; after
    [_addFeature(f)] on an unresolved document that is the former
    features with [f] added at the end, unless it was there. *)
Theorem getFeatures_shallow_is_local (s : Store) (d : DocId) (doc : Document) :
  s !! d = Some doc → NoDup (_localFeatures doc) →
  getFeatures s d (Some false) = Return (_localFeatures doc) ∧
  ∀ f, _doneResolving doc = false →
    ∃ s', _addFeature s d f = SReturn () s' ∧
          getFeatures s' d (Some false) = Return (setAdd f (_localFeatures doc)).
Proof.
  assert (∀ s d doc, s !! d = Some doc → NoDup (_localFeatures doc) →
            getFeatures s d (Some false) = Return (_localFeatures doc)) as Hsh.
  { clear. intros s d doc Hd Hnd. unfold getFeatures. simpl. rewrite Hd.
    rewrite decide_False by set_solver.
    rewrite (forEach_Return (λ acc feature, (setAdd feature acc.1, acc.2))).
    rewrite foldl_setAdd_fst. simpl. by rewrite (setAddAll_NoDup []). }
  intros Hd Hnd. split; [by apply Hsh|].
  intros f Hdone. unfold _addFeature. rewrite Hd, Hdone. eexists. split; [done|].
  destruct (_indexFeature_fields s doc f) as (_ & _ & _ & Hl).
  rewrite (Hsh _ d (with_localFeatures (setAdd f (_localFeatures (_indexFeature s doc f)))
                      (_indexFeature s doc f))).
  - simpl. by rewrite Hl.
  - by rewrite lookup_insert_eq.
  - simpl. rewrite Hl. by apply NoDup_setAdd.
Qed.

(** *** Queries before the end of resolution *)

(** X9: on a document that has not finished resolving, the queries build
    no index and write nothing. *)
Theorem queries_before_resolved_write_nothing (s : Store) (d : DocId)
    (k i : string) :
  (∀ doc, s !! d = Some doc → _doneResolving doc = false) →
  storeAfter s (getByKind s d k) = s ∧
  storeAfter s (getById s d k i) = s ∧
  storeAfter s (getOnlyAtId s d k i) = s.
Proof.
  intros Hnot.
  assert (∀ k, ∃ o : Outcome (list Feature), getByKind s d k = lift s o)
    as HK.
  { intros k'. unfold getByKind. cbn [getByKind_rec].
    destruct (s !! d) as [doc|] eqn:Hd; [|by exists (Raise typeError)].
    rewrite (Hnot doc eq_refl).
    destruct (_featuresByKind doc) as [byKind|]; [by eexists (Return _)|].
    by eexists. }
  assert (∃ o : Outcome (list Feature), getById s d k i = lift s o) as HI.
  { unfold getById. cbn [getById_rec].
    destruct (s !! d) as [doc|] eqn:Hd; [|by exists (Raise typeError)].
    rewrite (Hnot doc eq_refl).
    destruct (_featuresByKindAndId doc) as [ix|]; [by eexists (Return _)|].
    destruct (HK k) as [o ->].
    destruct o as [r|e|]; simpl;
      [by eexists (Return _)|by eexists (Raise _)|by exists Diverge]. }
  split_and!.
  - destruct (HK k) as [o ->]. by destruct o.
  - destruct HI as [o ->]. by destruct o.
  - unfold getOnlyAtId. destruct HI as [o ->].
    destruct o as [r|e|]; simpl; try done. by destruct (1 <? length r).
Qed.

(** *** A resolved document is sealed *)

Section Sealed.

Variable analyzer : gmap string DocId.

(** X10: once [resolve] has returned on a document, resolving it again
    throws and adding a feature to it throws, and neither changes
    anything. *)
Theorem resolved_document_is_sealed (s : Store) (d : DocId) (doc : Document)
    (fuel : nat) :
  s !! d = Some doc → _doneResolving doc = false →
  _begunResolving doc = false → size (unbegunSet s) < fuel →
  ∃ s', resolve analyzer fuel s d = SReturn () s' ∧
    (∀ fuel', resolve analyzer (S fuel') s' d =
                SRaise "resolve can only be called once" s') ∧
    (∀ f, _addFeature s' d f =
            SRaise "_addFeature can not be called after _resolve()" s').
Proof.
  intros Hd Hdone Hbegun Hfuel.
  destruct (resolve_spec analyzer fuel s d doc Hd Hdone Hfuel)
    as (s' & Hr & _ & H).
  destruct (H Hbegun) as (doc' & Hd' & _ & _ & Hdone' & _).
  exists s'. split_and!; [done| |].
  - intros fuel'. simpl. by rewrite Hd', Hdone'.
  - intros f. unfold _addFeature. by rewrite Hd', Hdone'.
Qed.

End Sealed.

(** *** Resolution leaves a store the queries can walk *)

(** A scanned import is not of the type [document], and a scanned feature
    does not resolve to a feature that claims to be a document or an
    import. *)
Definition wellScannedFeature (sf : ScannedFeature) : Prop :=
  match sf with
  | ScannedImport type _ => type ≠ "document"
  | ScannedResolvable (Some (ks, _)) => "document" ∉ ks ∧ "import" ∉ ks
  | _ => True
  end.

Definition noIndexes (doc : Document) : Prop :=
  _featuresByKind doc = None ∧ _featuresByKindAndId doc = None.

Definition wellScanned (s : Store) : Prop :=
  ∀ t doc, s !! t = Some doc → Forall wellScannedFeature (features doc).

Definition withoutIndexes (s : Store) : Prop :=
  ∀ t doc, s !! t = Some doc → noIndexes doc.

(** What [resolve] keeps of a store: well-formed scanned features, rightly
    linked features, no index, and the same documents as [s0]. *)
Record Sound (s0 s : Store) : Prop := {
  sound_scanned : wellScanned s;
  sound_linked : wellLinked s;
  sound_noIndexes : withoutIndexes s;
  sound_dom : dom s = dom s0;
}.

(** On the store an outcome leaves. *)
Definition leaves {A} (P : Store → Prop) (o : SOutcome A) : Prop :=
  match o with
  | SReturn _ s' | SRaise _ s' => P s'
  | SDiverge => True
  end.

Lemma leaves_sbind {A B} (P : Store → Prop) (r : SOutcome A)
    (k : A → Store → SOutcome B) :
  leaves P r → (∀ a s1, r = SReturn a s1 → P s1 → leaves P (k a s1)) →
  leaves P (sbind r k).
Proof. destruct r as [a s1|e s1|]; simpl; auto. Qed.

Lemma wellLinkedFeature_dom (s s' : Store) (f : Feature) :
  dom s' = dom s → wellLinkedFeature s f → wellLinkedFeature s' f.
Proof.
  intros Hdom. destruct f as [|oid type url t|]; simpl; try done.
  intros [? Ht]. split; [done|].
  apply elem_of_dom. rewrite Hdom. by apply elem_of_dom.
Qed.

(** A write to one document that keeps its scanned features and its
    missing indexes, and adds rightly linked features only. *)
Lemma Sound_insert (s0 s : Store) (d : DocId) (doc doc' : Document) :
  Sound s0 s → s !! d = Some doc →
  features doc' = features doc → noIndexes doc' →
  (∀ f, f ∈ _localFeatures doc' →
        f ∈ _localFeatures doc ∨ wellLinkedFeature s f) →
  Sound s0 (<[d := doc']> s).
Proof.
  intros [Hsc Hl Hix Hdom] Hd Hf Hni Hlocal.
  assert (dom (<[d := doc']> s) = dom s) as Hdom'.
  { apply dom_insert_lookup_L. by eexists. }
  split.
  - intros t x. destruct (decide (t = d)) as [->|Hne].
    + rewrite lookup_insert_eq. intros [= <-]. rewrite Hf. by eapply Hsc.
    + rewrite lookup_insert_ne by done. apply Hsc.
  - intros t x f. destruct (decide (t = d)) as [->|Hne].
    + rewrite lookup_insert_eq. intros [= <-] Hin.
      apply (wellLinkedFeature_dom s); [done|].
      destruct (Hlocal f Hin) as [?|?]; [by eapply Hl|done].
    + rewrite lookup_insert_ne by done. intros Hx Hin.
      apply (wellLinkedFeature_dom s); [done|]. by eapply Hl.
  - intros t x. destruct (decide (t = d)) as [->|Hne].
    + rewrite lookup_insert_eq. by intros [= <-].
    + rewrite lookup_insert_ne by done. apply Hix.
  - by rewrite Hdom'.
Qed.

Lemma _indexFeature_noIndexes (s : Store) (doc : Document) (f : Feature) :
  noIndexes doc → _indexFeature s doc f = doc.
Proof. intros [H1 H2]. unfold _indexFeature. by rewrite H1. Qed.

Lemma _addFeature_Sound (s0 s : Store) (d : DocId) (f : Feature) :
  Sound s0 s → wellLinkedFeature s f → leaves (Sound s0) (_addFeature s d f).
Proof.
  intros Hs Hf. unfold _addFeature.
  destruct (s !! d) as [doc|] eqn:Hd; [|done].
  destruct (_doneResolving doc); [done|]. simpl.
  pose proof (sound_noIndexes _ _ Hs d doc Hd) as Hni.
  rewrite (_indexFeature_noIndexes s doc f Hni).
  apply (Sound_insert s0 s d doc); try done.
  simpl. intros g [->|?]%elem_of_setAdd; auto.
Qed.

Section ResolveThenQuery.

Variable analyzer : gmap string DocId.

Lemma resolveFeature_Sound (rec : Store → DocId → SOutcome unit)
    (s0 s : Store) (d : DocId) (i : nat) (sf : ScannedFeature) :
  (∀ s d, Sound s0 s → leaves (Sound s0) (rec s d)) →
  wellScannedFeature sf → Sound s0 s →
  leaves (Sound s0) (resolveFeature analyzer rec s d i sf) ∧
  ∀ f s1, resolveFeature analyzer rec s d i sf = SReturn (Some f) s1 →
          wellLinkedFeature s1 f.
Proof.
  intros Hrec Hsf Hs. destruct sf as [type url|[[ks ids]|]|]; simpl.
  - unfold _getDocument. destruct (analyzer !! url) as [t|]; [|by split].
    destruct (s !! t) as [target|] eqn:Ht; [|by split].
    destruct (_doneResolving target).
    + simpl. split; [done|]. intros f s1 [= <- <-]. simpl.
      split; [done|by eexists].
    + pose proof (Hrec s t Hs) as Hr.
      destruct (rec s t) as [[] s'|e s'|]; simpl in *; try done.
      split; [done|]. intros f s1 [= <- <-]. simpl. split; [done|].
      apply elem_of_dom. rewrite (sound_dom _ _ Hr), <- (sound_dom _ _ Hs).
      apply elem_of_dom. by eexists.
  - split; [done|]. by intros f s1 [= <- <-].
  - by split.
  - by split.
Qed.

Lemma resolveLoop_Sound (rec : Store → DocId → SOutcome unit) (s0 : Store)
    (d : DocId) (scanned : list ScannedFeature) (i : nat) (s : Store) :
  (∀ s d, Sound s0 s → leaves (Sound s0) (rec s d)) →
  Forall wellScannedFeature scanned → Sound s0 s →
  leaves (Sound s0) (resolveLoop analyzer rec d i scanned s).
Proof.
  intros Hrec Hsc. revert i s.
  induction Hsc as [|sf scanned Hsf _ IH]; intros i s Hs; simpl; [done|].
  destruct (isResolvable sf); [|by apply IH].
  destruct (resolveFeature_Sound rec s0 s d i sf Hrec Hsf Hs) as [Hl Hf].
  apply leaves_sbind; [done|].
  intros [f|] s1 Hr Hs1; cbv beta iota; [|by apply IH].
  apply leaves_sbind; [apply _addFeature_Sound; [done|by eapply Hf]|].
  intros _ s2 _ Hs2. by apply IH.
Qed.

Lemma resolve_Sound (fuel : nat) (s0 s : Store) (d : DocId) :
  Sound s0 s → leaves (Sound s0) (resolve analyzer fuel s d).
Proof.
  revert s d. induction fuel as [|fuel IH]; intros s d Hs; simpl; [done|].
  destruct (s !! d) as [doc|] eqn:Hd; [|done].
  destruct (_doneResolving doc); [done|].
  destruct (_begunResolving doc); [done|].
  assert (Sound s0 (<[d := with_begunResolving true doc]> s)) as Hs1.
  { apply (Sound_insert s0 s d doc); try done.
    - exact (sound_noIndexes _ _ Hs d doc Hd).
    - auto. }
  apply leaves_sbind; [by apply _addFeature_Sound|].
  intros _ s2 _ Hs2. apply leaves_sbind.
  - apply resolveLoop_Sound; [exact IH| |done].
    by apply (sound_scanned _ _ Hs d).
  - intros _ s3 _ Hs3. destruct (s3 !! d) as [doc3|] eqn:Hd3; [|done]. simpl.
    apply (Sound_insert s0 s3 d doc3); try done.
    + exact (sound_noIndexes _ _ Hs3 d doc3 Hd3).
    + auto.
Qed.

(** X11: resolving leaves a store that the queries can walk.  From a store
    of documents without indexes whose scanned features are well formed,
    [resolve] returns, and afterwards the deep traversal of the document
    returns and holds the document itself, and [getByKind] for the kind
    [document] returns the documents of that traversal, the document
    itself among them. *)
Theorem resolve_then_query (s : Store) (d : DocId) (doc : Document)
    (fuel : nat) :
  wellScanned s → wellLinked s → withoutIndexes s →
  s !! d = Some doc → _doneResolving doc = false →
  _begunResolving doc = false → size (unbegunSet s) < fuel →
  ∃ s' fs s'',
    resolve analyzer fuel s d = SReturn () s' ∧
    getFeatures s' d None = Return fs ∧ FDocument d ∈ fs ∧
    getByKind s' d "document" =
      SReturn (filter (λ f, "document" ∈ kinds s' f) fs) s'' ∧
    FDocument d ∈ filter (λ f, "document" ∈ kinds s' f) fs.
Proof.
  intros Hws Hwl Hwi Hd Hdone Hbegun Hfuel.
  assert (Sound s s) as Hs by by split.
  destruct (resolve_spec analyzer fuel s d doc Hd Hdone Hfuel)
    as (s' & Hr & _ & H).
  destruct (H Hbegun) as (doc' & Hd' & _ & _ & Hdone' & Hlocal).
  pose proof (resolve_Sound fuel s s d Hs) as Hs'. rewrite Hr in Hs'.
  simpl in Hs'.
  destruct (getFeatures_wellLinked s' d (sound_linked _ _ Hs'))
    as [fs Hfs]; [by eexists|].
  assert (FDocument d ∈ fs) as Hin.
  { apply (getFeatures_reachable s' d fs Hfs). exists d, doc'.
    split_and!; [done|done|]. rewrite Hlocal.
    apply elem_of_setAddAll. right. by left. }
  destruct (sound_noIndexes _ _ Hs' d doc' Hd') as [Hix _].
  destruct (getByKind_filtered s' "document" d doc' fs Hd' Hix Hfs)
    as (s'' & Hk & _).
  exists s', fs, s''. split_and!; try done.
  apply list_elem_of_filter. split; [|done].
  simpl. rewrite Hd'. simpl. unfold documentKinds.
  apply elem_of_setAdd. right. by left.
Qed.

End ResolveThenQuery.

(** *** Two resolved documents that import each other *)

Definition pageA : Document :=
  {| url := "a"; isInline := false; doc_type := "html";
     features := [ScannedImport "html-import" "b";
                  ScannedResolvable (Some (["element"], ["x-el"]))];
     _localFeatures := [FDocument 0; FImport (0, 0) "html-import" "b" 1;
                        FOther (0, 1) ["element"] ["x-el"]];
     _begunResolving := true; _doneResolving := true;
     _featuresByKind := None; _featuresByKindAndId := None |}.

Definition pageB : Document :=
  {| url := "b"; isInline := false; doc_type := "html";
     features := [ScannedImport "html-import" "a";
                  ScannedResolvable (Some (["element"], ["x-el"]))];
     _localFeatures := [FDocument 1; FImport (1, 0) "html-import" "a" 0;
                        FOther (1, 1) ["element"] ["x-el"]];
     _begunResolving := true; _doneResolving := true;
     _featuresByKind := None; _featuresByKindAndId := None |}.

Definition resolvedPair : Store := {[ 0 := pageA; 1 := pageB ]}.

(** The deep traversal from the first document. *)
Definition pairFeatures : list Feature :=
  [FDocument 0; FImport (0, 0) "html-import" "b" 1; FDocument 1;
   FImport (1, 0) "html-import" "a" 0; FOther (1, 1) ["element"] ["x-el"];
   FOther (0, 1) ["element"] ["x-el"]].

Example resolvedPair_is_resolved :
  resolve cyclicAnalyzer 3 cyclicStore 0 = SReturn () resolvedPair.
Proof. vm_compute. reflexivity. Qed.

Lemma getFeatures_shallow_is_local_witness :
  getFeatures resolvedPair 0 (Some false) = Return (_localFeatures pageA) ∧
  ∀ f, _doneResolving pageA = false →
    ∃ s', _addFeature resolvedPair 0 f = SReturn () s' ∧
          getFeatures s' 0 (Some false) =
            Return (setAdd f (_localFeatures pageA)).
Proof.
  apply (getFeatures_shallow_is_local resolvedPair 0 pageA).
  - reflexivity.
  - refine (bool_decide_unpack _ _). vm_compute. exact I.
Defined.

Lemma queries_before_resolved_write_nothing_witness :
  storeAfter cyclicStore (getByKind cyclicStore 0 "element") = cyclicStore ∧
  storeAfter cyclicStore (getById cyclicStore 0 "element" "x-el")
    = cyclicStore ∧
  storeAfter cyclicStore (getOnlyAtId cyclicStore 0 "element" "x-el")
    = cyclicStore.
Proof.
  apply (queries_before_resolved_write_nothing cyclicStore 0 "element" "x-el").
  intros doc Hdoc. vm_compute in Hdoc. injection Hdoc as <-. reflexivity.
Defined.

Lemma resolved_document_is_sealed_witness :
  ∃ s', resolve cyclicAnalyzer 3 cyclicStore 0 = SReturn () s' ∧
    (∀ fuel', resolve cyclicAnalyzer (S fuel') s' 0 =
                SRaise "resolve can only be called once" s') ∧
    (∀ f, _addFeature s' 0 f =
            SRaise "_addFeature can not be called after _resolve()" s').
Proof.
  apply (resolved_document_is_sealed cyclicAnalyzer cyclicStore 0
           (new_Document "a" false "html"
              [ScannedImport "html-import" "b";
               ScannedResolvable (Some (["element"], ["x-el"]))]) 3).
  - reflexivity.
  - reflexivity.
  - reflexivity.
  - vm_compute. lia.
Defined.

Lemma getByKind_is_filtered_traversal_witness :
  ∃ s', getByKind resolvedPair 0 "element" =
          SReturn (filter (λ f, "element" ∈ kinds resolvedPair f) pairFeatures)
            s' ∧
        sameGraph resolvedPair s'.
Proof.
  apply (getByKind_is_filtered_traversal resolvedPair "element" 0 pageA
           pairFeatures).
  - reflexivity.
  - reflexivity.
  - vm_compute. reflexivity.
Defined.

Lemma getById_filters_getByKind_witness :
  match getByKind resolvedPair 0 "element" with
  | SReturn ofKind s' =>
      getById resolvedPair 0 "element" "x-el" =
        SReturn (filter (λ f, "x-el" ∈ identifiers resolvedPair f) ofKind) s'
  | SRaise e s' => getById resolvedPair 0 "element" "x-el" = SRaise e s'
  | SDiverge => False
  end.
Proof.
  apply (getById_filters_getByKind resolvedPair "element" 0 pageA "x-el");
    reflexivity.
Defined.

Lemma cyclicStore_lookup (t : DocId) (doc : Document) :
  cyclicStore !! t = Some doc → _localFeatures doc = [] ∧ noIndexes doc ∧
  Forall wellScannedFeature (features doc).
Proof.
  unfold cyclicStore.
  intros [[<- <-]|[_ [<- <-]%lookup_singleton_Some]]%lookup_insert_Some;
    (split_and!; [done|done|]); simpl;
    repeat first [apply Forall_nil_2 | apply Forall_cons_2]; simpl;
    try done; split; by intros ?%list_elem_of_singleton.
Qed.

Lemma resolve_then_query_witness :
  ∃ s' fs s'',
    resolve cyclicAnalyzer 3 cyclicStore 0 = SReturn () s' ∧
    getFeatures s' 0 None = Return fs ∧ FDocument 0 ∈ fs ∧
    getByKind s' 0 "document" =
      SReturn (filter (λ f, "document" ∈ kinds s' f) fs) s'' ∧
    FDocument 0 ∈ filter (λ f, "document" ∈ kinds s' f) fs.
Proof.
  apply (resolve_then_query cyclicAnalyzer cyclicStore 0
           (new_Document "a" false "html"
              [ScannedImport "html-import" "b";
               ScannedResolvable (Some (["element"], ["x-el"]))]) 3).
  - intros t doc H. by apply cyclicStore_lookup in H as (_ & _ & ?).
  - intros t doc f H Hf. apply cyclicStore_lookup in H as (Hl & _ & _).
    rewrite Hl in Hf. by apply elem_of_nil in Hf.
  - intros t doc H. by apply cyclicStore_lookup in H as (_ & ? & _).
  - reflexivity.
  - reflexivity.
  - reflexivity.
  - vm_compute. lia.
Defined.

End DocumentProperties.



(** ** src/model/reference.ts *)

Module Reference.

Record Position := { line : nat; column : nat }.
Record SourceRange := { file : string; start : Position; end_ : Position }.

Inductive Severity := ERROR | WARNING | INFO.

(** A [Warning]; [parsedDocument] is the document the warning is about. *)
Record Warning {ParsedDocument : Type} := {
  code : string;
  sourceRange : SourceRange;
  message : string;
  parsedDocument : ParsedDocument;
  severity : Severity;
}.
Arguments Warning ParsedDocument : clear implicits.

Section WithFeatures.

(** Features, canonical statements and parsed documents are opaque to the
    resolution of a reference. *)
Context {Feature Statement ParsedDocument : Type}.

(** The argument of [document.getFeatures]. *)
Record Query := {
  q_imported : option bool;
  q_externalPackages : option bool;
  q_kind : string;
  q_id : option string;
  q_statement : option Statement;
}.

(** The document, as far as a reference queries it; [getFeatures] returns
    a [Set], here the list of its elements in iteration order. *)
Record Document := {
  getFeatures : Query → list Feature;
  doc_parsedDocument : ParsedDocument;
}.

(** A babel [Binding] with what [esutil.getCanonicalStatement] gives for
    its path. *)
Record Binding := { getCanonicalStatement : option Statement }.

Record ScannedReference := {
  identifier : string;
  kind : string;
  sr_sourceRange : option SourceRange;
  (* this.astPath.scope.getBinding *)
  scope_getBinding : string → option Binding;
  sr_warnings : list (Warning ParsedDocument);
}.

(** A reference to another feature by identifier. *)
Record Reference := {
  ref_identifier : string;
  ref_sourceRange : option SourceRange;
  feature : option Feature;
  ref_warnings : list (Warning ParsedDocument);
}.

(** [new Reference(scannedReference, feature, warnings)]. *)
Definition new_Reference (scannedReference : ScannedReference)
    (feature : option Feature) (warnings : list (Warning ParsedDocument))
  : Reference :=
  {| ref_identifier := identifier scannedReference;
     ref_sourceRange := sr_sourceRange scannedReference;
     feature := feature; ref_warnings := warnings |}.

(** [resolveBinding(binding, document, kind)]: [Some] is a successful
    result, [None] an unsuccessful one. *)
Definition resolveBinding (binding : Binding) (document : Document)
    (asKind : string) : option Feature :=
  match getCanonicalStatement binding with
  | None => None
  | Some statement =>
      let features :=
        getFeatures document
          {| q_imported := None; q_externalPackages := None; q_kind := asKind;
             q_id := None; q_statement := Some statement |} in
      if 1 <? length features then None
      else head features
  end.

Definition couldNotResolve (this : ScannedReference) (asKind : string)
    (range : SourceRange) (document : Document) : Warning ParsedDocument :=
  {| code := "could-not-resolve-reference";
     sourceRange := range;
     message :=
       ("Could not resolve reference to " +:+ kind this) +:+
       (if bool_decide (asKind = "behavior")
        then ". Is it annotated with @polymerBehavior?" else "");
     parsedDocument := doc_parsedDocument document;
     severity := WARNING |}.

Definition multipleGlobalDeclarations (this : ScannedReference)
    (range : SourceRange) (document : Document) : Warning ParsedDocument :=
  {| code := "multiple-global-declarations";
     sourceRange := range;
     message :=
       "Multiple global declarations of " +:+ kind this +:+
       " with identifier " +:+ identifier this;
     parsedDocument := doc_parsedDocument document;
     severity := WARNING |}.

(** The scope-based lookup at the head of [resolveWithKind]. *)
Definition scopeLookup (this : ScannedReference) (document : Document)
    (asKind : string) : option Feature :=
  binding ← scope_getBinding this (identifier this);
  resolveBinding binding document asKind.

Definition globalQuery (this : ScannedReference) (asKind : string) : Query :=
  {| q_imported := Some true; q_externalPackages := Some true;
     q_kind := asKind;
     q_id := Some (identifier this); q_statement := None |}.

(** [this.resolveWithKind(document, kind)]. *)
Definition resolveWithKind (this : ScannedReference) (document : Document)
    (asKind : string) : Reference :=
  let warnings := sr_warnings this in
  match scopeLookup this document asKind with
  | Some feature => new_Reference this (Some feature) warnings
  | None =>
      (* We didn't find it by doing principled scope-based analysis. Let's
         try looking it up in our big global map! *)
      let features := getFeatures document (globalQuery this asKind) in
      let warnings :=
        match sr_sourceRange this with
        | Some range =>
            if length features =? 0 then
              warnings ++ [couldNotResolve this asKind range document]
            else if 1 <? length features then
              warnings ++ [multipleGlobalDeclarations this range document]
            else warnings
        | None => warnings
        end in
      new_Reference this (head features) warnings
  end.

(** [this.resolve(document)]. *)
Definition resolve (this : ScannedReference) (document : Document)
  : Reference :=
  resolveWithKind this document (kind this).

(** C2 (amended): when the scope-based lookup fails, [resolveWithKind]
    queries the document by kind and identifier, imports and external
    packages included, and returns a [Reference] holding the first feature
    of the result, if any.  If the scanned reference has a source range,
    an empty result adds a [could-not-resolve-reference] warning, with the
    hint about [@polymerBehavior] exactly when the kind asked for is
    [behavior], and a result of more than one feature adds a
    [multiple-global-declarations] warning; a result of one feature adds
    none.  Without a source range no warning is added. *)
Theorem resolveWithKind_global_lookup (this : ScannedReference)
    (document : Document) (asKind : string) :
  scopeLookup this document asKind = None →
  let features := getFeatures document (globalQuery this asKind) in
  let ref := resolveWithKind this document asKind in
  feature ref = head features ∧
  ref_identifier ref = identifier this ∧
  match sr_sourceRange this with
  | Some range =>
      (features = [] →
         ref_warnings ref =
           sr_warnings this ++
           [ {| code := "could-not-resolve-reference";
                sourceRange := range;
                message :=
                  if bool_decide (asKind = "behavior")
                  then "Could not resolve reference to " +:+ kind this
                       +:+ ". Is it annotated with @polymerBehavior?"
                  else "Could not resolve reference to " +:+ kind this;
                parsedDocument := doc_parsedDocument document;
                severity := WARNING |} ]) ∧
      (1 < length features →
         ref_warnings ref =
           sr_warnings this ++
           [ {| code := "multiple-global-declarations";
                sourceRange := range;
                message :=
                  "Multiple global declarations of " +:+ kind this
                  +:+ " with identifier " +:+ identifier this;
                parsedDocument := doc_parsedDocument document;
                severity := WARNING |} ]) ∧
      (length features = 1 → ref_warnings ref = sr_warnings this)
  | None => ref_warnings ref = sr_warnings this
  end.
Proof.
  intros Hscope. unfold resolveWithKind. rewrite Hscope. cbv zeta.
  split; [done|]. split; [done|].
  destruct (sr_sourceRange this) as [range|]; [|done]. simpl.
  destruct (getFeatures document (globalQuery this asKind)) as [|f [|g fs]];
    simpl; split_and!; try done; try (intros; simpl in *; lia).
  intros _. unfold couldNotResolve. do 2 f_equal.
  case_bool_decide; [by rewrite Str.append_assoc|by rewrite Str.append_nil_r].
Qed.

End WithFeatures.

Arguments Query : clear implicits.
Arguments Document : clear implicits.
Arguments ScannedReference : clear implicits.
Arguments Reference : clear implicits.

(** A reference without a source range into a document that declares
    nothing. *)
Definition emptyDocument : Document nat unit unit :=
  {| getFeatures := λ _, []; doc_parsedDocument := () |}.

Definition plainDocument (found : list nat) : Document nat unit unit :=
  {| getFeatures := λ _, found; doc_parsedDocument := () |}.

Definition behaviorReference (range : option SourceRange)
  : ScannedReference unit unit :=
  {| identifier := "MyBehavior"; kind := "behavior"; sr_sourceRange := range;
     scope_getBinding := λ _, None; sr_warnings := [] |}.

Definition someRange : SourceRange :=
  {| file := "a.js"; start := {| line := 1; column := 0 |};
     end_ := {| line := 1; column := 10 |} |}.

Lemma resolveWithKind_global_lookup_witness :
  feature (resolveWithKind (behaviorReference (Some someRange))
             (plainDocument [7; 8]) "behavior") = Some 7 ∧
  code <$> ref_warnings (resolveWithKind (behaviorReference (Some someRange))
                           (plainDocument [7; 8]) "behavior")
    = ["multiple-global-declarations"].
Proof.
  destruct (resolveWithKind_global_lookup (behaviorReference (Some someRange))
              (plainDocument [7; 8]) "behavior" eq_refl)
    as (Hf & _ & _ & Hw & _).
  split; [exact Hf|]. rewrite Hw; [reflexivity|simpl; lia].
Defined.

(** C2, as stated, fails for a scanned reference without a source range:
    the scope-based lookup fails and the query result is empty, yet no
    [could-not-resolve-reference] warning is attached. *)
Lemma resolveWithKind_no_warning_without_range :
  scopeLookup (behaviorReference None) emptyDocument "behavior" = None ∧
  getFeatures emptyDocument (globalQuery (behaviorReference None) "behavior")
    = [] ∧
  ref_warnings (resolveWithKind (behaviorReference None) emptyDocument
                  "behavior") = [] ∧
  ¬ ∃ w, w ∈ ref_warnings (resolveWithKind (behaviorReference None)
                             emptyDocument "behavior") ∧
         code w = "could-not-resolve-reference".
Proof.
  split_and!; try reflexivity. intros (w & Hw & _). by apply elem_of_nil in Hw.
Qed.

End Reference.


(** ** src/url-loader/fs-url-loader.ts *)

Module FSUrlLoader.

(** The object Node's [url.parse] returns, as far as the loader reads it;
    [None] is [null].  Node keeps the colon in [protocol]: a file URL
    parses to the protocol [file:]. *)
Record Url := {
  protocol : option string;
  hostname : option string;
  pathname : option string;
}.

(** [!urlObject.hostname]: [null] and the empty string are falsy. *)
Definition falsy (o : option string) : bool :=
  match o with
  | None => true
  | Some s => bool_decide (s = "")
  end.

Section WithLibraries.

(** [url.parse], [decodeURIComponent] (which throws on a malformed escape
    sequence) and [path.normalize] are library functions. *)
Variable parseUrl : string → Url.
Variable decodeURIComponent : string → Result string.
Variable normalize : string → string.

Definition _isValid (urlObject : Url) (pathname : string) : bool :=
  (bool_decide (protocol urlObject = Some "file") || falsy (hostname urlObject))
  && negb (Str.startsWith "../" pathname).

Definition canLoad (url : string) : Result bool :=
  let urlObject := parseUrl url in
  decoded ← decodeURIComponent (default "" (pathname urlObject));
  let pathname := normalize decoded in
  Ok (_isValid urlObject pathname).

(** What [canLoad] accepts: with a protocol other than the literal [file],
    only URLs without a host. *)
Lemma canLoad_true_iff (url : string) :
  protocol (parseUrl url) ≠ Some "file" →
  canLoad url = Ok true ↔
  falsy (hostname (parseUrl url)) = true ∧
  ∃ decoded, decodeURIComponent (default "" (pathname (parseUrl url)))
               = Ok decoded ∧
             Str.startsWith "../" (normalize decoded) = false.
Proof.
  intros Hproto. unfold canLoad, _isValid.
  rewrite bool_decide_false by done. simpl.
  destruct (decodeURIComponent _) as [decoded|e]; simpl.
  - split.
    + intros [= H]. apply andb_true_iff in H as [-> H].
      split; [done|]. exists decoded. split; [done|].
      by destruct (Str.startsWith _ _).
    + intros (-> & decoded' & [= <-] & ->). done.
  - split; [done|]. by intros (_ & ? & ? & _).
Qed.

(** C9 fails on a file URL that names a host: its scheme is [file:] and
    its path stays inside the root, yet [canLoad] answers [false], because
    the protocol is compared with [file], without the colon. *)
Theorem canLoad_rejects_file_url_with_host (url : string) :
  parseUrl url = {| protocol := Some "file:"; hostname := Some "host";
                    pathname := Some "/a.html" |} →
  decodeURIComponent "/a.html" = Ok "/a.html" →
  normalize "/a.html" = "/a.html" →
  canLoad url = Ok false ∧
  Str.startsWith "../" (normalize "/a.html") = false.
Proof.
  intros Hp Hd Hn. unfold canLoad. rewrite Hp. simpl. rewrite Hd. simpl.
  by rewrite Hn.
Qed.

End WithLibraries.

Lemma canLoad_rejects_file_url_with_host_witness :
  canLoad (λ _, {| protocol := Some "file:"; hostname := Some "host";
                   pathname := Some "/a.html" |})
    (λ s, Ok s) (λ s, s) "file://host/a.html" = Ok false ∧
  Str.startsWith "../" "/a.html" = false.
Proof.
  apply (canLoad_rejects_file_url_with_host
           (λ _, {| protocol := Some "file:"; hostname := Some "host";
                    pathname := Some "/a.html" |})
           (λ s, Ok s) (λ s, s) "file://host/a.html");
    reflexivity.
Defined.

End FSUrlLoader.


(** ** src/url-loader/url-resolver.ts *)

Module UrlResolver.

(** The pathname of a resolved URL starts with a slash; it is kept as the
    segments between its slashes: [/d1/d2/name] has [dir = [d1; d2]], and
    a pathname that ends with a slash has the empty [name]. *)
Record Pathname := { dir : list string; name : string }.

(** [pathname.split('/')]. *)
Definition split (p : Pathname) : list string := "" :: dir p ++ [name p].

(** The object [parseUrl] returns for a resolved URL; [None] is [null].
    [search] and [hash] keep their leading [?] and [#]. *)
Record Url := {
  protocol : option string;
  slashes : option bool;
  auth : option string;
  host : option string;
  pathname : Pathname;
  search : option string;
  hash : option string;
}.

(** A URL reference without scheme and authority, as [url.parse] reads the
    string [url.format] makes of [{pathname, search, hash}]; [rel_path] is
    [pathname.split('/')], and [[]] for the empty pathname.  Formatting
    and parsing again is taken to give the reference back. *)
Record RelativeReference := {
  rel_path : list string;
  rel_search : option string;
  rel_hash : option string;
}.

(** What [simpleUrlRelative] returns: [to] as it is, or a reference
    relative to [from]. *)
Inductive FileRelativeUrl :=
| AsIs (to : Url)
| Relative (r : RelativeReference).

#[global] Instance Pathname_eq_dec : EqDecision Pathname.
Proof. solve_decision. Defined.
#[global] Instance Url_eq_dec : EqDecision Url.
Proof. solve_decision. Defined.

(** *** [path.posix] *)

(** One segment of [posix.resolve] on an absolute path: empty and [.]
    segments are dropped, [..] drops the segment before it. *)
Definition resolveStep (stack : list string) (seg : string) : list string :=
  if decide (seg = "" ∨ seg = ".") then stack
  else if decide (seg = "..") then removelast stack
  else stack ++ [seg].

(** [posix.resolve(p)] for an absolute path, as the list of its segments. *)
Definition posix_resolve (p : Pathname) : list string :=
  foldl resolveStep [] (dir p ++ [name p]).

Fixpoint commonPrefixLength (a b : list string) : nat :=
  match a, b with
  | x :: a', y :: b' =>
      if decide (x = y) then S (commonPrefixLength a' b') else 0
  | _, _ => 0
  end.

(** [posix.relative(from, to)] for absolute paths, as the segments of the
    result, [[]] for the empty string. *)
Definition posix_relative (from to : Pathname) : list string :=
  let f := posix_resolve from in
  let t := posix_resolve to in
  if decide (f = t) then []
  else
    let k := commonPrefixLength f t in
    replicate (length f - k) ".." ++ drop k t.

(** [s.replace(/_$/, '')]. *)
Fixpoint stripUnderscore (s : string) : string :=
  match s with
  | EmptyString => EmptyString
  | String c EmptyString => if decide (c = "_"%char) then EmptyString else s
  | String c s' => String c (stripUnderscore s')
  end.

(** The same on a path given by its segments. *)
Definition replaceTrailingUnderscore (rel : list string) : list string :=
  match reverse rel with
  | [] => []
  | x :: rest => reverse rest ++ [stripUnderscore x]
  end.

(** The empty pathname has no segments. *)
Definition relPathOf (segments : list string) : list string :=
  if decide (segments = [""]) then [] else segments.

(** *** [simpleUrlRelative] *)

(** [typeof to.x === 'string' && from.x !== to.x]. *)
Definition conflicting {A} `{EqDecision A} (fromX toX : option A) : bool :=
  match toX with
  | Some _ => bool_decide (fromX ≠ toX)
  | None => false
  end.

Definition simpleUrlRelative (from to : Url) : FileRelativeUrl :=
  (* Return the `to` as-is if there are conflicting components which
     prohibit calculating a relative form. *)
  if conflicting (protocol from) (protocol to)
     || conflicting (slashes from) (slashes to)
     || conflicting (host from) (host to)
     || conflicting (auth from) (auth to)
  then AsIs to
  else
    let pathname :=
      if decide (pathname from = pathname to) then []
      else
        let fromDir := {| dir := dir (pathname from); name := "" |} in
        (* the _ character is appended to the `toDir` so that paths with
           trailing slash will retain the trailing slash in the result *)
        let toDir_ := {| dir := dir (pathname to);
                         name := name (pathname to) +:+ "_" |} in
        replaceTrailingUnderscore (posix_relative fromDir toDir_) in
    Relative {| rel_path := relPathOf pathname;
                rel_search := search to; rel_hash := hash to |}.

(** *** [url.resolve]

    Node's [Url.prototype.resolveObject], for a base with a slashed
    protocol and a reference without scheme and authority. *)

Definition slashedProtocol (p : string) : bool :=
  bool_decide (p ∈ ["http"; "https"; "ftp"; "gopher"; "file";
                    "http:"; "https:"; "ftp:"; "gopher:"; "file:"]).

Definition truthy (o : option string) : bool :=
  match o with
  | None => false
  | Some s => negb (bool_decide (s = ""))
  end.

(** One turn of the loop that strips single dots and resolves double dots,
    which runs from the last segment to the first. *)
Definition removeDotsStep (seg : string) (st : list string * nat)
  : list string * nat :=
  if decide (seg = ".") then st
  else if decide (seg = "..") then (st.1, S st.2)
  else match st.2 with
       | 0 => (seg :: st.1, 0)
       | S up => (st.1, up)
       end.

Definition removeDots (srcPath : list string) : list string :=
  (foldr removeDotsStep ([], 0) srcPath).1.

Definition pathOfSegments (segments : list string) : option Pathname :=
  match reverse segments with
  | [] => None
  | x :: rest => Some {| dir := reverse rest; name := x |}
  end.

(** What [url.resolve] gives, or that the call is outside the part of
    Node's function modelled here. *)
Inductive Resolution :=
| ResolvedTo (u : Url)
| OutsideModel.

Definition withPath (base : Url) (srcPath : list string)
    (search hash : option string) : Resolution :=
  let last := List.last srcPath "" in
  let hasTrailingSlash :=
    (truthy (host base) || (1 <? length srcPath))
    && (bool_decide (last = ".") || bool_decide (last = ".."))
    || bool_decide (last = "") in
  let kept := removeDots srcPath in
  let kept1 := if decide (head kept = Some "") then kept else "" :: kept in
  let endsWithSlash :=
    (2 <=? length kept1) && bool_decide (List.last kept1 "x" = "") in
  let kept2 :=
    if hasTrailingSlash && negb endsWithSlash then kept1 ++ [""] else kept1 in
  match kept2 with
  | "" :: rest =>
      match pathOfSegments rest with
      | Some p =>
          ResolvedTo {| protocol := protocol base; slashes := slashes base;
                        auth := auth base; host := host base; pathname := p;
                        search := search; hash := hash |}
      | None => OutsideModel
      end
  | _ => OutsideModel
  end.

Definition resolveObject (base : Url) (relative : RelativeReference)
  : Resolution :=
  if negb (from_option slashedProtocol false (protocol base)) then OutsideModel
  else
    match rel_path relative, rel_search relative, rel_hash relative with
    | [], None, None =>
        (* relative.href === '': only the hash is overridden *)
        ResolvedTo {| protocol := protocol base; slashes := slashes base;
                      auth := auth base; host := host base;
                      pathname := pathname base; search := search base;
                      hash := None |}
    | [], Some query, hash =>
        (* just pull out the search *)
        ResolvedTo {| protocol := protocol base; slashes := slashes base;
                      auth := auth base; host := host base;
                      pathname := pathname base; search := Some query;
                      hash := hash |}
    | [], None, hash =>
        withPath base (split (pathname base)) (search base) hash
    | relPath, query, hash =>
        (* it's relative: throw away the existing file, and take the new
           path instead *)
        withPath base (removelast (split (pathname base)) ++ relPath) query hash
    end.

(** [simpleUrlResolve(url, baseUrl)], for what [simpleUrlRelative]
    returns.  Resolving an absolute URL is not modelled. *)
Definition simpleUrlResolve (url : FileRelativeUrl) (baseUrl : Url)
  : Resolution :=
  match url with
  | AsIs _ => OutsideModel
  | Relative r => resolveObject baseUrl r
  end.

End UrlResolver.

Module ReferenceProperties.
Import Reference.

Section WithFeatures.

Context {Feature Statement ParsedDocument : Type}.

#[local] Abbreviation Document := (Document Feature Statement ParsedDocument).
#[local] Abbreviation ScannedReference :=
  (ScannedReference Statement ParsedDocument).

(** The query [resolveBinding] makes for a statement. *)
Definition statementQuery (asKind : string) (statement : Statement)
  : Query Statement :=
  {| q_imported := None; q_externalPackages := None; q_kind := asKind;
     q_id := None; q_statement := Some statement |}.

(** X12: what [resolveWithKind] never does.  The warnings of the reference
    are those of the scanned reference, in order, with at most one more
    at the end; the feature it holds, if any, is one the document
    returned, for the statement of the binding in scope or else for the
    identifier; and a feature found through the scope is returned with no
    warning added. *)
Theorem resolveWithKind_keeps_warnings (this : ScannedReference)
    (document : Document) (asKind : string) :
  let ref := resolveWithKind this document asKind in
  (∃ added, ref_warnings ref = sr_warnings this ++ added ∧ length added ≤ 1 ∧
            (is_Some (scopeLookup this document asKind) → added = []) ∧
            (sr_sourceRange this = None → added = [])) ∧
  (∀ f, feature ref = Some f →
     (∃ binding statement,
         scope_getBinding this (identifier this) = Some binding ∧
         getCanonicalStatement binding = Some statement ∧
         getFeatures document (statementQuery asKind statement) = [f]) ∨
     (scopeLookup this document asKind = None ∧
      head (getFeatures document (globalQuery this asKind)) = Some f)).
Proof.
  cbv zeta. unfold resolveWithKind.
  destruct (scopeLookup this document asKind) as [g|] eqn:Hscope.
  - split.
    + exists []. simpl. rewrite app_nil_r. split_and!; auto.
    + simpl. intros f [= <-]. left.
      unfold scopeLookup in Hscope.
      destruct (scope_getBinding this (identifier this)) as [binding|] eqn:Hb;
        [|done].
      simpl in Hscope. unfold resolveBinding in Hscope.
      destruct (getCanonicalStatement binding) as [statement|] eqn:Hst;
        [|done].
      exists binding, statement. split_and!; try done.
      unfold statementQuery.
      destruct (getFeatures document _) as [|x [|y l]]; simpl in *;
        by simplify_eq.
  - split.
    + cbv zeta. simpl.
      destruct (sr_sourceRange this) as [range|].
      * destruct (length _ =? 0); [|destruct (1 <? length _)].
        -- eexists [_]. split_and!; try done; simpl; lia.
        -- eexists [_]. split_and!; try done; simpl; lia.
        -- exists []. rewrite app_nil_r. split_and!; auto.
      * exists []. rewrite app_nil_r. split_and!; auto.
    + simpl. intros f Hf. by right.
Qed.

End WithFeatures.

End ReferenceProperties.

Module FSUrlLoaderProperties.
Import FSUrlLoader.

Section WithLibraries.

Variable parseUrl : string → Url.
Variable decodeURIComponent : string → Result string.
Variable normalize : string → string.
(** [path.join]. *)
Variable join : string → string → string.

#[local] Abbreviation canLoad := (canLoad parseUrl decodeURIComponent normalize).

(** [this.getFilePath(url)] of a loader with the given [root]; an
    undefined or empty root is falsy. *)
Definition getFilePath (root : option string) (url : string) : Result string :=
  let urlObject := parseUrl url in
  decoded ← decodeURIComponent (default "" (pathname urlObject));
  let pathname := normalize decoded in
  if negb (_isValid urlObject pathname) then Throw ("Invalid URL " +:+ url)
  else Ok (if falsy root then pathname else join (default "" root) pathname).

(** X13: [getFilePath] goes by [canLoad]: it returns a path exactly for the
    URLs that [canLoad] accepts, throws [Invalid URL] for those it
    rejects, and throws what [canLoad] throws on a malformed escape
    sequence.  A loader without a root never returns a path that starts
    with [../]. *)
Theorem getFilePath_follows_canLoad (root : option string) (url : string) :
  match canLoad url with
  | Ok true =>
      ∃ path, getFilePath root url = Ok path ∧
              (falsy root = true → Str.startsWith "../" path = false)
  | Ok false => getFilePath root url = Throw ("Invalid URL " +:+ url)
  | Throw e => getFilePath root url = Throw e
  end.
Proof.
  unfold FSUrlLoader.canLoad, getFilePath.
  destruct (decodeURIComponent _) as [decoded|e]; simpl; [|done].
  destruct (_isValid (parseUrl url) (normalize decoded)) eqn:Hvalid; simpl;
    [|done].
  eexists. split; [done|]. intros ->.
  unfold _isValid in Hvalid. apply andb_true_iff in Hvalid as [_ H].
  by apply negb_true_iff in H.
Qed.

End WithLibraries.

End FSUrlLoaderProperties.

(** ** src/warnings.ts *)

Module Warnings.

(** Columns and lines are JavaScript numbers; the differences taken of
    them can be negative. *)
Record Position := { line : Z; column : Z }.
Record SourceRange := { file : string; start : Position; end_ : Position }.

Fixpoint replicateString (n : nat) (s : string) : string :=
  match n with
  | 0 => ""
  | S n' => s +:+ replicateString n' s
  end.

(** [s.repeat(count)] for an integer [count]: a negative count throws a
    [RangeError]. *)
Definition repeat (s : string) (count : Z) : Result string :=
  if (count <? 0)%Z then Throw "RangeError: Invalid count value"
  else Ok (replicateString (Z.to_nat count) s).

(** [getUnderlineText(lineText, sourceRange)]. *)
Definition getUnderlineText (lineText : string) (sourceRange : SourceRange)
  : Result string :=
  let startColumn := column (start sourceRange) in
  let endColumn :=
    if decide (line (end_ sourceRange) = line (start sourceRange))
    then column (end_ sourceRange)
    else Z.of_nat (String.length lineText) in
  spaces ← repeat " " startColumn;
  let underline := spaces +:+ "~" in
  if decide (startColumn = endColumn) then Ok underline
  else
    tildes ← repeat "~" (endColumn - (startColumn + 1));
    Ok (underline +:+ tildes).

(** The column the underline ends at: the end column of a range within
    one line, the end of the line otherwise. *)
Definition endColumnOf (lineText : string) (sourceRange : SourceRange) : Z :=
  if decide (line (end_ sourceRange) = line (start sourceRange))
  then column (end_ sourceRange)
  else Z.of_nat (String.length lineText).

(** X14: the underline of a warning.  For a range that starts at a column
    [c >= 0] and ends at a column [e >= c], [getUnderlineText] returns [c]
    spaces followed by [e - c] tildes, and by one tilde when [e = c].  It
    throws a [RangeError] when the range starts at a negative column or
    ends before it starts -- as does a range over several lines that
    starts beyond the end of the line text. *)
Theorem getUnderlineText_shape (lineText : string) (sourceRange : SourceRange) :
  let c := column (start sourceRange) in
  let e := endColumnOf lineText sourceRange in
  ((0 ≤ c ≤ e)%Z →
     getUnderlineText lineText sourceRange =
       Ok (replicateString (Z.to_nat c) " " +:+
           replicateString (Z.to_nat (Z.max 1 (e - c))) "~")) ∧
  ((c < 0 ∨ e < c)%Z →
     getUnderlineText lineText sourceRange =
       Throw "RangeError: Invalid count value").
Proof.
  cbv zeta. unfold getUnderlineText, endColumnOf, repeat.
  set (c := column (start sourceRange)).
  set (e := if decide _ then _ else _). split.
  - intros [Hc He]. rewrite (proj2 (Z.ltb_ge c 0)) by lia. simpl.
    destruct (decide (c = e)) as [<-|Hne].
    + replace (Z.max 1 (c - c)) with 1%Z by lia. done.
    + rewrite (proj2 (Z.ltb_ge (e - (c + 1)) 0)) by lia. simpl.
      replace (Z.max 1 (e - c)) with (Z.succ (e - (c + 1))) by lia.
      rewrite Z2Nat.inj_succ by lia. simpl.
      by rewrite Str.append_assoc.
  - intros [Hc|He].
    + by rewrite (proj2 (Z.ltb_lt c 0)) by lia.
    + destruct (Z.ltb_spec c 0); [done|]. simpl.
      rewrite decide_False by lia.
      by rewrite (proj2 (Z.ltb_lt (e - (c + 1)) 0)) by lia.
Qed.

Example getUnderlineText_sample :
  getUnderlineText "<dom-module id='my-element'>"
    {| file := "a.html"; start := {| line := 3; column := 4 |};
       end_ := {| line := 3; column := 14 |} |}
  = Ok "    ~~~~~~~~~~" ∧
  getUnderlineText "  <template>"
    {| file := "a.html"; start := {| line := 3; column := 2 |};
       end_ := {| line := 5; column := 13 |} |}
  = Ok "  ~~~~~~~~~~".
Proof. by vm_compute. Qed.

End Warnings.

(** ** src/lib/importParse.js *)

Module ImportParse.

(** A parse5 node, as far as [importParse] reads it: its [tagName] and its
    [childNodes], either of which can be [undefined]. *)
Inductive Node :=
| MkNode (tagName : option string) (childNodes : option (list Node)).

Definition tagName (node : Node) : option string :=
  match node with MkNode tag _ => tag end.

Definition childNodes (node : Node) : option (list Node) :=
  match node with MkNode _ kids => kids end.

(** A string is truthy when it is defined and not empty. *)
Definition truthy (o : option string) : bool :=
  match o with
  | None => false
  | Some s => negb (bool_decide (s = ""))
  end.

Record Registry := {
  template : list Node;
  script : list Node;
  style : list Node;
}.

(** [{template: [], script: [], style: []}]. *)
Definition emptyRegistry : Registry :=
  {| template := []; script := []; style := [] |}.

(** [addNode(node, registry)]: the registry has the own properties
    [template], [script] and [style]. *)
Definition addNode (node : Node) (registry : Registry) : Registry :=
  match tagName node with
  | Some tag =>
      if decide (tag = "template") then
        {| template := template registry ++ [node];
           script := script registry; style := style registry |}
      else if decide (tag = "script") then
        {| template := template registry;
           script := script registry ++ [node]; style := style registry |}
      else if decide (tag = "style") then
        {| template := template registry; script := script registry;
           style := style registry ++ [node] |}
      else registry
  | None => registry
  end.

(** [queue.concat(x)]: the elements of an array, and anything else as one
    element; [None] in the queue is [undefined]. *)
Definition concat (queue : list (option Node)) (x : option (list Node))
  : list (option Node) :=
  queue ++ match x with
           | Some nodes => Some <$> nodes
           | None => [None]
           end.

(** [queue.pop()]: the last element and the queue without it. *)
Definition pop {A} (queue : list A) : option (A * list A) :=
  match reverse queue with
  | [] => None
  | x :: rest => Some (x, reverse rest)
  end.

(** The [while] loop of [importParse]; [fuel] bounds the number of
    iterations, [None] means the bound was hit. *)
Fixpoint loop (fuel : nat) (queue : list (option Node)) (registry : Registry)
  : option Registry :=
  match fuel with
  | 0 => None
  | S fuel' =>
      match pop queue with
      | None => Some registry
      | Some (nextNode, queue) =>
          match nextNode with
          | Some node =>
              if truthy (tagName node) then
                loop fuel' (concat queue (childNodes node))
                  (addNode node registry)
              else loop fuel' queue registry
          | None => loop fuel' queue registry
          end
      end
  end.

(** Every iteration takes one node off the queue and puts its children
    on: the nodes below the queue bound the iterations. *)
Fixpoint weight (node : Node) : nat :=
  match node with
  | MkNode _ kids =>
      S (match kids with
         | Some nodes =>
             (fix total (l : list Node) : nat :=
                match l with
                | [] => 0
                | k :: l' => weight k + total l'
                end) nodes
         | None => 1
         end)
  end.

Definition weightOf (o : option Node) : nat :=
  match o with Some node => weight node | None => 1 end.

Definition queueWeight (queue : list (option Node)) : nat :=
  foldr (λ o n, weightOf o + n) 0 queue.

Section WithParser.

(** [new Parser().parse], which may throw. *)
Variable parse : string → Result Node.

(** [importParse(htmlString)].  An exception of the parser is caught and
    dropped, which leaves [doc] undefined: reading its [childNodes]
    throws. *)
Definition importParse (htmlString : string) : option (Result Registry) :=
  match parse htmlString with
  | Throw _ =>
      Some (Throw "TypeError: Cannot read property 'childNodes' of undefined")
  | Ok doc =>
      let queue := concat [] (childNodes doc) in
      registry ← loop (S (queueWeight queue)) queue emptyRegistry;
      Some (Ok registry)
  end.

End WithParser.

(** *** The order of the visit *)

(** The elements under a node, the node first and then its children from
    the last to the first; a node without a tag name is not entered. *)
Fixpoint visit (node : Node) : list Node :=
  match node with
  | MkNode tag kids =>
      if truthy tag then
        node ::
        match kids with
        | Some nodes =>
            (fix visitAll (l : list Node) : list Node :=
               match l with
               | [] => []
               | k :: l' => visitAll l' ++ visit k
               end) nodes
        | None => []
        end
      else []
  end.

Fixpoint visitAll (nodes : list Node) : list Node :=
  match nodes with
  | [] => []
  | k :: l' => visitAll l' ++ visit k
  end.

Definition visitOpt (o : option Node) : list Node :=
  match o with Some node => visit node | None => [] end.

Fixpoint visitQueue (queue : list (option Node)) : list Node :=
  match queue with
  | [] => []
  | o :: queue' => visitQueue queue' ++ visitOpt o
  end.

Definition hasTag (tag : string) (node : Node) : Prop :=
  tagName node = Some tag.

#[global] Instance hasTag_dec (tag : string) (node : Node) :
  Decision (hasTag tag node).
Proof. unfold hasTag. apply _. Defined.

Definition addAll (nodes : list Node) (registry : Registry) : Registry :=
  foldl (λ r node, addNode node r) registry nodes.

(** *** Facts *)

Lemma visit_eq (tag : option string) (kids : option (list Node)) :
  visit (MkNode tag kids) =
  if truthy tag then MkNode tag kids :: visitAll (default [] kids) else [].
Proof.
  destruct kids as [nodes|]; reflexivity.
Qed.

Fixpoint totalWeight (nodes : list Node) : nat :=
  match nodes with
  | [] => 0
  | k :: l' => weight k + totalWeight l'
  end.

Lemma weight_eq (tag : option string) (kids : option (list Node)) :
  weight (MkNode tag kids) =
  S (match kids with Some nodes => totalWeight nodes | None => 1 end).
Proof.
  destruct kids as [nodes|]; reflexivity.
Qed.

Lemma queueWeight_app (a b : list (option Node)) :
  queueWeight (a ++ b) = queueWeight a + queueWeight b.
Proof.
  unfold queueWeight. induction a as [|o a IH]; simpl; [done|].
  rewrite IH. lia.
Qed.

Lemma queueWeight_singleton (o : option Node) : queueWeight [o] = weightOf o.
Proof. unfold queueWeight. simpl. lia. Qed.

Lemma queueWeight_Some (nodes : list Node) :
  queueWeight (Some <$> nodes) = totalWeight nodes.
Proof.
  induction nodes as [|k l IH]; [done|].
  rewrite fmap_cons. unfold queueWeight in *. cbn [foldr weightOf totalWeight].
  by rewrite IH.
Qed.

Lemma visitQueue_app (a b : list (option Node)) :
  visitQueue (a ++ b) = visitQueue b ++ visitQueue a.
Proof.
  induction a as [|o a IH]; simpl; [by rewrite app_nil_r|].
  by rewrite IH, app_assoc.
Qed.

Lemma visitQueue_Some (nodes : list Node) :
  visitQueue (Some <$> nodes) = visitAll nodes.
Proof.
  induction nodes as [|k l IH]; [done|].
  rewrite fmap_cons. cbn [visitQueue visitOpt visitAll]. by rewrite IH.
Qed.

Lemma pop_snoc {A} (queue : list A) (x : A) :
  pop (queue ++ [x]) = Some (x, queue).
Proof. unfold pop. by rewrite reverse_snoc, reverse_involutive. Qed.

Lemma pop_None {A} (queue : list A) : pop queue = None → queue = [].
Proof.
  unfold pop. destruct (reverse queue) eqn:E; [|done]. intros _.
  by rewrite <- (reverse_involutive queue), E.
Qed.

Lemma pop_Some {A} (queue rest : list A) (x : A) :
  pop queue = Some (x, rest) → queue = rest ++ [x].
Proof.
  unfold pop. destruct (reverse queue) as [|y r] eqn:E; [done|].
  intros [= <- <-]. by rewrite <- (reverse_involutive queue), E, reverse_cons.
Qed.

(** The loop ends, having added the nodes of the queue in visiting
    order. *)
Lemma loop_spec (fuel : nat) (queue : list (option Node))
    (registry : Registry) :
  queueWeight queue < fuel →
  loop fuel queue registry = Some (addAll (visitQueue queue) registry).
Proof.
  revert queue registry.
  induction fuel as [|fuel IH]; intros queue registry Hfuel; [lia|].
  simpl. destruct (pop queue) as [[nextNode queue']|] eqn:Hpop.
  - apply pop_Some in Hpop as ->.
    rewrite queueWeight_app, queueWeight_singleton in Hfuel.
    rewrite visitQueue_app. cbn [visitQueue app].
    destruct nextNode as [[tag kids]|]; cbn [visitOpt weightOf] in *.
    + rewrite visit_eq. cbn [tagName childNodes].
      rewrite weight_eq in Hfuel.
      destruct (truthy tag).
      * rewrite IH.
        -- unfold concat. rewrite visitQueue_app.
           assert (visitQueue (match kids with
                               | Some nodes => Some <$> nodes
                               | None => [None]
                               end) = visitAll (default [] kids)) as ->
             by (destruct kids; [apply visitQueue_Some|done]).
           done.
        -- unfold concat. rewrite queueWeight_app.
           destruct kids as [nodes|].
           ++ rewrite queueWeight_Some. lia.
           ++ rewrite queueWeight_singleton. simpl. lia.
      * rewrite IH by lia. done.
    + rewrite IH by lia. done.
  - by rewrite (pop_None _ Hpop).
Qed.

Lemma addNode_fields (node : Node) (registry : Registry) :
  template (addNode node registry) =
    template registry ++ filter (hasTag "template") [node] ∧
  script (addNode node registry) =
    script registry ++ filter (hasTag "script") [node] ∧
  style (addNode node registry) =
    style registry ++ filter (hasTag "style") [node].
Proof.
  destruct node as [[tag|] kids]; unfold addNode; cbn [tagName];
    rewrite !filter_cons, !filter_nil;
    repeat case_decide; unfold hasTag in *; simpl in *; simplify_eq;
    rewrite ?app_nil_r; done.
Qed.

Lemma addAll_fields (nodes : list Node) (registry : Registry) :
  template (addAll nodes registry) =
    template registry ++ filter (hasTag "template") nodes ∧
  script (addAll nodes registry) =
    script registry ++ filter (hasTag "script") nodes ∧
  style (addAll nodes registry) =
    style registry ++ filter (hasTag "style") nodes.
Proof.
  revert registry. induction nodes as [|node nodes IH]; intros registry.
  - simpl. by rewrite !filter_nil, !app_nil_r.
  - change (addAll (node :: nodes) registry)
      with (addAll nodes (addNode node registry)).
    destruct (IH (addNode node registry)) as (-> & -> & ->).
    destruct (addNode_fields node registry) as (-> & -> & ->).
    rewrite <- !app_assoc.
    by rewrite <- !filter_app.
Qed.

Section Facts.

Variable parse : string → Result Node.

(** X15: [importParse] ends on every document.  It returns, for each of the
    tags [template], [script] and [style], the elements with that tag
    that can be reached from the root through elements only, a parent
    before its children and the children of one parent from the last to
    the first.  When the parser throws, the exception is dropped and a
    [TypeError] is thrown instead. *)
Theorem importParse_visits_elements (htmlString : string) :
  match parse htmlString with
  | Throw _ =>
      importParse parse htmlString =
        Some (Throw "TypeError: Cannot read property 'childNodes' of undefined")
  | Ok doc =>
      let nodes := visitAll (default [] (childNodes doc)) in
      importParse parse htmlString =
        Some (Ok {| template := filter (hasTag "template") nodes;
                    script := filter (hasTag "script") nodes;
                    style := filter (hasTag "style") nodes |})
  end.
Proof.
  unfold importParse. destruct (parse htmlString) as [doc|e]; [|done].
  cbv zeta. rewrite loop_spec by lia. simpl. do 2 f_equal.
  assert (visitQueue (concat [] (childNodes doc))
          = visitAll (default [] (childNodes doc))) as ->.
  { unfold concat. simpl. destruct (childNodes doc); [apply visitQueue_Some|done]. }
  destruct (addAll_fields (visitAll (default [] (childNodes doc)))
              emptyRegistry) as (H1 & H2 & H3).
  destruct (addAll _ _) as [t sc st]. simpl in *. by rewrite H1, H2, H3.
Qed.

End Facts.

(** Two scripts, the second of which holds a template, and a third script
    below a node without a tag name. *)
Definition leaf (tag : string) : Node := MkNode (Some tag) (Some []).

Definition sampleDocument : Node :=
  MkNode None
    (Some [MkNode (Some "html")
             (Some [leaf "script";
                    MkNode (Some "script") (Some [leaf "template"]);
                    MkNode None (Some [leaf "script"])])]).

Example importParse_sampleDocument :
  importParse (λ _, Ok sampleDocument) "" =
    Some (Ok {| template := [leaf "template"];
                script := [MkNode (Some "script") (Some [leaf "template"]);
                           leaf "script"];
                style := [] |}).
Proof. reflexivity. Qed.

End ImportParse.

(** ** generate-analysis (src/unnamed/part_001) *)

Module GenerateAnalysis.

(** [name.lastIndexOf(c)] for a one-character pattern, [None] standing for
    [-1]. *)
Fixpoint lastIndexOf (c : ascii) (name : string) : option nat :=
  match name with
  | EmptyString => None
  | String a rest =>
      match lastIndexOf c rest with
      | Some i => Some (S i)
      | None => if decide (a = c) then Some 0 else None
      end
  end.

(** [getNamespaceName(name)]; [None] is [undefined]. *)
Definition getNamespaceName (name : option string) : option string :=
  match name with
  | None => None
  | Some name =>
      match lastIndexOf "." name with
      | None => None
      | Some lastDotIndex => Some (String.substring 0 lastDotIndex name)
      end
  end.

(** [name.substring(0, i)] and the rest of [name] from [i + 1] on. *)
Lemma lastIndexOf_None (c : ascii) (name : string) :
  lastIndexOf c name = None ↔ ∀ i, String.get i name ≠ Some c.
Proof.
  induction name as [|a rest IH]; simpl; [done|].
  destruct (lastIndexOf c rest) as [j|] eqn:Hrest.
  - split; [done|]. intros Hget. exfalso.
    assert (Some j = None) as Hj; [|done].
    apply IH. intros i. exact (Hget (S i)).
  - destruct (decide (a = c)) as [->|Hne].
    + split; [done|]. intros Hget. by destruct (Hget 0).
    + split; [|done]. intros _ [|i]; simpl; [congruence|].
      by apply IH.
Qed.

Lemma lastIndexOf_Some (c : ascii) (name : string) (i : nat) :
  lastIndexOf c name = Some i →
  name = String.substring 0 i name +:+ String c (Str.drop (S i) name) ∧
  lastIndexOf c (Str.drop (S i) name) = None.
Proof.
  revert i. induction name as [|a name IH]; intros i; [done|].
  cbn [lastIndexOf].
  destruct (lastIndexOf c name) as [j|] eqn:Hrest.
  - intros [= <-]. destruct (IH j eq_refl) as (Hname & Hnone).
    split; [|done].
    change (Str.drop (S (S j)) (String a name)) with (Str.drop (S j) name).
    change (String.substring 0 (S j) (String a name))
      with (String a (String.substring 0 j name)).
    change (String a name =
            String a (String.substring 0 j name +:+
                      String c (Str.drop (S j) name))).
    by rewrite <- Hname.
  - destruct (decide (a = c)) as [->|Hne]; [|done].
    intros [= <-]. split; [by destruct name|]. by destruct name.
Qed.

(** [functionName.slice(functionName.lastIndexOf('.') + 1)], the specific
    name of a function (javascript/function-scanner). *)
Definition specificName (functionName : string) : string :=
  match lastIndexOf "." functionName with
  | Some lastDotIndex => Str.drop (lastDotIndex + 1) functionName
  | None => Str.drop 0 functionName
  end.

(** X16: a dotted name is cut at its last dot.  [getNamespaceName] returns
    what is before the last dot of the name and the scanner of functions
    takes what is after it as the specific name: the name is the one,
    a dot and the other, and the specific name has no dot.  Of a name
    without a dot [getNamespaceName] returns nothing and the specific
    name is the name itself. *)
Theorem getNamespaceName_cuts_at_last_dot (name : string) :
  (∀ i, String.get i (specificName name) ≠ Some "."%char) ∧
  match getNamespaceName (Some name) with
  | Some namespaceName => name = namespaceName +:+ "." +:+ specificName name
  | None => specificName name = name ∧
            ∀ i, String.get i name ≠ Some "."%char
  end.
Proof.
  unfold getNamespaceName, specificName.
  destruct (lastIndexOf "." name) as [i|] eqn:Hi.
  - destruct (lastIndexOf_Some _ _ _ Hi) as (Hname & Hnone).
    rewrite Nat.add_1_r. split; [by apply lastIndexOf_None|done].
  - assert (Str.drop 0 name = name) as -> by by destruct name.
    split_and!; [|done|]; by apply lastIndexOf_None.
Qed.

Record Position := { line : nat; column : nat }.
Record SourceRange := { file : string; start : Position; end_ : Position }.

(** A resolved namespace (javascript/namespace). *)
Record ResolvedNamespace := {
  name : string;
  description : string;
  summary : string;
  sourceRange : SourceRange;
}.

(** What [serializeNamespace] returns. *)
Record NamespaceMetadata := {
  md_name : string;
  md_description : string;
  md_summary : string;
  md_sourceRange : SourceRange;
}.

Section WithMembers.

(** The resolved members other than namespaces and what they are
    serialized to are opaque to [buildAnalysis], which reads their names
    only. *)
Context {ResolvedElement ResolvedMixin ResolvedFunction ResolvedBehavior : Type}.
Context {Element ElementMixin Function : Type}.

Variable className : ResolvedElement → option string.
Variable mixinName : ResolvedMixin → option string.
Variable functionName : ResolvedFunction → option string.
Variable behaviorClassName : ResolvedBehavior → option string.

Variable serializeElement : ResolvedElement → string → Element.
Variable serializeElementMixin : ResolvedMixin → string → ElementMixin.
Variable serializeFunction : ResolvedFunction → string → Function.
Variable serializePolymerBehaviorAsElementMixin :
  ResolvedBehavior → string → ElementMixin.

(** [path.posix.relative] and [posixify] (utils). *)
Variable posix_relative : string → string → string.
Variable posixify : string → string.

Record Members := {
  elements : list ResolvedElement;
  mixins : list ResolvedMixin;
  namespaces : list ResolvedNamespace;
  functions : list ResolvedFunction;
  polymerBehaviors : list ResolvedBehavior;
}.

(** An [Analysis] and a [Namespace] both hold the members filed under
    them; a [Namespace] also has its own metadata, the [header].  The namespaces filed under
    a container are objects shared with the map of namespaces: they are
    kept by their key in that map.  A list that is empty stands for a
    property that was never set. *)
Record Container := {
  header : option NamespaceMetadata;
  c_namespaces : list string;
  c_elements : list Element;
  c_mixins : list ElementMixin;
  c_functions : list Function;
  (* metadata.polymer.behaviors *)
  c_behaviors : list ElementMixin;
}.

(** [serializeNamespace(namespace, packagePath)]. *)
Definition serializeNamespace (namespace : ResolvedNamespace)
    (packagePath : string) : Container :=
  let packageRelativePath :=
    posix_relative packagePath (posixify (file (sourceRange namespace))) in
  {| header :=
       Some {| md_name := name namespace;
               md_description := description namespace;
               md_summary := summary namespace;
               md_sourceRange :=
                 {| file := packageRelativePath;
                    start := start (sourceRange namespace);
                    end_ := end_ (sourceRange namespace) |} |};
     c_namespaces := []; c_elements := []; c_mixins := [];
     c_functions := []; c_behaviors := [] |}.

(** A [Map] with string keys, in insertion order. *)
Definition NamespaceMap := list (string * Container).

(** [map.set(key, value)]: a key that is there keeps its place. *)
Fixpoint mapSet (key : string) (value : Container) (map : NamespaceMap)
  : NamespaceMap :=
  match map with
  | [] => [(key, value)]
  | (k, v) :: rest =>
      if decide (k = key) then (k, value) :: rest
      else (k, v) :: mapSet key value rest
  end.

Definition mapHas (key : string) (map : NamespaceMap) : bool :=
  bool_decide (key ∈ map.*1).

(** The analysis being built and the namespace objects. *)
Record State := {
  analysis : Container;
  objects : NamespaceMap;
}.

(** [namespaces.get(namespaceName) || analysis], as a reference: the key
    of a namespace object, or [None] for the analysis. *)
Definition parentOf (map : NamespaceMap) (namespaceName : option string)
  : option string :=
  match namespaceName with
  | Some key => if mapHas key map then Some key else None
  | None => None
  end.

(** A write to the namespace object with the given key. *)
Definition onKey (key : string) (f : Container → Container)
    (kv : string * Container) : string * Container :=
  if decide (kv.1 = key) then (kv.1, f kv.2) else kv.

(** A write through such a reference. *)
Definition update (target : option string) (f : Container → Container)
    (st : State) : State :=
  match target with
  | None => {| analysis := f (analysis st); objects := objects st |}
  | Some key =>
      {| analysis := analysis st; objects := onKey key f <$> objects st |}
  end.

Definition pushNamespace (key : string) (c : Container) : Container :=
  {| header := header c; c_namespaces := c_namespaces c ++ [key];
     c_elements := c_elements c; c_mixins := c_mixins c;
     c_functions := c_functions c; c_behaviors := c_behaviors c |}.

Definition pushElement (x : Element) (c : Container) : Container :=
  {| header := header c; c_namespaces := c_namespaces c;
     c_elements := c_elements c ++ [x]; c_mixins := c_mixins c;
     c_functions := c_functions c; c_behaviors := c_behaviors c |}.

Definition pushMixin (x : ElementMixin) (c : Container) : Container :=
  {| header := header c; c_namespaces := c_namespaces c;
     c_elements := c_elements c; c_mixins := c_mixins c ++ [x];
     c_functions := c_functions c; c_behaviors := c_behaviors c |}.

Definition pushFunction (x : Function) (c : Container) : Container :=
  {| header := header c; c_namespaces := c_namespaces c;
     c_elements := c_elements c; c_mixins := c_mixins c;
     c_functions := c_functions c ++ [x]; c_behaviors := c_behaviors c |}.

Definition pushBehavior (x : ElementMixin) (c : Container) : Container :=
  {| header := header c; c_namespaces := c_namespaces c;
     c_elements := c_elements c; c_mixins := c_mixins c;
     c_functions := c_functions c; c_behaviors := c_behaviors c ++ [x] |}.

(** [{schema_version: '1.0.0'}]. *)
Definition emptyAnalysis : Container :=
  {| header := None; c_namespaces := []; c_elements := []; c_mixins := [];
     c_functions := []; c_behaviors := [] |}.

(** [buildAnalysis(members, packagePath)]. *)
Definition buildAnalysis (members : Members) (packagePath : string) : State :=
  (* Build mapping of namespaces *)
  let namespaces0 :=
    foldl (λ map namespace,
             mapSet (name namespace) (serializeNamespace namespace packagePath)
               map)
          [] (namespaces members) in
  let st0 := {| analysis := emptyAnalysis; objects := namespaces0 |} in
  let st1 :=
    foldl (λ st key,
             let namespaceName := getNamespaceName (Some key) in
             update (parentOf (objects st) namespaceName) (pushNamespace key)
               st)
          st0 namespaces0.*1 in
  let st2 :=
    foldl (λ st element,
             let namespaceName := getNamespaceName (className element) in
             update (parentOf (objects st) namespaceName)
               (pushElement (serializeElement element packagePath)) st)
          st1 (elements members) in
  let st3 :=
    foldl (λ st mixin,
             let namespaceName := getNamespaceName (mixinName mixin) in
             update (parentOf (objects st) namespaceName)
               (pushMixin (serializeElementMixin mixin packagePath)) st)
          st2 (mixins members) in
  let st4 :=
    foldl (λ st _function,
             let namespaceName := getNamespaceName (functionName _function) in
             update (parentOf (objects st) namespaceName)
               (pushFunction (serializeFunction _function packagePath)) st)
          st3 (functions members) in
  foldl (λ st behavior,
           let namespaceName :=
             getNamespaceName (behaviorClassName behavior) in
           update (parentOf (objects st) namespaceName)
             (pushBehavior
                (serializePolymerBehaviorAsElementMixin behavior packagePath))
             st)
        st4 (polymerBehaviors members).

(** [map.get(key)]. *)
Fixpoint mapGet (key : string) (map : NamespaceMap) : option Container :=
  match map with
  | [] => None
  | (k, v) :: rest => if decide (k = key) then Some v else mapGet key rest
  end.

(** The container behind a reference. *)
Definition deref (st : State) (target : option string) : option Container :=
  match target with
  | None => Some (analysis st)
  | Some key => mapGet key (objects st)
  end.

(** The container a name belongs to, given the keys of the namespaces:
    the namespace whose key is the name cut at its last dot, or else the
    analysis. *)
Definition parentIn (keys : list string) (namespaceName : option string)
  : option string :=
  match namespaceName with
  | Some key => if bool_decide (key ∈ keys) then Some key else None
  | None => None
  end.

(** The members of [xs] that are filed under [target]. *)
Definition filedUnder {X} (keys : list string) (nameOf : X → option string)
    (target : option string) (xs : list X) : list X :=
  filter (λ x, parentIn keys (getNamespaceName (nameOf x)) = target) xs.

(** One of the loops of [buildAnalysis]. *)
Definition fileAll {X} (nameOf : X → option string)
    (push : X → Container → Container) (xs : list X) (st : State) : State :=
  foldl (λ st x, update (parentOf (objects st) (getNamespaceName (nameOf x)))
                   (push x) st)
        st xs.

(** *** Facts *)

Lemma update_keys (target : option string) (f : Container → Container)
    (st : State) :
  (objects (update target f st)).*1 = (objects st).*1.
Proof.
  destruct target as [key|]; simpl; [|done].
  rewrite <- list_fmap_compose. apply list_fmap_ext.
  intros i [k v] _. unfold onKey. simpl. by destruct (decide (k = key)).
Qed.

Lemma parentOf_parentIn (map : NamespaceMap) (n : option string) :
  parentOf map n = parentIn map.*1 n.
Proof. done. Qed.

Lemma mapGet_update (key k : string) (f : Container → Container)
    (map : NamespaceMap) :
  mapGet k (onKey key f <$> map)
  = (if decide (k = key) then f else id) <$> mapGet k map.
Proof.
  induction map as [|[k0 v0] rest IH]; [done|].
  rewrite fmap_cons. unfold onKey at 1. cbn [fst snd].
  destruct (decide (k0 = key)) as [->|Hne]; cbn [mapGet].
  - destruct (decide (key = k)) as [->|Hk].
    + by rewrite decide_True.
    + by rewrite IH.
  - destruct (decide (k0 = k)) as [->|Hk].
    + by rewrite decide_False.
    + by rewrite IH.
Qed.

Lemma deref_update (target p : option string) (f : Container → Container)
    (st : State) :
  deref (update target f st) p =
  (if decide (target = p) then f else id) <$> deref st p.
Proof.
  destruct target as [key|], p as [k|]; simpl; try done.
  - rewrite mapGet_update.
    destruct (decide (k = key)) as [->|Hne].
    + by rewrite decide_True.
    + by rewrite decide_False by congruence.
  - by destruct (mapGet k (objects st)).
Qed.

Lemma fileAll_keys {X} (nameOf : X → option string)
    (push : X → Container → Container) (xs : list X) (st : State) :
  (objects (fileAll nameOf push xs st)).*1 = (objects st).*1.
Proof.
  unfold fileAll. revert st. induction xs as [|x xs IH]; intros st; simpl;
    [done|]. by rewrite IH, update_keys.
Qed.

(** A loop pushes to each container the members filed under it, in
    order. *)
Lemma fileAll_deref {X} (nameOf : X → option string)
    (push : X → Container → Container) (xs : list X) (st : State)
    (p : option string) :
  deref (fileAll nameOf push xs st) p =
  (λ c, foldl (λ c x, push x c) c (filedUnder (objects st).*1 nameOf p xs))
    <$> deref st p.
Proof.
  unfold fileAll, filedUnder. revert st.
  induction xs as [|x xs IH]; intros st; simpl.
  - by destruct (deref st p).
  - rewrite IH, deref_update, filter_cons, update_keys, parentOf_parentIn.
    destruct (deref st p) as [c|]; simpl; [|done].
    by destruct (decide (parentIn (objects st).*1
                           (getNamespaceName (nameOf x)) = p)).
Qed.

Lemma mapSet_keys (key : string) (value : Container) (map : NamespaceMap) :
  (mapSet key value map).*1 =
  if decide (key ∈ map.*1) then map.*1 else map.*1 ++ [key].
Proof.
  induction map as [|[k v] rest IH].
  - cbn [mapSet fmap list_fmap fst app].
    destruct (decide (key ∈ [])) as [Hin|_]; [|done].
    by apply elem_of_nil in Hin.
  - cbn [mapSet]. rewrite fmap_cons. cbn [fst].
    destruct (decide (k = key)) as [->|Hne].
    + rewrite fmap_cons. cbn [fst]. rewrite decide_True; [done|]. by left.
    + rewrite fmap_cons, IH. cbn [fst].
      destruct (decide (key ∈ rest.*1)) as [Hin|Hnin].
      * rewrite decide_True; [done|]. by right.
      * rewrite decide_False; [done|]. by intros [?|?]%elem_of_cons.
Qed.

Lemma mapGet_mapSet (key k : string) (value : Container) (map : NamespaceMap) :
  mapGet k (mapSet key value map) =
  if decide (k = key) then Some value else mapGet k map.
Proof.
  induction map as [|[k0 v0] rest IH]; simpl.
  - destruct (decide (key = k)) as [->|?].
    + by rewrite decide_True.
    + by rewrite decide_False.
  - destruct (decide (k0 = key)) as [->|Hne]; simpl.
    + destruct (decide (key = k)) as [->|?].
      * by rewrite decide_True.
      * by rewrite decide_False.
    + destruct (decide (k0 = k)) as [->|?].
      * by rewrite decide_False.
      * apply IH.
Qed.

(** The map of namespaces: one key for each name, in the order of the
    first namespace of the name, with the serialization of the last
    one. *)
Definition namespaceMap (nss : list ResolvedNamespace) (packagePath : string)
    (map : NamespaceMap) : NamespaceMap :=
  foldl (λ map namespace,
           mapSet (name namespace) (serializeNamespace namespace packagePath)
             map)
        map nss.

Lemma namespaceMap_spec (nss : list ResolvedNamespace) (packagePath : string)
    (map : NamespaceMap) :
  let map' := namespaceMap nss packagePath map in
  (∀ key, key ∈ map'.*1 ↔ key ∈ map.*1 ∨ key ∈ name <$> nss) ∧
  (NoDup map.*1 → NoDup map'.*1) ∧
  ∀ key, mapGet key map' =
         match last (filter (λ n, name n = key) nss) with
         | Some namespace => Some (serializeNamespace namespace packagePath)
         | None => mapGet key map
         end.
Proof.
  unfold namespaceMap. revert map.
  induction nss as [|n nss IH]; intros map; simpl.
  - split_and!; [|done|done]. intros key. rewrite elem_of_nil. tauto.
  - destruct (IH (mapSet (name n) (serializeNamespace n packagePath) map))
      as (Hkeys & Hnd & Hget).
    split_and!.
    + intros key. rewrite Hkeys, mapSet_keys, elem_of_cons.
      destruct (decide (name n ∈ map.*1)) as [Hin|Hnin].
      * split; [tauto|]. intros [?|[->|?]]; tauto.
      * rewrite elem_of_app, list_elem_of_singleton. tauto.
    + intros Hmap. apply Hnd. rewrite mapSet_keys.
      destruct (decide (name n ∈ map.*1)) as [Hin|Hnin]; [done|].
      apply NoDup_app. split_and!; [done| |apply NoDup_singleton].
      by intros x ? ->%list_elem_of_singleton.
    + intros key. rewrite Hget, mapGet_mapSet, filter_cons.
      destruct (decide (name n = key)) as [Heq|Hne].
      * rewrite (decide_True (P := key = name n)) by done.
        match goal with
        | |- context [last (n :: ?l)] => generalize l
        end.
        intros [|y l]; [done|].
        change (last (n :: y :: l)) with (last (y :: l)).
        destruct (last (y :: l)) eqn:El; [done|]. by apply last_None in El.
      * by rewrite (decide_False (P := key = name n)) by congruence.
Qed.

Lemma mapGet_is_Some (key : string) (map : NamespaceMap) :
  is_Some (mapGet key map) ↔ key ∈ map.*1.
Proof.
  induction map as [|[k v] rest IH]; simpl.
  - split; [by intros [??]|by intros ?%elem_of_nil].
  - destruct (decide (k = key)) as [->|Hne].
    + split; [left|by eexists].
    + rewrite IH, elem_of_cons. split; [by right|].
      intros [Heq|Hin]; [by destruct Hne|done].
Qed.

Lemma foldl_pushNamespace (keys : list string) (c : Container) :
  foldl (λ c key, pushNamespace key c) c keys =
  {| header := header c; c_namespaces := c_namespaces c ++ keys;
     c_elements := c_elements c; c_mixins := c_mixins c;
     c_functions := c_functions c; c_behaviors := c_behaviors c |}.
Proof.
  revert c. induction keys as [|x xs IH]; intros c; simpl.
  - destruct c; simpl. by rewrite app_nil_r.
  - rewrite IH. simpl. by rewrite <- app_assoc.
Qed.

Lemma foldl_pushElement {X} (g : X → Element) (xs : list X) (c : Container) :
  foldl (λ c x, pushElement (g x) c) c xs =
  {| header := header c; c_namespaces := c_namespaces c;
     c_elements := c_elements c ++ (g <$> xs); c_mixins := c_mixins c;
     c_functions := c_functions c; c_behaviors := c_behaviors c |}.
Proof.
  revert c. induction xs as [|x xs IH]; intros c; simpl.
  - destruct c; simpl. by rewrite app_nil_r.
  - rewrite IH. simpl. by rewrite <- app_assoc.
Qed.

Lemma foldl_pushMixin {X} (g : X → ElementMixin) (xs : list X)
    (c : Container) :
  foldl (λ c x, pushMixin (g x) c) c xs =
  {| header := header c; c_namespaces := c_namespaces c;
     c_elements := c_elements c; c_mixins := c_mixins c ++ (g <$> xs);
     c_functions := c_functions c; c_behaviors := c_behaviors c |}.
Proof.
  revert c. induction xs as [|x xs IH]; intros c; simpl.
  - destruct c; simpl. by rewrite app_nil_r.
  - rewrite IH. simpl. by rewrite <- app_assoc.
Qed.

Lemma foldl_pushFunction {X} (g : X → Function) (xs : list X)
    (c : Container) :
  foldl (λ c x, pushFunction (g x) c) c xs =
  {| header := header c; c_namespaces := c_namespaces c;
     c_elements := c_elements c; c_mixins := c_mixins c;
     c_functions := c_functions c ++ (g <$> xs);
     c_behaviors := c_behaviors c |}.
Proof.
  revert c. induction xs as [|x xs IH]; intros c; simpl.
  - destruct c; simpl. by rewrite app_nil_r.
  - rewrite IH. simpl. by rewrite <- app_assoc.
Qed.

Lemma foldl_pushBehavior {X} (g : X → ElementMixin) (xs : list X)
    (c : Container) :
  foldl (λ c x, pushBehavior (g x) c) c xs =
  {| header := header c; c_namespaces := c_namespaces c;
     c_elements := c_elements c; c_mixins := c_mixins c;
     c_functions := c_functions c;
     c_behaviors := c_behaviors c ++ (g <$> xs) |}.
Proof.
  revert c. induction xs as [|x xs IH]; intros c; simpl.
  - destruct c; simpl. by rewrite app_nil_r.
  - rewrite IH. simpl. by rewrite <- app_assoc.
Qed.

Lemma buildAnalysis_eq (members : Members) (packagePath : string) :
  buildAnalysis members packagePath =
  let namespaces0 := namespaceMap (namespaces members) packagePath [] in
  fileAll behaviorClassName
    (λ x, pushBehavior (serializePolymerBehaviorAsElementMixin x packagePath))
    (polymerBehaviors members)
    (fileAll functionName (λ x, pushFunction (serializeFunction x packagePath))
       (functions members)
       (fileAll mixinName
          (λ x, pushMixin (serializeElementMixin x packagePath))
          (mixins members)
          (fileAll className
             (λ x, pushElement (serializeElement x packagePath))
             (elements members)
             (fileAll Some pushNamespace namespaces0.*1
                {| analysis := emptyAnalysis; objects := namespaces0 |})))).
Proof. done. Qed.

(** The container with the given [header] that holds, of all the members,
    those filed under [target], in their order. *)
Definition filed (members : Members) (packagePath : string)
    (keys : list string) (target : option string)
    (header : option NamespaceMetadata) : Container :=
  {| header := header;
     c_namespaces := filedUnder keys Some target keys;
     c_elements :=
       (λ x, serializeElement x packagePath)
         <$> filedUnder keys className target (elements members);
     c_mixins :=
       (λ x, serializeElementMixin x packagePath)
         <$> filedUnder keys mixinName target (mixins members);
     c_functions :=
       (λ x, serializeFunction x packagePath)
         <$> filedUnder keys functionName target (functions members);
     c_behaviors :=
       (λ x, serializePolymerBehaviorAsElementMixin x packagePath)
         <$> filedUnder keys behaviorClassName target
               (polymerBehaviors members) |}.

Lemma buildAnalysis_keys (members : Members) (packagePath : string) :
  (objects (buildAnalysis members packagePath)).*1 =
  (namespaceMap (namespaces members) packagePath []).*1.
Proof. rewrite buildAnalysis_eq. cbv zeta. by rewrite !fileAll_keys. Qed.

Lemma buildAnalysis_deref (members : Members) (packagePath : string)
    (p : option string) :
  let st := buildAnalysis members packagePath in
  deref st p =
  (λ c, filed members packagePath (objects st).*1 p (header c))
    <$> deref {| analysis := emptyAnalysis;
                 objects := namespaceMap (namespaces members) packagePath [] |}
              p.
Proof.
  cbv zeta. rewrite buildAnalysis_keys, buildAnalysis_eq. cbv zeta.
  rewrite !fileAll_deref, !fileAll_keys. cbn [objects].
  set (keys := (namespaceMap (namespaces members) packagePath []).*1).
  assert (∀ c, header c = header c ∧ c_namespaces c = [] ∧ c_elements c = [] ∧
               c_mixins c = [] ∧ c_functions c = [] ∧ c_behaviors c = [] →
    foldl (λ c x,
             pushBehavior (serializePolymerBehaviorAsElementMixin x packagePath)
               c)
      (foldl (λ c x, pushFunction (serializeFunction x packagePath) c)
         (foldl (λ c x, pushMixin (serializeElementMixin x packagePath) c)
            (foldl (λ c x, pushElement (serializeElement x packagePath) c)
               (foldl (λ c x, pushNamespace x c) c
                  (filedUnder keys Some p keys))
               (filedUnder keys className p (elements members)))
            (filedUnder keys mixinName p (mixins members)))
         (filedUnder keys functionName p (functions members)))
      (filedUnder keys behaviorClassName p (polymerBehaviors members))
    = filed members packagePath keys p (header c)) as Hfold.
  { intros c (_ & Hn & He & Hm & Hf & Hb).
    rewrite foldl_pushBehavior, foldl_pushFunction, foldl_pushMixin,
      foldl_pushElement, foldl_pushNamespace.
    cbn [header c_namespaces c_elements c_mixins c_functions c_behaviors].
    by rewrite Hn, He, Hm, Hf, Hb. }
  destruct p as [key|]; cbn [deref analysis objects].
  - destruct (namespaceMap_spec (namespaces members) packagePath [])
      as (_ & _ & Hget).
    rewrite Hget. cbn [mapGet].
    destruct (last _) as [n|]; [|done]. cbn [fmap option_fmap option_map].
    f_equal. by apply Hfold.
  - cbn [fmap option_fmap option_map]. f_equal. by apply Hfold.
Qed.

(** A namespace object is listed when the analysis holds it, or a listed
    namespace does. *)
Inductive listed (st : State) : string → Prop :=
  | listed_top key :
      key ∈ c_namespaces (analysis st) → listed st key
  | listed_nested parent c key :
      listed st parent → mapGet parent (objects st) = Some c →
      key ∈ c_namespaces c → listed st key.

(** The namespace a name is cut to is shorter than the name. *)
Lemma getNamespaceName_shorter (name namespaceName : string) :
  getNamespaceName (Some name) = Some namespaceName →
  String.length namespaceName < String.length name.
Proof.
  unfold getNamespaceName.
  destruct (lastIndexOf "." name) as [i|] eqn:Hi; [|done]. intros [= <-].
  destruct (lastIndexOf_Some _ _ _ Hi) as (Hname & _).
  rewrite Hname at 2. rewrite Str.length_append. simpl. lia.
Qed.

(** The analysis and the namespace objects that [buildAnalysis] leaves. *)
Lemma buildAnalysis_spec (members : Members)
    (packagePath : string) :
  let st := buildAnalysis members packagePath in
  let keys := (objects st).*1 in
  NoDup keys ∧ (∀ key, key ∈ keys ↔ key ∈ name <$> namespaces members) ∧
  analysis st = filed members packagePath keys None None ∧
  ∀ key,
    mapGet key (objects st) =
    namespace ← last (filter (λ n, name n = key) (namespaces members));
    Some (filed members packagePath keys (Some key)
            (header (serializeNamespace namespace packagePath))).
Proof.
  cbv zeta.
  destruct (namespaceMap_spec (namespaces members) packagePath [])
    as (Hkeys & Hnd & Hget).
  split_and!.
  - rewrite buildAnalysis_keys. apply Hnd. constructor.
  - intros key. rewrite buildAnalysis_keys, Hkeys. cbn [fmap list_fmap].
    rewrite elem_of_nil. tauto.
  - pose proof (buildAnalysis_deref members packagePath None) as H.
    cbv zeta in H. simpl in H. by injection H.
  - intros key.
    pose proof (buildAnalysis_deref members packagePath (Some key)) as H.
    cbv zeta in H. cbn [deref objects] in H. rewrite H, Hget. cbn [mapGet].
    by destruct (last _).
Qed.

(** X17: how [buildAnalysis] files the members.  There is one namespace
    object for each name of a namespace, made from the last namespace of
    that name.  The analysis and each namespace object hold, in the order
    of the members, exactly the namespaces, elements, mixins, functions
    and behaviors whose name cut at its last dot is the name of that
    namespace object; the analysis holds those whose name has no dot or
    is cut to a name that no namespace has. *)
Theorem buildAnalysis_files_members (members : Members)
    (packagePath : string) :
  let st := buildAnalysis members packagePath in
  let keys := (objects st).*1 in
  NoDup keys ∧ (∀ key, key ∈ keys ↔ key ∈ name <$> namespaces members) ∧
  analysis st = filed members packagePath keys None None ∧
  ∀ key,
    mapGet key (objects st) =
    namespace ← last (filter (λ n, name n = key) (namespaces members));
    Some (filed members packagePath keys (Some key)
            (header (serializeNamespace namespace packagePath))).
Proof. apply buildAnalysis_spec. Qed.

(** X18: [buildAnalysis] loses no namespace: each namespace object is held
    by the analysis or by a namespace object that is itself held, so that
    all of them are found from the analysis. *)
Theorem buildAnalysis_lists_every_namespace (members : Members)
    (packagePath : string) :
  Forall (λ namespace, listed (buildAnalysis members packagePath)
                         (name namespace))
         (namespaces members).
Proof.
  set (st := buildAnalysis members packagePath).
  destruct (buildAnalysis_spec members packagePath)
    as (_ & Hkeys & Htop & Hget).
  fold st in Hkeys, Htop, Hget.
  assert (∀ len key, String.length key < len → key ∈ (objects st).*1 →
                     listed st key) as Hlisted.
  { induction len as [|len IH]; intros key Hlen Hin; [lia|].
    destruct (parentIn (objects st).*1 (getNamespaceName (Some key)))
      as [parent|] eqn:Hparent.
    - unfold parentIn in Hparent.
      destruct (getNamespaceName (Some key)) as [k|] eqn:Hk; [|done].
      case_bool_decide as Hkin; [|done]. injection Hparent as ->.
      pose proof (Hget parent) as Hc.
      destruct (mapGet parent (objects st)) as [c|] eqn:Hmap.
      + apply (listed_nested st parent c); [|done|].
        * apply IH; [|done]. apply getNamespaceName_shorter in Hk. lia.
        * destruct (last _); [|done]. simpl in Hc. injection Hc as ->.
          simpl. apply list_elem_of_filter. split; [|done].
          unfold parentIn. rewrite Hk. by rewrite bool_decide_eq_true_2.
      + apply mapGet_is_Some in Hkin. rewrite Hmap in Hkin.
        by destruct Hkin.
    - apply listed_top. rewrite Htop. simpl.
      apply list_elem_of_filter. by split. }
  apply Forall_forall. intros n Hn.
  apply (Hlisted (S (String.length (name n)))); [lia|].
  apply Hkeys. by apply list_elem_of_fmap_2.
Qed.

End WithMembers.

Definition sampleNamespace (n : string) : ResolvedNamespace :=
  {| name := n; description := "About " +:+ n; summary := "";
     sourceRange := {| file := "src/" +:+ n +:+ ".js";
                       start := {| line := 0; column := 0 |};
                       end_ := {| line := 1; column := 0 |} |} |}.

(** Members named by strings that serialize to their names. *)
Definition sampleAnalysis : State :=
  buildAnalysis Some Some Some Some (λ x _, x) (λ x _, x) (λ x _, x)
    (λ x _, x) (λ _ f, f) id
    {| elements := ["Polymer.MyElement"; "TopElement"];
       mixins := ["Polymer.Foo.Mixin"];
       namespaces :=
         sampleNamespace <$> ["Polymer.Foo"; "Polymer"; "Missing.Bar"];
       functions := ["Polymer.Foo.bar"; "Other.baz"];
       polymerBehaviors := ["Polymer.Behavior"] |}
    "".

Example buildAnalysis_sample :
  (objects sampleAnalysis).*1 = ["Polymer.Foo"; "Polymer"; "Missing.Bar"] ∧
  c_namespaces (analysis sampleAnalysis) = ["Polymer"; "Missing.Bar"] ∧
  c_elements (analysis sampleAnalysis) = ["TopElement"] ∧
  c_functions (analysis sampleAnalysis) = ["Other.baz"] ∧
  (c_namespaces <$> mapGet "Polymer" (objects sampleAnalysis))
    = Some ["Polymer.Foo"] ∧
  (c_elements <$> mapGet "Polymer" (objects sampleAnalysis))
    = Some ["Polymer.MyElement"] ∧
  (c_behaviors <$> mapGet "Polymer" (objects sampleAnalysis))
    = Some ["Polymer.Behavior"] ∧
  (c_mixins <$> mapGet "Polymer.Foo" (objects sampleAnalysis))
    = Some ["Polymer.Foo.Mixin"] ∧
  (c_functions <$> mapGet "Polymer.Foo" (objects sampleAnalysis))
    = Some ["Polymer.Foo.bar"].
Proof. by vm_compute. Qed.

End GenerateAnalysis.
